(** * A shallow embedding of the order book core

    Sources embedded here:
    - [src/core/enums.js]     the four frozen enumerations;
    - [src/core/Heap.js]      the array-backed binary heap and its two
                              comparators ([BidHeap], [AskHeap]);
    - [src/core/OrderBook.js] validation, normalisation, the matching
                              loop, cancellation, snapshots and hooks;
    - [src/network/Peer.js]   the handler of messages from other peers
                              ([#handleRemoteMessage]).

    Conventions of the embedding.
    - A JavaScript number ([Number]) is a finite value, [NaN],
      [Infinity] or [-Infinity]; [-], [<], [<=], [===], [Math.min] and
      [!] treat the three special values as the language does.  A
      finite value is an exact rational ([Q]) and arithmetic on finite
      values is exact: the rounding error of binary floating point is
      not modelled.  The code rounds after every subtraction, which
      hides that error as long as the operands stay below some [10^15]
      steps of the precision; statements that depend on the exact
      result of a subtraction carry that bound as a hypothesis.
      [toFixed] followed by [parseFloat] is rounding to a fixed count
      of decimals, half away from zero, and leaves the special values
      as they are.
    - [null] is [None].  A field that the object handed to [addOrder]
      may lack is an [option] too: the code tests such a field with
      [== null] or [!], or puts a default in its place, so that
      [undefined] and [null] go the same way.  The price of an order in
      a heap or in a snapshot is a number or [null]; as an operand of
      [-], [<=] or [>=] a [null] is coerced to [0], as the language
      does ([toNumber]).
    - An object handed to the book is the value it has when the call
      is made.  An object reachable from two places is modelled as two
      values: statements about snapshots ask for pairwise distinct ids
      where they depend on the listed orders being objects of their
      own.
    - A private array field is a [list]; [a[i]] is stdpp's lookup and
      [a[i] = x] stdpp's insert.  An object reachable through the heap
      array and mutated in place ([best.quantity = ...]) is modelled as
      an update of the array slot that holds it.
    - [Date.now()] is an argument [now] of every operation that reads
      the clock.
    - A hook is an observer: every call of [#emit] on a registered hook
      is recorded together with what [getTrades()] returns at that
      instant.  Hooks neither throw nor call back into the book, and
      callers do not write to the objects the book hands out.
    - A loop that the source leaves through its own condition is a
      [Fixpoint] on a count of turns large enough never to be used up
      ([bubbleUp_go_fuel], [bubbleDown_go_fuel], [lastState_exits]). *)

From Stdlib Require Import QArith Qabs Qround Qminmax Lqa ZifyNat.
From stdpp Require Import base list strings.

Ltac Zify.zify_post_hook ::= Z.to_euclidean_division_equations.

Local Open Scope Z_scope.

(** ** Numbers *)

Module Num.

Definition Qltb (x y : Q) : bool := negb (Qle_bool y x).

(** A number of the language. *)
Inductive Number :=
| Fin (q : Q)
| NaN
| PInf
| NInf.

(** The value of a finite number. *)
Definition fin (x : Number) : Q :=
  match x with Fin q => q | _ => 0%Q end.

Definition isFin (x : Number) : Prop :=
  match x with Fin _ => True | _ => False end.

(** [x < y] *)
Definition ltb (x y : Number) : bool :=
  match x, y with
  | Fin a, Fin b => Qltb a b
  | NaN, _ => false
  | _, NaN => false
  | NInf, NInf => false
  | NInf, _ => true
  | _, NInf => false
  | PInf, _ => false
  | Fin _, PInf => true
  end.

(** [x <= y] *)
Definition leb (x y : Number) : bool :=
  match x, y with
  | Fin a, Fin b => Qle_bool a b
  | NaN, _ => false
  | _, NaN => false
  | NInf, _ => true
  | _, PInf => true
  | PInf, _ => false
  | Fin _, NInf => false
  end.

(** [x === y] on two numbers: [NaN] equals nothing. *)
Definition eqb (x y : Number) : bool :=
  match x, y with
  | Fin a, Fin b => Qeq_bool a b
  | PInf, PInf => true
  | NInf, NInf => true
  | _, _ => false
  end.

(** [x - y] *)
Definition sub (x y : Number) : Number :=
  match x, y with
  | Fin a, Fin b => Fin (a - b)
  | NaN, _ => NaN
  | _, NaN => NaN
  | PInf, PInf => NaN
  | NInf, NInf => NaN
  | PInf, _ => PInf
  | NInf, _ => NInf
  | Fin _, PInf => NInf
  | Fin _, NInf => PInf
  end.

(** [Math.min(x, y)] *)
Definition min (x y : Number) : Number :=
  match x, y with
  | Fin a, Fin b => Fin (Qmin a b)
  | NaN, _ => NaN
  | _, NaN => NaN
  | NInf, _ => NInf
  | _, NInf => NInf
  | PInf, z => z
  | z, PInf => z
  end.

(** [!x]: [0] and [NaN] are falsy. *)
Definition falsy (x : Number) : bool :=
  match x with
  | Fin a => Qeq_bool a 0
  | NaN => true
  | _ => false
  end.

(** [ToNumber]: [null] is [0]. *)
Definition toNumber (x : option Number) : Number :=
  match x with Some q => q | None => Fin 0 end.

(** [x !== y] on values that are numbers or [null]. *)
Definition strictNeq (x y : option Number) : bool :=
  match x, y with
  | None, None => false
  | Some a, Some b => negb (eqb a b)
  | _, _ => true
  end.

Definition scale (decimals : nat) : Q := inject_Z (10 ^ Z.of_nat decimals).

(** [parseFloat(value.toFixed(decimals))] of a finite value: the sign is
    split off, the magnitude is rounded to the nearest multiple of
    [10^-decimals], the larger one on a tie. *)
Definition round (value : Q) (decimals : nat) : Q :=
  let n := Qfloor (Qabs value * scale decimals + (1 # 2)) in
  if Qle_bool 0 value
  then (inject_Z n / scale decimals)%Q
  else (- (inject_Z n / scale decimals))%Q.

(** [#round(value, decimals)]: [NaN] and the infinities print as their
    names, which [parseFloat] reads back. *)
Definition roundN (value : Number) (decimals : nat) : Number :=
  match value with
  | Fin q => Fin (round q decimals)
  | special => special
  end.

End Num.
Import Num.

(** ** enums.js *)

Inductive OrderSide := BUY | SELL.
Inductive OrderType := LIMIT | MARKET.
Inductive OrderStatus := OPEN | FILLED | PARTIALLY_FILLED | CANCELLED.
Inductive OrderBookEvent := TRADE | ORDER_ADDED | ORDER_REMOVED.

Definition OrderSide_value (s : OrderSide) : string :=
  match s with BUY => "buy" | SELL => "sell" end.

Definition OrderType_value (t : OrderType) : string :=
  match t with LIMIT => "limit" | MARKET => "market" end.

(** [Object.values(E).includes(s)], returning the member found. *)
Definition OrderSide_of (s : string) : option OrderSide :=
  if String.eqb s (OrderSide_value BUY) then Some BUY
  else if String.eqb s (OrderSide_value SELL) then Some SELL
  else None.

Definition OrderType_of (s : string) : option OrderType :=
  if String.eqb s (OrderType_value LIMIT) then Some LIMIT
  else if String.eqb s (OrderType_value MARKET) then Some MARKET
  else None.

(** ** Data *)

(** The object a caller hands to [addOrder].  [quantity] is a number, as
    the documentation of [addOrder] requires of it, [NaN] and the
    infinities included; [price] is a number or absent; the other fields
    may be absent, and [side]/[type] are arbitrary strings until
    validated. *)
Record RawOrder := {
  raw_id        : option string;
  raw_side      : option string;
  raw_type      : option string;
  raw_price     : option Number;
  raw_quantity  : Number;
  raw_peerId    : option string;
  raw_timestamp : option Z;
  raw_remote    : option bool
}.

(** The normalised order built by [addOrder]; also the element type of
    both heaps and of snapshot arrays. *)
Record Order := {
  id        : string;
  side      : OrderSide;
  type      : OrderType;
  price     : option Number;
  quantity  : Number;
  peerId    : option string;
  timestamp : Z;
  status    : OrderStatus
}.

Definition set_quantity (o : Order) (q : Number) : Order :=
  {| id := id o; side := side o; type := type o; price := price o;
     quantity := q; peerId := peerId o; timestamp := timestamp o;
     status := status o |}.

Definition set_status (o : Order) (s : OrderStatus) : Order :=
  {| id := id o; side := side o; type := type o; price := price o;
     quantity := quantity o; peerId := peerId o; timestamp := timestamp o;
     status := s |}.

(** [{ ...o }] *)
Definition clone (o : Order) : Order :=
  {| id := id o; side := side o; type := type o; price := price o;
     quantity := quantity o; peerId := peerId o; timestamp := timestamp o;
     status := status o |}.

(** The trade id is the template [`${remainder.id}_${best.id}_${Date.now()}`];
    its three parts are kept apart. *)
Record Trade := {
  t_id          : string * string * Z;
  t_pair        : string;
  t_price       : option Number;
  t_quantity    : Number;
  t_buyOrderId  : string;
  t_sellOrderId : string;
  t_buyPeerId   : option string;
  t_sellPeerId  : option string;
  t_timestamp   : Z
}.

(** ** Heap.js *)

Module Heap.
Section Heap.

(** [#comparator]: negative when the first argument has priority. *)
Variable comparator : Order -> Order -> Number.

(** [this.#comparator(a, b) < 0] *)
Definition above (a b : Order) : bool := ltb (comparator a b) (Fin 0).

Definition size (data : list Order) : nat := length data.

Definition isEmpty (data : list Order) : bool := Nat.eqb (length data) 0.

Definition peek (data : list Order) : option Order := data !! 0%nat.

(** [[data[i], data[j]] = [data[j], data[i]]] *)
Definition swap (i j : nat) (data : list Order) : list Order :=
  match data !! i, data !! j with
  | Some a, Some b => <[j := a]> (<[i := b]> data)
  | _, _ => data
  end.

(** [this.#comparator(this.#data[i], this.#data[j]) < 0]; both slots
    are in range wherever the source evaluates it. *)
Definition aboveAt (i j : nat) (data : list Order) : bool :=
  match data !! i, data !! j with
  | Some a, Some b => above a b
  | _, _ => false
  end.

(** The [while (idx > 0)] loop of [#bubbleUp]; every turn moves [idx]
    to its parent, so [S idx] turns are never used up. *)
Fixpoint bubbleUp_go (fuel idx : nat) (data : list Order) : list Order :=
  match fuel with
  | O => data
  | S fuel' =>
      if Nat.ltb 0 idx then
        let parentIdx := ((idx - 1) / 2)%nat in
        if aboveAt idx parentIdx data
        then bubbleUp_go fuel' parentIdx (swap idx parentIdx data)
        else data
      else data
  end.

Definition bubbleUp (idx : nat) (data : list Order) : list Order :=
  bubbleUp_go (S idx) idx data.

(** The [while (true)] loop of [#bubbleDown]; a turn that does not
    break moves [idx] to a child below [length], so [S length] turns
    are never used up. *)
Fixpoint bubbleDown_go (fuel idx : nat) (data : list Order) : list Order :=
  match fuel with
  | O => data
  | S fuel' =>
      let len := length data in
      let best := idx in
      let left := (2 * idx + 1)%nat in
      let right := (2 * idx + 2)%nat in
      let best := if Nat.ltb left len && aboveAt left best data
                  then left else best in
      let best := if Nat.ltb right len && aboveAt right best data
                  then right else best in
      if negb (Nat.eqb best idx)
      then bubbleDown_go fuel' best (swap idx best data)
      else data
  end.

Definition bubbleDown (idx : nat) (data : list Order) : list Order :=
  bubbleDown_go (S (length data)) idx data.

Definition insert (item : Order) (data : list Order) : list Order :=
  let data := data ++ [item] in
  bubbleUp (length data - 1) data.

(** [this.#data.pop()] *)
Definition pop (data : list Order) : option Order * list Order :=
  (last data, take (length data - 1) data).

Definition extractTop (data : list Order) : option Order * list Order :=
  if isEmpty data then (None, data)
  else
    let top := data !! 0%nat in
    match pop data with
    | (Some last, data) =>
        if Nat.ltb 0 (length data)
        then (top, bubbleDown 0 (<[0%nat := last]> data))
        else (top, data)
    | (None, data) => (top, data)
    end.

(** [this.#data.findIndex(o => o.id === id)] *)
Fixpoint findIndex (i : string) (data : list Order) : option nat :=
  match data with
  | [] => None
  | o :: rest =>
      if String.eqb (id o) i then Some O
      else option_map S (findIndex i rest)
  end.

Definition removeById (i : string) (data : list Order)
  : option Order * list Order :=
  match findIndex i data with
  | None => (None, data)
  | Some idx =>
      let removed := data !! idx in
      match pop data with
      | (Some last, data) =>
          if Nat.ltb idx (length data)
          then (removed, bubbleDown idx (bubbleUp idx (<[idx := last]> data)))
          else (removed, data)
      | (None, data) => (removed, data)
      end
  end.

(** [find] the first item with that id and overwrite its quantity. *)
Fixpoint updateQuantity (i : string) (newQuantity : Number)
    (data : list Order)
  : list Order :=
  match data with
  | [] => []
  | o :: rest =>
      if String.eqb (id o) i then set_quantity o newQuantity :: rest
      else o :: updateQuantity i newQuantity rest
  end.

Definition toArray (data : list Order) : list Order := data.

(** The shape the array is kept in: no item has priority over the item
    at its parent index. *)
Definition heapOrdered (data : list Order) : Prop :=
  forall i x p, (0 < i)%nat ->
    data !! i = Some x -> data !! ((i - 1) / 2)%nat = Some p ->
    above x p = false.

(** The index [best] that one turn of [#bubbleDown] settles on. *)
Definition pick (idx : nat) (d : list Order) : nat :=
  let len := length d in
  let best := idx in
  let left := (2 * idx + 1)%nat in
  let right := (2 * idx + 2)%nat in
  let best := if Nat.ltb left len && aboveAt left best d
              then left else best in
  let best := if Nat.ltb right len && aboveAt right best d
              then right else best in
  best.

(** The array is in shape except, possibly, between [idx] and its
    parent; the children of [idx] already respect that parent. *)
Definition upOk (d : list Order) (idx : nat) : Prop :=
  (forall i x p, (0 < i)%nat -> i <> idx ->
     d !! i = Some x -> d !! ((i - 1) / 2)%nat = Some p -> above x p = false)
  /\ (forall i x g, (0 < idx)%nat -> (0 < i)%nat -> ((i - 1) / 2)%nat = idx ->
     d !! i = Some x -> d !! ((idx - 1) / 2)%nat = Some g -> above x g = false).

(** The array is in shape except, possibly, between [idx] and its
    children; those children already respect the parent of [idx]. *)
Definition downOk (d : list Order) (idx : nat) : Prop :=
  (forall i x p, (0 < i)%nat -> ((i - 1) / 2)%nat <> idx ->
     d !! i = Some x -> d !! ((i - 1) / 2)%nat = Some p -> above x p = false)
  /\ (forall i x g, (0 < idx)%nat -> (0 < i)%nat -> ((i - 1) / 2)%nat = idx ->
     d !! i = Some x -> d !! ((idx - 1) / 2)%nat = Some g -> above x g = false).

End Heap.
End Heap.

(** [BidHeap]: highest price first, then earliest timestamp. *)
Definition bidComparator (a b : Order) : Number :=
  if strictNeq (price b) (price a)
  then sub (toNumber (price b)) (toNumber (price a))
  else Fin (inject_Z (timestamp a - timestamp b)).

(** [AskHeap]: lowest price first, then earliest timestamp. *)
Definition askComparator (a b : Order) : Number :=
  if strictNeq (price a) (price b)
  then sub (toNumber (price a)) (toNumber (price b))
  else Fin (inject_Z (timestamp a - timestamp b)).

(** ** OrderBook.js *)

Record Hooks := {
  onTrade        : bool;
  onOrderAdded   : bool;
  onOrderRemoved : bool
}.

Record Book := {
  pair              : string;
  pricePrecision    : nat;
  quantityPrecision : nat;
  bids              : list Order;
  asks              : list Order;
  trades            : list Trade;
  hooks             : Hooks
}.

Definition with_bids (b : Book) (h : list Order) : Book :=
  {| pair := pair b; pricePrecision := pricePrecision b;
     quantityPrecision := quantityPrecision b; bids := h; asks := asks b;
     trades := trades b; hooks := hooks b |}.

Definition with_asks (b : Book) (h : list Order) : Book :=
  {| pair := pair b; pricePrecision := pricePrecision b;
     quantityPrecision := quantityPrecision b; bids := bids b; asks := h;
     trades := trades b; hooks := hooks b |}.

Definition with_trades (b : Book) (l : list Trade) : Book :=
  {| pair := pair b; pricePrecision := pricePrecision b;
     quantityPrecision := quantityPrecision b; bids := bids b; asks := asks b;
     trades := l; hooks := hooks b |}.

(** What a call does besides changing the book: it returns or throws. *)
Inductive Outcome (A : Type) :=
| Returned (a : A)
| Threw (message : string).
Arguments Returned {A} a.
Arguments Threw {A} message.

(** The constructor; [options.pricePrecision ?? 2] and
    [options.quantityPrecision ?? 8]. *)
Definition newOrderBook (p : string) (pp qp : option nat) (h : Hooks)
  : Outcome Book :=
  if String.eqb p "" then Threw "OrderBook requires a trading pair"
  else Returned
    {| pair := p; pricePrecision := default 2%nat pp;
       quantityPrecision := default 8%nat qp;
       bids := []; asks := []; trades := []; hooks := h |}.

(** *** Hooks *)

Inductive Payload :=
| OfTrade (t : Trade)
| OfOrder (o : Order).

(** One invocation of a registered hook, with the trade log a call of
    [getTrades()] from inside the hook would return. *)
Record Emitted := {
  e_event  : OrderBookEvent;
  e_data   : Payload;
  e_trades : list Trade
}.

Definition getTrades (b : Book) : list Trade := trades b.
Definition getBids (b : Book) : list Order := Heap.toArray (bids b).
Definition getAsks (b : Book) : list Order := Heap.toArray (asks b).

Definition hookOf (h : Hooks) (event : OrderBookEvent) : bool :=
  match event with
  | TRADE => onTrade h
  | ORDER_ADDED => onOrderAdded h
  | ORDER_REMOVED => onOrderRemoved h
  end.

(** [#emit(event, data)] *)
Definition emit (b : Book) (event : OrderBookEvent) (data : Payload)
  : list Emitted :=
  if hookOf (hooks b) event
  then [ {| e_event := event; e_data := data; e_trades := getTrades b |} ]
  else [].

(** *** Validation *)

Definition isMarket (t : option string) : bool :=
  match t with
  | Some s => String.eqb s (OrderType_value MARKET)
  | None => false
  end.

(** [#validateOrder]: the message of the first failing check. *)
Definition validateOrder (order : RawOrder) : option string :=
  if match raw_id order with Some s => String.eqb s "" | None => true end
  then Some "Order must have an id"
  else if match raw_side order with
          | Some s => negb (bool_decide (is_Some (OrderSide_of s)))
          | None => true
          end
  then Some "Order side must be one of: buy, sell"
  else if match raw_type order with
          | Some s => negb (String.eqb s "")
                      && negb (bool_decide (is_Some (OrderType_of s)))
          | None => false
          end
  then Some "Order type must be one of: limit, market"
  else if negb (isMarket (raw_type order))
          && match raw_price order with
             | Some p => leb p (Fin 0)
             | None => true
             end
  then Some "Limit order must have a positive price"
  else if falsy (raw_quantity order) || leb (raw_quantity order) (Fin 0)
  then Some "Order quantity must be positive"
  else None.

(** *** Matching *)

Definition opposingHeap (b : Book) (s : OrderSide) : list Order :=
  match s with BUY => asks b | SELL => bids b end.

Definition opposingComparator (s : OrderSide) : Order -> Order -> Number :=
  match s with BUY => askComparator | SELL => bidComparator end.

Definition with_opposing (b : Book) (s : OrderSide) (h : list Order) : Book :=
  match s with BUY => with_asks b h | SELL => with_bids b h end.

(** The variables of [#match] that change from one turn to the next. *)
Record MatchState := {
  ms_trades    : list Trade;
  ms_remainder : Order;
  ms_heap      : list Order;
  ms_emitted   : list Emitted
}.

Definition priceMatches (order remainder best : Order) : bool :=
  match type order with
  | MARKET => true
  | LIMIT =>
      match side order with
      | BUY => leb (toNumber (price best)) (toNumber (price remainder))
      | SELL => leb (toNumber (price remainder)) (toNumber (price best))
      end
  end.

Definition makeTrade (b : Book) (order remainder best : Order)
    (tradedQty : Number) (now : Z) : Trade :=
  {| t_id := (id remainder, id best, now);
     t_pair := pair b;
     t_price := price best;
     t_quantity := tradedQty;
     t_buyOrderId :=
       match side order with BUY => id remainder | SELL => id best end;
     t_sellOrderId :=
       match side order with SELL => id remainder | BUY => id best end;
     t_buyPeerId :=
       match side order with BUY => peerId remainder | SELL => peerId best end;
     t_sellPeerId :=
       match side order with SELL => peerId remainder | BUY => peerId best end;
     t_timestamp := now |}.

(** One turn of the [while] loop of [#match]; [None] when the loop
    condition fails or the [break] is taken. *)
Definition match_step (b : Book) (order : Order) (now : Z) (st : MatchState)
  : option MatchState :=
  let remainder := ms_remainder st in
  let heap := ms_heap st in
  if ltb (Fin 0) (quantity remainder) && negb (Heap.isEmpty heap) then
    match Heap.peek heap with
    | None => None
    | Some best =>
        if negb (priceMatches order remainder best) then None
        else
          let qp := quantityPrecision b in
          let tradedQty :=
            roundN (min (quantity remainder) (quantity best)) qp in
          let trade := makeTrade b order remainder best tradedQty now in
          let remainder :=
            set_quantity remainder
              (roundN (sub (quantity remainder) tradedQty) qp) in
          let best :=
            set_quantity best (roundN (sub (quantity best) tradedQty) qp) in
          let heap := <[0%nat := best]> heap in
          if eqb (quantity best) (Fin 0) then
            Some
              {| ms_trades := ms_trades st ++ [trade];
                 ms_remainder := remainder;
                 ms_heap :=
                   snd (Heap.extractTop (opposingComparator (side order)) heap);
                 ms_emitted :=
                   ms_emitted st ++ emit b ORDER_REMOVED (OfOrder best) |}
          else
            Some
              {| ms_trades := ms_trades st ++ [trade];
                 ms_remainder := remainder;
                 ms_heap := Heap.updateQuantity (id best) (quantity best) heap;
                 ms_emitted := ms_emitted st |}
    end
  else None.

Fixpoint match_loop (b : Book) (order : Order) (now : Z) (fuel : nat)
    (st : MatchState) : MatchState :=
  match fuel with
  | O => st
  | S fuel' =>
      match match_step b order now st with
      | Some st' => match_loop b order now fuel' st'
      | None => st
      end
  end.

(** A turn either leaves nothing to match, removes a resting order, or
    leaves the top with a quantity that [#round] has returned, which
    the next turn on that order uses up: twice the heap size, and one,
    bounds the turns ([match_step_measure]). *)
Definition match_fuel (heap : list Order) : nat := S (2 * length heap).

(** [#match(order)]: the book with the opposing heap as the loop left it,
    the hooks fired, the trades and the remainder. *)
Definition match_ (b : Book) (order : Order) (now : Z)
  : Book * list Emitted * list Trade * Order :=
  let heap := opposingHeap b (side order) in
  let st := match_loop b order now (match_fuel heap)
              {| ms_trades := []; ms_remainder := clone order;
                 ms_heap := heap; ms_emitted := [] |} in
  (with_opposing b (side order) (ms_heap st),
   ms_emitted st, ms_trades st, ms_remainder st).

(** [#insertOrder] *)
Definition insertOrder (b : Book) (order : Order) : Book :=
  match side order with
  | BUY => with_bids b (Heap.insert bidComparator order (bids b))
  | SELL => with_asks b (Heap.insert askComparator order (asks b))
  end.

(** *** addOrder *)

Record AddResult := {
  r_trades    : list Trade;
  r_remainder : option Order;
  r_status    : OrderStatus
}.

(** The object literal [normalised]; the fields read here are all that
    [addOrder] reads of its argument.  It is built once validation has
    passed: [id], [side] and, on a limit order, [price] are present then,
    and the defaults written for them below are never taken. *)
Definition normalise (b : Book) (order : RawOrder) (now : Z) : Order :=
  {| id := default "" (raw_id order);
     side := default BUY (raw_side order ≫= OrderSide_of);
     type := default LIMIT (raw_type order ≫= OrderType_of);
     price := if isMarket (raw_type order) then None
              else Some (roundN (toNumber (raw_price order)) (pricePrecision b));
     quantity := roundN (raw_quantity order) (quantityPrecision b);
     peerId := match raw_peerId order with
               | Some s => if String.eqb s "" then None else Some s
               | None => None
               end;
     timestamp := match raw_timestamp order with
                  | Some t => if Z.eqb t 0 then now else t
                  | None => now
                  end;
     status := OPEN |}.

Definition addOrder (b : Book) (order : RawOrder) (now : Z)
  : Book * list Emitted * Outcome AddResult :=
  match validateOrder order with
  | Some message => (b, [], Threw message)
  | None =>
      let normalised := normalise b order now in
      let '(b, fired, trades_, remainder) := match_ b normalised now in
      let b := with_trades b (trades b ++ trades_) in
      let fired := fired ++ flat_map (fun t => emit b TRADE (OfTrade t)) trades_ in
      if ltb (Fin 0) (quantity remainder) then
        let remainder :=
          set_status remainder
            (if Nat.ltb 0 (length trades_) then PARTIALLY_FILLED else OPEN) in
        let '(b, fired) :=
          match type remainder with
          | LIMIT =>
              let b := insertOrder b remainder in
              (b, fired ++ emit b ORDER_ADDED (OfOrder remainder))
          | MARKET => (b, fired)
          end in
        (b, fired,
         Returned {| r_trades := trades_; r_remainder := Some remainder;
                     r_status := status remainder |})
      else
        (b, fired,
         Returned {| r_trades := trades_; r_remainder := None;
                     r_status := FILLED |})
  end.

(** [applyRemoteOrder(order) = addOrder({ ...order, remote: true })] *)
Definition applyRemoteOrder (b : Book) (order : RawOrder) (now : Z)
  : Book * list Emitted * Outcome AddResult :=
  addOrder b
    {| raw_id := raw_id order; raw_side := raw_side order;
       raw_type := raw_type order; raw_price := raw_price order;
       raw_quantity := raw_quantity order; raw_peerId := raw_peerId order;
       raw_timestamp := raw_timestamp order; raw_remote := Some true |}
    now.

(** *** cancelOrder *)

Definition cancelOrder (b : Book) (orderId : string)
  : Book * list Emitted * option Order :=
  let '(cancelled, b) :=
    match Heap.removeById bidComparator orderId (bids b) with
    | (Some o, h) => (Some o, with_bids b h)
    | (None, _) =>
        let '(c, h) := Heap.removeById askComparator orderId (asks b) in
        (c, with_asks b h)
    end in
  match cancelled with
  | Some o =>
      let o := set_status o CANCELLED in
      (b, emit b ORDER_REMOVED (OfOrder o), Some o)
  | None => (b, [], None)
  end.

(** *** Queries and snapshots *)

Definition bestBid (b : Book) : option Order := Heap.peek (bids b).
Definition bestAsk (b : Book) : option Order := Heap.peek (asks b).

Definition spread (b : Book) : option Number :=
  match bestBid b, bestAsk b with
  | Some bid, Some ask =>
      Some (roundN (sub (toNumber (price ask)) (toNumber (price bid)))
              (pricePrecision b))
  | _, _ => None
  end.

Record Snapshot := {
  s_pair      : string;
  s_timestamp : Z;
  s_bids      : list Order;
  s_asks      : list Order;
  s_bestBid   : option Order;
  s_bestAsk   : option Order;
  s_spread    : option Number
}.

Definition getSnapshot (b : Book) (now : Z) : Snapshot :=
  {| s_pair := pair b;
     s_timestamp := now;
     s_bids := map clone (Heap.toArray (bids b));
     s_asks := map clone (Heap.toArray (asks b));
     s_bestBid := bestBid b;
     s_bestAsk := bestAsk b;
     s_spread := spread b |}.

(** [snapshot.bids.forEach(o => heap.insert(o))] on a new heap. *)
Definition rebuild (comparator : Order -> Order -> Number) (l : list Order)
  : list Order :=
  fold_left (fun data o => Heap.insert comparator o data) l [].

Definition loadSnapshot (b : Book) (snapshot : Snapshot)
  : Book * Outcome unit :=
  if negb (String.eqb (s_pair snapshot) (pair b))
  then (b, Threw "Pair mismatch")
  else
    let b := with_bids b [] in
    let b := with_asks b [] in
    let b := with_bids b (rebuild bidComparator (s_bids snapshot)) in
    let b := with_asks b (rebuild askComparator (s_asks snapshot)) in
    (b, Returned tt).

(** ** Peer.js: messages from other peers *)

(** The part of a [Peer] that [#handleRemoteMessage] reads and writes:
    its id and its order book. *)
Record Peer := {
  p_peerId    : string;
  p_orderBook : Book
}.

Definition with_orderBook (self : Peer) (b : Book) : Peer :=
  {| p_peerId := p_peerId self; p_orderBook := b |}.

(** An order as a message carries it.  A payload is what the transport
    decoded from the JSON text another peer sent, and [JSON.stringify]
    writes [NaN] and the infinities as [null]: the numbers of a payload
    are finite.  A [null] price is [None]; a [null] quantity goes the
    way of the quantity [0], on which [!order.quantity] holds as well. *)
Record WireOrder := {
  w_id        : option string;
  w_side      : option string;
  w_type      : option string;
  w_price     : option Q;
  w_quantity  : Q;
  w_peerId    : option string;
  w_timestamp : option Z;
  w_remote    : option bool
}.

(** The decoded order as the object [applyRemoteOrder] receives. *)
Definition ofWire (o : WireOrder) : RawOrder :=
  {| raw_id := w_id o; raw_side := w_side o; raw_type := w_type o;
     raw_price := Fin <$> w_price o; raw_quantity := Fin (w_quantity o);
     raw_peerId := w_peerId o; raw_timestamp := w_timestamp o;
     raw_remote := w_remote o |}.

(** A payload: [type] and [order] may be absent. *)
Record Message := {
  m_type  : option string;
  m_order : option WireOrder
}.

(** What the handler returns: [null], the result of [applyRemoteOrder],
    or a snapshot. *)
Inductive Reply :=
| ReplyNull
| ReplyResult (r : AddResult)
| ReplySnapshot (s : Snapshot).

(** [#handleRemoteMessage(payload)]; a missing payload, and a missing
    or empty [type], are the falsy cases of [!payload?.type]. *)
Definition handleRemoteMessage (self : Peer) (payload : option Message)
    (now : Z) : Peer * list Emitted * Outcome Reply :=
  match payload ≫= m_type with
  | None => (self, [], Returned ReplyNull)
  | Some t =>
      if String.eqb t "" then (self, [], Returned ReplyNull)
      else if String.eqb t "NEW_ORDER" then
        match payload ≫= m_order with
        | None =>
            (self, [], Threw "Cannot read properties of undefined")
        | Some order =>
            if match w_peerId order with
               | Some p => String.eqb p (p_peerId self)
               | None => false
               end
            then (self, [], Returned ReplyNull)
            else
              let '(b, fired, result) :=
                applyRemoteOrder (p_orderBook self) (ofWire order) now in
              (with_orderBook self b, fired,
               match result with
               | Returned r => Returned (ReplyResult r)
               | Threw message => Threw message
               end)
        end
      else if String.eqb t "SNAPSHOT_REQUEST" then
        (self, [], Returned (ReplySnapshot (getSnapshot (p_orderBook self) now)))
      else (self, [], Returned ReplyNull)
  end.

(** The message [submitOrder] broadcasts for an order. *)
Definition newOrderMessage (order : WireOrder) : option Message :=
  Some {| m_type := Some "NEW_ORDER"; m_order := Some order |}.

(** ** The matching loop, observed *)

(** The state [#match] starts from and the state it returns from. *)
Definition firstState (b : Book) (order : RawOrder) (now : Z) : MatchState :=
  let n := normalise b order now in
  {| ms_trades := []; ms_remainder := clone n;
     ms_heap := opposingHeap b (side n); ms_emitted := [] |}.

Definition lastState (b : Book) (order : RawOrder) (now : Z) : MatchState :=
  let n := normalise b order now in
  match_loop b n now (match_fuel (opposingHeap b (side n)))
    (firstState b order now).

(** The resting orders the loop peeks at, one for each turn it takes:
    the [best] of each turn, as it is when peeked. *)
Fixpoint match_bests (b : Book) (order : Order) (now : Z) (fuel : nat)
    (st : MatchState) : list Order :=
  match fuel with
  | O => []
  | S fuel' =>
      match match_step b order now st, Heap.peek (ms_heap st) with
      | Some st', Some best => best :: match_bests b order now fuel' st'
      | _, _ => []
      end
  end.

Definition peeked (b : Book) (order : RawOrder) (now : Z) : list Order :=
  let n := normalise b order now in
  match_bests b n now (match_fuel (opposingHeap b (side n)))
    (firstState b order now).

(** The side of a trade that the resting order took. *)
Definition restingId (s : OrderSide) (t : Trade) : string :=
  match s with BUY => t_sellOrderId t | SELL => t_buyOrderId t end.

(** The same order, whatever is left of its quantity. *)
Definition sameOrder (x y : Order) : Prop :=
  set_quantity x (Fin 0) = set_quantity y (Fin 0).

Definition sameHeap (b : Book) (s : OrderSide) : list Order :=
  match s with BUY => bids b | SELL => asks b end.


Definition limitOnly (o : Order) : Prop := type o = LIMIT.

(** A number that is not positive: [x > 0] is false of it.  [NaN] is
    such a number. *)
Definition notPositive (x : Number) : Prop := ltb (Fin 0) x = false.

(** The orders that validation is said to reject: a missing or empty
    id; a side outside buy/sell; a type that is given (a non-empty
    string, which is what [order.type &&] tests) and outside
    limit/market; a price that is absent or not positive on an order
    that is not a market order; a quantity that is not positive. *)
Definition rejected (order : RawOrder) : Prop :=
  (raw_id order = None \/ raw_id order = Some "")
  \/ (forall s, raw_side order <> Some (OrderSide_value s))
  \/ (exists t, raw_type order = Some t /\ t <> ""
                /\ forall ty, t <> OrderType_value ty)
  \/ (raw_type order <> Some (OrderType_value MARKET)
      /\ (raw_price order = None
          \/ exists p, raw_price order = Some p /\ notPositive p))
  \/ notPositive (raw_quantity order).

(** ** The properties the book is held to *)

(** [bids.peek().price < asks.peek().price] whenever both exist. *)
Definition uncrossed (b : Book) : Prop :=
  forall x y, bestBid b = Some x -> bestAsk b = Some y ->
    ltb (toNumber (price x)) (toNumber (price y)) = true.

(** Every resting order has a positive quantity and is open or partly
    filled. *)
Definition restingHealthy (b : Book) : Prop :=
  forall o, o ∈ bids b ++ asks b ->
    ltb (Fin 0) (quantity o) = true
    /\ (status o = OPEN \/ status o = PARTIALLY_FILLED).

(** An order with a finite price: a number, and neither [NaN] nor an
    infinity. *)
Definition priced (o : Order) : Prop := exists p, price o = Some (Fin p).

(** The price and the quantity of an order where they are finite. *)
Definition priceOf (o : Order) : Q := fin (toNumber (price o)).
Definition quantityOf (o : Order) : Q := fin (quantity o).

(** No bid is priced at or above an ask. *)
Definition apart (bs as_ : list Order) : Prop :=
  forall x y, x ∈ bs -> y ∈ as_ -> (priceOf x < priceOf y)%Q.

(** A quantity is on the grid when rounding leaves it alone. *)
Definition onGrid (qp : nat) (q : Q) : Prop := (round q qp == q)%Q.

(** A finite, positive quantity on the grid, on an order that is open
    or partly filled. *)
Definition healthy (qp : nat) (o : Order) : Prop :=
  isFin (quantity o)
  /\ (0 < quantityOf o)%Q /\ onGrid qp (quantityOf o)
  /\ (status o = OPEN \/ status o = PARTIALLY_FILLED).

(** The two invariants the operations maintain. *)
Definition sound (b : Book) : Prop :=
  Heap.heapOrdered bidComparator (bids b)
  /\ Heap.heapOrdered askComparator (asks b)
  /\ Forall priced (bids b)
  /\ Forall priced (asks b)
  /\ apart (bids b) (asks b).

Definition hale (b : Book) : Prop :=
  Forall (healthy (quantityPrecision b)) (bids b)
  /\ Forall (healthy (quantityPrecision b)) (asks b).

(** What a snapshot must be for the book loaded from it to be sound,
    and to be hale. *)
Definition soundSnapshot (s : Snapshot) : Prop :=
  Forall priced (s_bids s) /\ Forall priced (s_asks s)
  /\ apart (s_bids s) (s_asks s).

Definition haleSnapshot (qp : nat) (s : Snapshot) : Prop :=
  Forall (healthy qp) (s_bids s) /\ Forall (healthy qp) (s_asks s).

(** ** Sequences of public operations *)

Inductive Op :=
| OpAdd (order : RawOrder) (now : Z)
| OpRemote (order : RawOrder) (now : Z)
| OpCancel (orderId : string)
| OpLoad (snapshot : Snapshot).

(** The book an operation leaves behind, whether it returns or throws. *)
Definition step (b : Book) (op : Op) : Book :=
  match op with
  | OpAdd order now => (addOrder b order now).1.1
  | OpRemote order now => (applyRemoteOrder b order now).1.1
  | OpCancel orderId => (cancelOrder b orderId).1.1
  | OpLoad snapshot => (loadSnapshot b snapshot).1
  end.

Definition run (b : Book) (ops : list Op) : Book := fold_left step ops b.

(** An order handed to [addOrder] whose price, when it is a limit order,
    is finite or absent, and one whose quantity is finite. *)
Definition finitePrice (order : RawOrder) : Prop :=
  isMarket (raw_type order) = true \/ isFin (toNumber (raw_price order)).

Definition finiteQuantity (order : RawOrder) : Prop :=
  isFin (raw_quantity order).

(** A snapshot that lists every order once: no id occurs twice in its
    two arrays, so that no object is reached from two slots. *)
Definition listedOnce (s : Snapshot) : Prop :=
  NoDup (id <$> (s_bids s ++ s_asks s)).

(** The operations under which a sound book stays sound, and a hale
    book hale. *)
Definition soundOp (op : Op) : Prop :=
  match op with
  | OpLoad s => soundSnapshot s
  | OpAdd order _ | OpRemote order _ => finitePrice order
  | OpCancel _ => True
  end.

Definition haleOp (qp : nat) (op : Op) : Prop :=
  match op with
  | OpLoad s => haleSnapshot qp s /\ listedOnce s
  | OpAdd order _ | OpRemote order _ => finiteQuantity order
  | OpCancel _ => True
  end.

(** Snapshots that list limit orders only. *)
Definition limitOp (op : Op) : Prop :=
  match op with
  | OpLoad s => Forall limitOnly (s_bids s ++ s_asks s)
  | _ => True
  end.

(** ** Notions used in the proofs *)

(** [tradedQty] and the two decrements of one turn. *)
Definition tradedQty (b : Book) (remainder best : Order) : Number :=
  roundN (min (quantity remainder) (quantity best)) (quantityPrecision b).

Definition fill (b : Book) (o : Order) (q : Number) : Order :=
  set_quantity o (roundN (sub (quantity o) q) (quantityPrecision b)).

(** A property of orders that does not read the quantity. *)
Definition blind (P : Order -> Prop) : Prop :=
  forall o q, P o -> P (set_quantity o q).

(** A number as [#round] returns it. *)
Definition settled (qp : nat) (x : Number) : Prop :=
  match x with Fin q => onGrid qp q | _ => True end.

(** A resting order costs one turn, or two when its quantity is an
    infinity or not a multiple of the quantity step. *)
Definition weight (qp : nat) (o : Order) : nat :=
  match quantity o with
  | Fin q => if Qeq_bool (round q qp) q then 1%nat else 2%nat
  | NaN => 1%nat
  | _ => 2%nat
  end.

(** An order priced above, or below, a given price. *)
Definition below (p : option Number) (o : Order) : Prop :=
  (fin (toNumber p) < priceOf o)%Q.

Definition over (p : option Number) (o : Order) : Prop :=
  (priceOf o < fin (toNumber p))%Q.

(** ** Notions used to state further properties *)

(** The trades an operation returns, and those a sequence of operations
    returns, in order. *)
Definition tradesOf (b : Book) (op : Op) : list Trade :=
  match op with
  | OpAdd order now =>
      match (addOrder b order now).2 with
      | Returned r => r_trades r
      | Threw _ => []
      end
  | OpRemote order now =>
      match (applyRemoteOrder b order now).2 with
      | Returned r => r_trades r
      | Threw _ => []
      end
  | OpCancel _ | OpLoad _ => []
  end.

Fixpoint tradesOfRun (b : Book) (ops : list Op) : list Trade :=
  match ops with
  | [] => []
  | op :: ops => tradesOf b op ++ tradesOfRun (step b op) ops
  end.




(** A trade price that is no worse for the aggressor than a limit. *)
Definition within (s : OrderSide) (limit : Number) (t : Trade) : Prop :=
  match s with
  | BUY => leb (toNumber (t_price t)) limit = true
  | SELL => leb limit (toNumber (t_price t)) = true
  end.


(** Two books for the same pair that hold the same resting orders in
    the same arrays and round alike. *)
Definition inStep (x y : Book) : Prop :=
  pair x = pair y
  /\ pricePrecision x = pricePrecision y
  /\ quantityPrecision x = quantityPrecision y
  /\ bids x = bids y
  /\ asks x = asks y.

(** A trade and a result without the readings of the clock. *)
Definition timeless (t : Trade) : Trade :=
  {| t_id := ((t_id t).1, 0);
     t_pair := t_pair t;
     t_price := t_price t;
     t_quantity := t_quantity t;
     t_buyOrderId := t_buyOrderId t;
     t_sellOrderId := t_sellOrderId t;
     t_buyPeerId := t_buyPeerId t;
     t_sellPeerId := t_sellPeerId t;
     t_timestamp := 0 |}.

Definition timelessResult (o : Outcome AddResult) : Outcome AddResult :=
  match o with
  | Returned r =>
      Returned {| r_trades := timeless <$> r_trades r;
                  r_remainder := r_remainder r;
                  r_status := r_status r |}
  | Threw message => Threw message
  end.

(** Two states of the matching loop that differ in clock readings only. *)
Definition alike (st1 st2 : MatchState) : Prop :=
  ms_remainder st1 = ms_remainder st2
  /\ ms_heap st1 = ms_heap st2
  /\ timeless <$> ms_trades st1 = timeless <$> ms_trades st2.

(** The calls of the [TRADE] hook and of the [ORDER_ADDED] hook that
    [addOrder] makes once the trades are in the log. *)
Definition tradeEvents (b : Book) (log ts : list Trade) : list Emitted :=
  if onTrade (hooks b)
  then (fun t => {| e_event := TRADE; e_data := OfTrade t; e_trades := log |})
       <$> ts
  else [].

Definition addedEvents (b : Book) (log : list Trade) (r : option Order)
  : list Emitted :=
  match r with
  | Some o =>
      match type o with
      | LIMIT =>
          if onOrderAdded (hooks b)
          then [ {| e_event := ORDER_ADDED; e_data := OfOrder o;
                    e_trades := log |} ]
          else []
      | MARKET => []
      end
  | None => []
  end.

(** A call of the [ORDER_REMOVED] hook from inside the matching loop:
    its argument is an order of the heap [h] with nothing left of its
    quantity, and [getTrades()] is still the log [log]. *)
Definition spentEvent (log : list Trade) (h : list Order) (e : Emitted) : Prop :=
  e_event e = ORDER_REMOVED
  /\ e_trades e = log
  /\ exists o x, e_data e = OfOrder o /\ eqb (quantity o) (Fin 0) = true
       /\ x ∈ h /\ sameOrder o x.

(** Prices on the grid of the price step: of an order, of every resting
    order of a book, and of every order a loaded snapshot lists. *)
Definition onTick (pp : nat) (o : Order) : Prop :=
  isFin (toNumber (price o)) /\ onGrid pp (priceOf o).

Definition tidy (b : Book) : Prop :=
  Forall (onTick (pricePrecision b)) (bids b ++ asks b).

Definition tidyOp (pp : nat) (op : Op) : Prop :=
  match op with
  | OpLoad s => Forall (onTick pp) (s_bids s ++ s_asks s)
  | OpAdd order _ | OpRemote order _ => finitePrice order
  | OpCancel _ => True
  end.

(** ** Sample books, orders and snapshots *)

Module Sample.

Definition allHooks : Hooks :=
  {| onTrade := true; onOrderAdded := true; onOrderRemoved := true |}.

(** [new OrderBook('BTC/USDT', { hooks })] *)
Definition book0 : Book :=
  {| pair := "BTC/USDT"; pricePrecision := 2; quantityPrecision := 8;
     bids := []; asks := []; trades := []; hooks := allHooks |}.

Definition limit (i s : string) (p q : Q) (t : Z) : RawOrder :=
  {| raw_id := Some i; raw_side := Some s; raw_type := None;
     raw_price := Some (Fin p); raw_quantity := Fin q; raw_peerId := None;
     raw_timestamp := Some t; raw_remote := None |}.

(** A limit order whose price and quantity are any two numbers. *)
Definition limitN (i s : string) (p q : Number) (t : Z) : RawOrder :=
  {| raw_id := Some i; raw_side := Some s; raw_type := None;
     raw_price := Some p; raw_quantity := q; raw_peerId := None;
     raw_timestamp := Some t; raw_remote := None |}.

Definition market (i s : string) (q : Q) : RawOrder :=
  {| raw_id := Some i; raw_side := Some s; raw_type := Some "market";
     raw_price := None; raw_quantity := Fin q; raw_peerId := None;
     raw_timestamp := None; raw_remote := None |}.

Definition resting (i : string) (s : OrderSide) (p q : Q) (t : Z)
    (st : OrderStatus) : Order :=
  {| id := i; side := s; type := LIMIT; price := Some (Fin p);
     quantity := Fin q; peerId := None; timestamp := t; status := st |}.

(** An open order of a snapshot with any type and any price. *)
Definition listed (i : string) (s : OrderSide) (ty : OrderType)
    (p : option Number) (q : Q) (t : Z) : Order :=
  {| id := i; side := s; type := ty; price := p; quantity := Fin q;
     peerId := None; timestamp := t; status := OPEN |}.

Definition snapshotOf (bs as_ : list Order) : Snapshot :=
  {| s_pair := "BTC/USDT"; s_timestamp := 1; s_bids := bs; s_asks := as_;
     s_bestBid := None; s_bestAsk := None; s_spread := None |}.

(** A bid at 100 and an ask at 110. *)
Definition quietSnapshot : Snapshot :=
  snapshotOf [resting "b1" BUY 100 1 1 OPEN] [resting "a1" SELL 110 1 2 OPEN].

(** A bid at 10 over an ask at 5. *)
Definition crossedSnapshot : Snapshot :=
  snapshotOf [resting "b1" BUY 10 1 1 OPEN] [resting "a1" SELL 5 1 2 OPEN].

(** A bid that is spent: nothing left, filled. *)
Definition spentSnapshot : Snapshot :=
  snapshotOf [resting "b1" BUY 10 0 1 FILLED] [].

(** An ask for 1.5, to be loaded into a book that counts whole units. *)
Definition halfSnapshot : Snapshot :=
  snapshotOf [] [resting "a1" SELL 100 (3 # 2) 1 OPEN].

(** A market bid, listed as if it rested. *)
Definition marketSnapshot : Snapshot :=
  snapshotOf [listed "m1" BUY MARKET None 1 1] [].


Definition bookUnits : Book :=
  {| pair := "BTC/USDT"; pricePrecision := 2; quantityPrecision := 0;
     bids := []; asks := []; trades := []; hooks := allHooks |}.

(** One ask resting at 100 for 1. *)
Definition bookS1 : Book :=
  (addOrder book0 (limit "s1" "sell" 100 1 5) 5).1.1.

(** One ask resting at 5 for 10. *)
Definition bookS2 : Book :=
  (addOrder book0 (limit "s1" "sell" 5 10 5) 5).1.1.


(** A bid at 100, an ask at 110 and an ask at 120. *)
Definition bookQ : Book :=
  run book0 [OpAdd (limit "b1" "buy" 100 2 1) 1;
             OpAdd (limit "a1" "sell" 120 (3 # 2) 2) 2;
             OpAdd (limit "a2" "sell" 110 1 3) 3].


(** A sell at [NaN], a sell at 50 and a buy at 100, one after the
    other. *)
Definition bookNaN : Book :=
  run book0 [OpAdd (limitN "n" "sell" NaN (Fin 1) 1) 1;
             OpAdd (limit "s" "sell" 50 1 2) 2;
             OpAdd (limit "b" "buy" 100 1 3) 3].

(** Four sells: at 100 entered at time 2000, at [NaN], at 105, and at
    100 entered at time 1000. *)
Definition bookNaNQueue : Book :=
  run book0 [OpAdd (limit "a" "sell" 100 1 2000) 1;
             OpAdd (limitN "n" "sell" NaN (Fin 1) 2001) 2;
             OpAdd (limit "c" "sell" 105 1 2002) 3;
             OpAdd (limit "e" "sell" 100 1 1000) 4].

(** A sell for [Infinity] at 100 and a buy for [Infinity] at 100. *)
Definition bookInfinity : Book :=
  run book0 [OpAdd (limitN "s" "sell" (Fin 100) PInf 1) 1;
             OpAdd (limitN "b" "buy" (Fin 100) PInf 2) 2].


Definition twoAsks : list Order :=
  [resting "a2" SELL 110 1 3 OPEN; resting "a1" SELL 120 1 2 OPEN].


(** A buy at 115 for 3, a buy at 125 for 3 and a market buy for 2. *)
Definition buy115 : RawOrder := limit "b2" "buy" 115 3 7.

(** A peer, and an order as [submitOrder] stamps it with the peer's id. *)
Definition peerOf (i : string) (b : Book) : Peer :=
  {| p_peerId := i; p_orderBook := b |}.

Definition signed (i s : string) (p q : Q) (t : Z) (peer : string)
  : WireOrder :=
  {| w_id := Some i; w_side := Some s; w_type := None;
     w_price := Some p; w_quantity := q; w_peerId := Some peer;
     w_timestamp := Some t; w_remote := None |}.

End Sample.

(** * Rounding *)

Module NumFacts.

Lemma Qltb_lt x y : Qltb x y = true <-> (x < y)%Q.
Proof.
  unfold Qltb. rewrite negb_true_iff, <- not_true_iff_false, Qle_bool_iff.
  split; [apply Qnot_le_lt | apply Qlt_not_le].
Qed.

Lemma Qltb_ge x y : Qltb x y = false <-> (y <= x)%Q.
Proof.
  unfold Qltb. rewrite negb_false_iff. apply Qle_bool_iff.
Qed.

Lemma Qle_bool_gt x y : Qle_bool x y = false <-> (y < x)%Q.
Proof.
  rewrite <- not_true_iff_false, Qle_bool_iff.
  split; [apply Qnot_le_lt | apply Qlt_not_le].
Qed.

Lemma Qeq_bool_false x y : Qeq_bool x y = false <-> ~ (x == y)%Q.
Proof. rewrite <- not_true_iff_false, Qeq_bool_iff. tauto. Qed.

Lemma scale_pos d : (0 < scale d)%Q.
Proof.
  unfold scale. change 0%Q with (inject_Z 0). rewrite <- Zlt_Qlt.
  apply Z.pow_pos_nonneg; lia.
Qed.

Lemma Qle_bool_comp x y z : (x == y)%Q -> Qle_bool z x = Qle_bool z y.
Proof.
  intros E. apply eq_true_iff_eq. rewrite !Qle_bool_iff, E. tauto.
Qed.

Lemma round_comp x y d : (x == y)%Q -> (round x d == round y d)%Q.
Proof.
  intros E. unfold round.
  rewrite (Qle_bool_comp x y 0 E).
  assert (Qfloor (Qabs x * scale d + (1 # 2)) =
          Qfloor (Qabs y * scale d + (1 # 2))) as ->
    by (apply Qfloor_comp; rewrite E; reflexivity).
  reflexivity.
Qed.

Lemma Qfloor_half (n : Z) : Qfloor (inject_Z n + (1 # 2)) = n.
Proof.
  pose proof (Qfloor_le (inject_Z n + (1 # 2))) as Hl.
  pose proof (Qlt_floor (inject_Z n + (1 # 2))) as Hu.
  set (f := Qfloor (inject_Z n + (1 # 2))) in *.
  assert (inject_Z f < inject_Z (n + 1))%Q as H1
    by (rewrite inject_Z_plus; change (inject_Z 1) with 1%Q; lra).
  assert (inject_Z n < inject_Z (f + 1))%Q as H2 by lra.
  rewrite <- Zlt_Qlt in H1, H2. lia.
Qed.

(** A multiple of [10^-d] is a fixed point of rounding. *)
Lemma round_multiple (n : Z) d :
  (round (inject_Z n / scale d) d == inject_Z n / scale d)%Q.
Proof.
  pose proof (scale_pos d) as Hs.
  unfold round.
  destruct (Qle_bool 0 (inject_Z n / scale d)) eqn:Hsg.
  - apply Qle_bool_iff in Hsg.
    rewrite Qabs_pos by exact Hsg.
    assert (inject_Z n / scale d * scale d + (1 # 2)
            == inject_Z n + (1 # 2))%Q as E by (field; lra).
    rewrite (Qfloor_comp _ _ E), Qfloor_half. reflexivity.
  - apply Qle_bool_gt in Hsg.
    rewrite Qabs_neg by lra.
    assert (- (inject_Z n / scale d) * scale d + (1 # 2)
            == inject_Z (- n) + (1 # 2))%Q as E
      by (rewrite inject_Z_opp; field; lra).
    rewrite (Qfloor_comp _ _ E), Qfloor_half, inject_Z_opp.
    field. lra.
Qed.

(** Every rounded value is such a multiple ... *)
Lemma round_is_multiple x d :
  exists n : Z, (round x d == inject_Z n / scale d)%Q.
Proof.
  unfold round. destruct (Qle_bool 0 x).
  - eexists. reflexivity.
  - exists (- Qfloor (Qabs x * scale d + (1 # 2))).
    rewrite inject_Z_opp. pose proof (scale_pos d). field. lra.
Qed.

(** ... so rounding twice is rounding once. *)
Lemma round_idem x d : (round (round x d) d == round x d)%Q.
Proof.
  destruct (round_is_multiple x d) as [n E].
  rewrite (round_comp _ _ d E), round_multiple. symmetry. exact E.
Qed.

Lemma round_0 d : (round 0 d == 0)%Q.
Proof.
  pose proof (scale_pos d).
  assert (0 == inject_Z 0 / scale d)%Q as E by (field; lra).
  rewrite (round_comp _ _ d E), round_multiple. symmetry. exact E.
Qed.

Lemma round_nonneg x d : (0 <= x)%Q -> (0 <= round x d)%Q.
Proof.
  intros Hx. pose proof (scale_pos d) as Hs. unfold round.
  apply Qle_bool_iff in Hx as Hb. rewrite Hb.
  assert (0 <= Qfloor (Qabs x * scale d + (1 # 2)))%Z as Hf.
  { change 0%Z with (Qfloor 0). apply Qfloor_resp_le.
    pose proof (Qabs_nonneg x). nra. }
  rewrite Zle_Qle in Hf. change (inject_Z 0) with 0%Q in Hf.
  apply Qle_shift_div_l; [exact Hs | rewrite Qmult_0_l; exact Hf].
Qed.

(** Comparisons of finite numbers are comparisons of their values. *)
Lemma ltb_fin x y : ltb (Fin x) (Fin y) = true <-> (x < y)%Q.
Proof. apply Qltb_lt. Qed.

Lemma ltb_fin_ge x y : ltb (Fin x) (Fin y) = false <-> (y <= x)%Q.
Proof. apply Qltb_ge. Qed.

Lemma leb_fin x y : leb (Fin x) (Fin y) = true <-> (x <= y)%Q.
Proof. apply Qle_bool_iff. Qed.

Lemma leb_fin_gt x y : leb (Fin x) (Fin y) = false <-> (y < x)%Q.
Proof. apply Qle_bool_gt. Qed.


Lemma eqb_fin_false x y : eqb (Fin x) (Fin y) = false <-> ~ (x == y)%Q.
Proof. apply Qeq_bool_false. Qed.

(** A number that is positive is neither [NaN] nor [-Infinity]. *)
Lemma ltb_0_cases x :
  ltb (Fin 0) x = true -> x = PInf \/ exists q, x = Fin q /\ (0 < q)%Q.
Proof.
  destruct x as [q| | |]; cbn; try done.
  - intros H. right. exists q. split; [done | by apply Qltb_lt].
  - by left.
Qed.

Lemma isFin_fin x : isFin x -> x = Fin (fin x).
Proof. by destruct x. Qed.



End NumFacts.

(** * The heap keeps its shape *)

Module HeapFacts.
Import Heap.
Local Open Scope nat_scope.

Lemma swap_length i j (d : list Order) : length (swap i j d) = length d.
Proof. unfold swap. repeat case_match; rewrite ?length_insert; done. Qed.

Lemma swap_lookup i j (d : list Order) a b k :
  d !! i = Some a -> d !! j = Some b ->
  swap i j d !! k =
    if decide (k = j) then Some a
    else if decide (k = i) then Some b else d !! k.
Proof.
  intros Hi Hj. unfold swap. rewrite Hi, Hj.
  apply lookup_lt_Some in Hi as Li. apply lookup_lt_Some in Hj as Lj.
  destruct (decide (k = j)) as [->|].
  - apply list_lookup_insert_eq. by rewrite length_insert.
  - rewrite list_lookup_insert_ne by done.
    destruct (decide (k = i)) as [->|].
    + by apply list_lookup_insert_eq.
    + by rewrite list_lookup_insert_ne.
Qed.

(** Overwriting a slot trades the old item for the new one. *)
Lemma insert_trade (d : list Order) i a x :
  d !! i = Some a -> a :: <[i := x]> d ≡ₚ x :: d.
Proof.
  revert i. induction d as [|y d IH]; intros [|i] H; simplify_eq/=.
  - apply Permutation_swap.
  - rewrite (Permutation_swap y a), (IH i H). apply Permutation_swap.
Qed.

Lemma swap_perm i j (d : list Order) : swap i j d ≡ₚ d.
Proof.
  unfold swap. destruct (d !! i) as [a|] eqn:Hi; [|done].
  destruct (d !! j) as [b|] eqn:Hj; [|done].
  destruct (decide (i = j)) as [->|Hne].
  - simplify_eq. rewrite !list_insert_id; [done..|].
    by rewrite list_insert_id.
  - apply (Permutation_cons_inv (a := b)).
    rewrite (insert_trade (<[i:=b]> d) j b a)
      by (by rewrite list_lookup_insert_ne).
    by apply insert_trade.
Qed.

(** Two lookups of one slot name one item. *)
Ltac same_items :=
  repeat match goal with
         | H : Some _ = Some _ |- _ => injection H as <-
         end.

Section Shape.

Variable comparator : Order -> Order -> Number.
Variable good : Order -> Prop.

Abbreviation lt := (above comparator).
Abbreviation ordered := (heapOrdered comparator).
Abbreviation pick := (Heap.pick comparator).
Abbreviation upOk := (Heap.upOk comparator).
Abbreviation downOk := (Heap.downOk comparator).

Hypothesis lt_asym : forall a b, lt a b = true -> lt b a = false.
Hypothesis lt_trans : forall a b c, good a -> good b -> good c ->
  lt a b = true -> lt b c = true -> lt a c = true.
Hypothesis le_trans : forall a b c, good a -> good b -> good c ->
  lt b a = false -> lt c b = false -> lt c a = false.

Lemma lt_irrefl a : lt a a = false.
Proof. destruct (lt a a) eqn:E; [|done]. by rewrite (lt_asym _ _ E) in E. Qed.

(** [lt a b] and [b] not above [c] give [c] not above [a]. *)
Lemma lt_le_not a b c : good a -> good b -> good c ->
  lt a b = true -> lt c b = false -> lt c a = false.
Proof.
  intros Ga Gb Gc Hab Hcb. destruct (lt c a) eqn:E; [|done].
  by rewrite (lt_trans c a b Gc Ga Gb E Hab) in Hcb.
Qed.

Lemma good_at (d : list Order) i x : Forall good d -> d !! i = Some x -> good x.
Proof. intros H. by apply Forall_lookup_1. Qed.

(** *** Sifting up *)

Lemma bubbleUp_go_length fuel idx d :
  length (bubbleUp_go comparator fuel idx d) = length d.
Proof.
  revert idx d. induction fuel as [|fuel IH]; intros idx d; simpl; [done|].
  repeat case_match; rewrite ?IH, ?swap_length; done.
Qed.

Lemma bubbleUp_go_perm fuel idx d :
  bubbleUp_go comparator fuel idx d ≡ₚ d.
Proof.
  revert idx d. induction fuel as [|fuel IH]; intros idx d; simpl; [done|].
  repeat case_match; rewrite ?IH, ?swap_perm; done.
Qed.

Lemma aboveAt_spec i j (d : list Order) x y :
  d !! i = Some x -> d !! j = Some y -> aboveAt comparator i j d = lt x y.
Proof. intros Hi Hj. unfold aboveAt. by rewrite Hi, Hj. Qed.

Lemma aboveAt_true i j (d : list Order) :
  aboveAt comparator i j d = true ->
  exists x y, d !! i = Some x /\ d !! j = Some y /\ lt x y = true.
Proof. unfold aboveAt. repeat case_match; naive_solver. Qed.

Lemma bubbleUp_go_S fuel idx d :
  bubbleUp_go comparator (S fuel) idx d =
    if Nat.ltb 0 idx then
      if aboveAt comparator idx ((idx - 1) / 2) d
      then bubbleUp_go comparator fuel ((idx - 1) / 2)
             (swap idx ((idx - 1) / 2) d)
      else d
    else d.
Proof. reflexivity. Qed.

Lemma bubbleUp_go_ordered fuel idx d :
  Forall good d -> (idx < fuel)%nat -> upOk d idx ->
  ordered (bubbleUp_go comparator fuel idx d).
Proof.
  revert idx d. induction fuel as [|fuel IH]; intros idx d Hg Hf [H1 H2];
    [lia|].
  rewrite bubbleUp_go_S. destruct (Nat.ltb_spec 0 idx) as [Hpos|Hz].
  - destruct (aboveAt comparator idx ((idx - 1) / 2) d) eqn:Ha.
    + apply aboveAt_true in Ha as (v & w & Hv & Hw & Hvw).
      apply IH; [by rewrite swap_perm | lia |].
      split.
      * intros i x p Hi Hne.
        rewrite !(swap_lookup _ _ _ _ _ _ Hv Hw).
        repeat case_decide; intros; try lia; same_items.
        all: first
          [ by apply lt_asym
          | by (eapply (H1 i); eauto; lia)
          | by (eapply (H2 i); eauto; lia)
          | eapply (lt_le_not v w); eauto using good_at;
            eapply (H1 i); [lia | lia | eassumption | congruence] ].
      * intros i x g Hp Hi Hpar.
        rewrite !(swap_lookup _ _ _ _ _ _ Hv Hw).
        repeat case_decide; intros; try lia; same_items.
        all: first
          [ by (eapply (H1 ((idx - 1) / 2)%nat); eauto; lia)
          | eapply (le_trans g w x); eauto using good_at;
            [ eapply (H1 ((idx - 1) / 2)%nat); eauto; lia
            | eapply (H1 i); [lia | lia | eassumption | congruence] ] ].
    + intros i x p Hi Hx Hp.
      destruct (decide (i = idx)) as [->|Hne]; [|by eapply H1].
      by rewrite (aboveAt_spec _ _ _ _ _ Hx Hp) in Ha.
  - intros i x p Hi Hx Hp. eapply H1; eauto. lia.
Qed.

(** [S idx] turns are as good as any larger count. *)
Lemma bubbleUp_go_fuel fuel idx d :
  (idx < fuel)%nat ->
  bubbleUp_go comparator fuel idx d = bubbleUp comparator idx d.
Proof.
  unfold bubbleUp. revert fuel d.
  induction idx as [idx IH] using lt_wf_ind. intros fuel d Hf.
  destruct fuel as [|fuel]; [lia|]. rewrite !bubbleUp_go_S.
  destruct (Nat.ltb_spec 0 idx) as [Hpos|Hz]; [|done].
  destruct (aboveAt comparator idx ((idx - 1) / 2) d); [|done].
  rewrite (IH ((idx - 1) / 2)%nat) by lia.
  symmetry. apply IH; lia.
Qed.

(** *** Sifting down *)

Lemma bubbleDown_go_S fuel idx d :
  bubbleDown_go comparator (S fuel) idx d =
    if negb (Nat.eqb (pick idx d) idx)
    then bubbleDown_go comparator fuel (pick idx d) (swap idx (pick idx d) d)
    else d.
Proof. reflexivity. Qed.

Lemma bubbleDown_go_length fuel idx d :
  length (bubbleDown_go comparator fuel idx d) = length d.
Proof.
  revert idx d. induction fuel as [|fuel IH]; intros idx d; [done|].
  rewrite bubbleDown_go_S. case_match; rewrite ?IH, ?swap_length; done.
Qed.

Lemma bubbleDown_go_perm fuel idx d :
  bubbleDown_go comparator fuel idx d ≡ₚ d.
Proof.
  revert idx d. induction fuel as [|fuel IH]; intros idx d; [done|].
  rewrite bubbleDown_go_S. case_match; rewrite ?IH, ?swap_perm; done.
Qed.

Lemma not_picked c j (d : list Order) x y :
  Nat.ltb c (length d) && aboveAt comparator c j d = false ->
  d !! c = Some x -> d !! j = Some y -> lt x y = false.
Proof.
  intros H Hx Hy. apply lookup_lt_Some in Hx as L.
  apply Nat.ltb_lt in L. rewrite L in H.
  by rewrite (aboveAt_spec _ _ _ _ _ Hx Hy) in H.
Qed.

Lemma picked c j (d : list Order) :
  Nat.ltb c (length d) && aboveAt comparator c j d = true ->
  exists x y, d !! c = Some x /\ d !! j = Some y /\ lt x y = true.
Proof. intros [_ H]%andb_true_iff. by apply aboveAt_true. Qed.

(** Either [idx] stays, and no child is above it; or a child is
    picked that is above [idx] and not below its sibling. *)
Lemma pick_spec idx d :
  Forall good d ->
  (pick idx d = idx /\
   forall c x v, c = (2 * idx + 1)%nat \/ c = (2 * idx + 2)%nat ->
     d !! c = Some x -> d !! idx = Some v -> lt x v = false)
  \/ (exists v w,
        (pick idx d = (2 * idx + 1)%nat \/ pick idx d = (2 * idx + 2)%nat)
        /\ d !! idx = Some v /\ d !! pick idx d = Some w /\ lt w v = true
        /\ forall c x, c = (2 * idx + 1)%nat \/ c = (2 * idx + 2)%nat ->
             c <> pick idx d -> d !! c = Some x -> lt x w = false).
Proof.
  intros Hg. unfold pick.
  destruct (Nat.ltb (2 * idx + 1) (length d)
            && aboveAt comparator (2 * idx + 1) idx d) eqn:EL.
  - apply picked in EL as (l & v & Hl & Hv & Hlv).
    destruct (Nat.ltb (2 * idx + 2) (length d)
              && aboveAt comparator (2 * idx + 2) (2 * idx + 1) d) eqn:ER.
    + apply picked in ER as (r & l' & Hr & Hl' & Hrl).
      rewrite Hl in Hl'. same_items.
      right. exists v, r. split_and!; eauto using good_at.
      intros c x [->| ->] Hc Hx; [|done]. rewrite Hl in Hx. same_items.
      by apply lt_asym.
    + right. exists v, l. split_and!; eauto.
      intros c x [->| ->] Hc Hx; [done|]. by eapply not_picked.
  - destruct (Nat.ltb (2 * idx + 2) (length d)
              && aboveAt comparator (2 * idx + 2) idx d) eqn:ER.
    + apply picked in ER as (r & v & Hr & Hv & Hrv).
      right. exists v, r. split_and!; eauto.
      intros c x [->| ->] Hc Hx; [|done].
      eapply (lt_le_not r v x); eauto using good_at.
      by eapply not_picked.
    + left. split; [done|].
      intros c x v [->| ->] Hx Hv;
        [eapply (not_picked _ _ _ _ _ EL) | eapply (not_picked _ _ _ _ _ ER)];
        eauto.
Qed.

Lemma bubbleDown_go_ordered fuel idx d :
  Forall good d -> (0 < fuel)%nat -> (length d <= idx + fuel)%nat ->
  downOk d idx -> ordered (bubbleDown_go comparator fuel idx d).
Proof.
  revert idx d.
  induction fuel as [|fuel IH]; intros idx d Hg Hpos Hf [H1 H2]; [lia|].
  rewrite bubbleDown_go_S.
  destruct (pick_spec idx d Hg)
    as [[Hb Hc] | (v & w & Hb & Hv & Hw & Hwv & Hs)].
  - rewrite Hb, Nat.eqb_refl. simpl.
    intros i x p Hi Hx Hp.
    destruct (decide (((i - 1) / 2)%nat = idx)) as [E|E]; [|by eapply H1].
    rewrite E in Hp. eapply (Hc i); eauto. lia.
  - set (best := pick idx d) in *.
    apply lookup_lt_Some in Hw as Lb.
    assert (best <> idx) as Hne by lia.
    apply Nat.eqb_neq in Hne as ->. simpl.
    apply IH; [by rewrite swap_perm | lia | rewrite swap_length; lia |].
    split.
    + intros i x p Hi Hpar.
      rewrite !(swap_lookup _ _ _ _ _ _ Hv Hw).
      repeat case_decide; intros; try lia; same_items.
      all: first
        [ by apply lt_asym
        | by (eapply (H1 i); eauto; lia)
        | by (eapply (H2 best); [lia | lia | lia | eassumption | congruence])
        | by (eapply (Hs i); eauto; lia) ].
    + intros i x g Hp Hi Hpar.
      rewrite !(swap_lookup _ _ _ _ _ _ Hv Hw).
      repeat case_decide; intros; try lia; same_items.
      eapply (H1 i); [lia | lia | eassumption | congruence].
Qed.

Lemma ordered_downOk d idx : Forall good d -> ordered d -> downOk d idx.
Proof.
  intros Hg Ho. split; [intros i x p Hi _; by apply Ho|].
  intros i x g Hp Hi Hpar Hx Hgp.
  destruct (d !! idx) as [v|] eqn:Hv.
  - eapply (le_trans g v x); eauto using good_at.
    eapply (Ho i); eauto. congruence.
  - apply lookup_lt_Some in Hx. apply lookup_ge_None in Hv. lia.
Qed.

Lemma bubbleDown_ordered idx d :
  Forall good d -> downOk d idx -> ordered (bubbleDown comparator idx d).
Proof. intros. apply bubbleDown_go_ordered; auto; lia. Qed.

(** [S length] turns are as good as any larger count. *)
Lemma bubbleDown_go_fuel fuel idx d :
  (length d < idx + fuel)%nat -> (0 < fuel)%nat ->
  bubbleDown_go comparator fuel idx d = bubbleDown comparator idx d.
Proof.
  unfold bubbleDown.
  assert (forall n fuel idx (d : list Order) fuel',
    (length d - idx < n)%nat ->
    (0 < fuel)%nat -> (0 < fuel')%nat ->
    (length d <= idx + fuel)%nat -> (length d <= idx + fuel')%nat ->
    bubbleDown_go comparator fuel idx d
    = bubbleDown_go comparator fuel' idx d) as Hgen.
  { clear fuel idx d. induction n as [|n IH]; [lia|].
    intros [|fuel] idx d [|fuel'] Hn P P' L L'; try lia.
    rewrite !bubbleDown_go_S.
    destruct (Nat.eqb_spec (pick idx d) idx) as [E|E]; [done|]. simpl.
    assert (idx < pick idx d < length d)%nat as [Hlo Hhi].
    { unfold pick in *. repeat case_match; try lia;
        repeat match goal with
               | H : _ && _ = true |- _ =>
                   apply andb_true_iff in H as [?%Nat.ltb_lt _]
               end; lia. }
    apply IH; rewrite ?swap_length; lia. }
  intros. apply Hgen with (n := S (length d)); lia.
Qed.

(** *** The operations *)

Lemma ordered_nil : ordered [].
Proof. intros i x p _ Hx. done. Qed.

Lemma ordered_take n d : ordered d -> ordered (take n d).
Proof.
  intros Ho i x p Hi Hx Hp.
  apply lookup_take_Some in Hx as [Hx _].
  apply lookup_take_Some in Hp as [Hp _]. by eapply Ho.
Qed.

Lemma insert_perm x d : insert comparator x d ≡ₚ x :: d.
Proof.
  unfold insert, bubbleUp. rewrite bubbleUp_go_perm.
  by rewrite Permutation_app_comm.
Qed.

Lemma insert_ordered x d :
  Forall good d -> good x -> ordered d -> ordered (insert comparator x d).
Proof.
  intros Hg Hx Ho. unfold insert, bubbleUp.
  apply bubbleUp_go_ordered; [|lia|].
  - apply Forall_app; split; [done|]. by apply Forall_singleton.
  - rewrite length_app. simpl. replace (length d + 1 - 1) with (length d) by lia.
    split.
    + intros i y p Hi Hne Hy Hp.
      apply lookup_lt_Some in Hy as Ly. rewrite length_app in Ly. simpl in Ly.
      rewrite lookup_app_l in Hy by lia.
      rewrite lookup_app_l in Hp by lia. by eapply Ho.
    + intros i y g _ Hi Hpar Hy _.
      apply lookup_lt_Some in Hy as Ly. rewrite length_app in Ly. simpl in Ly.
      lia.
Qed.

Lemma ordered_app_l d1 d2 : ordered (d1 ++ d2) -> ordered d1.
Proof.
  intros Ho i x p Hi Hx Hp. apply (Ho i); [done|..];
    by apply lookup_app_l_Some.
Qed.

Lemma pop_snoc (d : list Order) x : pop (d ++ [x]) = (Some x, d).
Proof.
  unfold pop. rewrite last_snoc, length_app. simpl.
  replace (length d + 1 - 1) with (length d) by lia.
  by rewrite take_app_length.
Qed.


Lemma isEmpty_snoc (d : list Order) x : isEmpty (d ++ [x]) = false.
Proof. unfold isEmpty. rewrite length_app. simpl. apply Nat.eqb_neq. lia. Qed.

(** What [extractTop] returns is the item at index 0, and what it
    leaves is the rest. *)
Lemma extractTop_perm d top :
  d !! 0 = Some top ->
  (extractTop comparator d).1 = Some top
  /\ top :: (extractTop comparator d).2 ≡ₚ d.
Proof.
  destruct d as [|x d _] using rev_ind; [done|]. intros Ht.
  unfold extractTop. rewrite isEmpty_snoc, pop_snoc, Ht.
  destruct (Nat.ltb_spec 0 (length d)) as [L|L]; simpl.
  - split; [done|]. unfold bubbleDown. rewrite bubbleDown_go_perm.
    rewrite lookup_app_l in Ht by done.
    rewrite (insert_trade d 0 top x Ht). by rewrite Permutation_app_comm.
  - destruct d; simpl in *; [|lia]. by simplify_eq.
Qed.

Lemma extractTop_ordered d :
  Forall good d -> ordered d -> ordered (extractTop comparator d).2.
Proof.
  destruct d as [|x d _] using rev_ind; [done|]. intros Hg Ho.
  rewrite Forall_app, Forall_singleton in Hg. destruct Hg as [Hg Hx].
  apply ordered_app_l in Ho.
  unfold extractTop. rewrite isEmpty_snoc, pop_snoc.
  destruct (Nat.ltb_spec 0 (length d)) as [L|L]; simpl; [|done].
  apply bubbleDown_ordered; [by apply Forall_insert|].
  split; [|intros; lia].
  intros i y p Hi Hpar.
  rewrite !list_lookup_insert_ne by lia. by apply Ho.
Qed.

Lemma findIndex_Some i d idx :
  findIndex i d = Some idx -> exists o, d !! idx = Some o /\ id o = i.
Proof.
  revert idx. induction d as [|o d IH]; intros idx; simpl; [done|].
  destruct (String.eqb_spec (id o) i) as [E|E].
  - intros [= <-]. eauto.
  - destruct (findIndex i d) as [k|]; [|done]. intros [= <-].
    by apply IH.
Qed.

Lemma removeById_None i d :
  (removeById comparator i d).1 = None -> (removeById comparator i d).2 = d.
Proof.
  unfold removeById. destruct (findIndex i d) as [idx|] eqn:E; [|done].
  apply findIndex_Some in E as (o & Ho & _). rewrite Ho.
  destruct (pop d) as [[l|] d']; [destruct (idx <? length d')|]; done.
Qed.

Lemma removeById_perm i d o :
  (removeById comparator i d).1 = Some o ->
  id o = i /\ o :: (removeById comparator i d).2 ≡ₚ d.
Proof.
  unfold removeById. destruct (findIndex i d) as [idx|] eqn:E; [|done].
  apply findIndex_Some in E as (o' & Ho & Hid). rewrite Ho.
  destruct d as [|x d _] using rev_ind; [done|].
  rewrite pop_snoc.
  destruct (Nat.ltb_spec idx (length d)) as [L|L]; simpl;
    intros [= ->]; (split; [done|]).
  - unfold bubbleDown, bubbleUp.
    rewrite bubbleDown_go_perm, bubbleUp_go_perm.
    rewrite lookup_app_l in Ho by done.
    rewrite (insert_trade d idx o x Ho). by rewrite Permutation_app_comm.
  - apply lookup_lt_Some in Ho as L'. rewrite length_app in L'. simpl in L'.
    assert (idx = length d) as -> by lia.
    rewrite list_lookup_middle in Ho by done. simplify_eq.
    by rewrite Permutation_app_comm.
Qed.

Lemma bubbleUp_stay idx (d : list Order) :
  idx = 0 \/ aboveAt comparator idx ((idx - 1) / 2) d = false ->
  bubbleUp comparator idx d = d.
Proof.
  unfold bubbleUp. rewrite bubbleUp_go_S.
  intros [->|E]; [done|]. rewrite E. by case_match.
Qed.

Lemma removeById_ordered i d :
  Forall good d -> ordered d -> ordered (removeById comparator i d).2.
Proof.
  intros Hg Ho. unfold removeById.
  destruct (findIndex i d) as [idx|] eqn:E; [|done].
  apply findIndex_Some in E as (o & Hidx & _).
  destruct d as [|x d _] using rev_ind; [done|].
  rewrite pop_snoc.
  rewrite Forall_app, Forall_singleton in Hg. destruct Hg as [Hg Hx].
  apply ordered_app_l in Ho.
  destruct (Nat.ltb_spec idx (length d)) as [L|L]; simpl; [|done].
  rewrite lookup_app_l in Hidx by done.
  assert (Forall good (<[idx:=x]> d)) as Hg2 by by apply Forall_insert.
  assert (forall c y g, 0 < idx -> 0 < c -> (c - 1) / 2 = idx ->
            d !! c = Some y -> d !! ((idx - 1) / 2) = Some g ->
            lt y g = false) as Hgrand.
  { intros c y g Hp Hc Hpar Hy Hgp.
    eapply (le_trans g o y); eauto using good_at.
    eapply (Ho c); eauto. congruence. }
  destruct (decide (idx = 0 \/
    aboveAt comparator idx ((idx - 1) / 2) (<[idx:=x]> d) = false))
    as [Hstay|Hup].
  - rewrite (bubbleUp_stay _ _ Hstay).
    apply bubbleDown_ordered; [done|]. split.
    + intros c y p Hc Hpar.
      destruct (decide (c = idx)) as [->|Hne].
      * rewrite list_lookup_insert_eq by done.
        rewrite list_lookup_insert_ne by lia. intros [= <-] Hp.
        destruct Hstay as [?|Hstay]; [lia|].
        rewrite (aboveAt_spec _ _ _ x p) in Hstay; [done|..].
        -- by apply list_lookup_insert_eq.
        -- rewrite list_lookup_insert_ne by lia. done.
      * rewrite !list_lookup_insert_ne by lia. by apply Ho.
    + intros c y g Hp Hc Hpar.
      rewrite !list_lookup_insert_ne by lia. by apply Hgrand.
  - assert (0 < idx) as Hp by (destruct idx; [tauto | lia]).
    destruct (aboveAt comparator idx ((idx - 1) / 2) (<[idx:=x]> d))
      eqn:Ha; [|tauto].
    apply aboveAt_true in Ha as (x' & p & Hx' & Hpp & Hxp).
    rewrite list_lookup_insert_eq in Hx' by done.
    rewrite list_lookup_insert_ne in Hpp by lia. simplify_eq.
    assert (ordered (bubbleUp comparator idx (<[idx:=x']> d))) as Ho3.
    { unfold bubbleUp. apply bubbleUp_go_ordered; [done | lia |]. split.
      - intros c y q Hc Hne. rewrite (list_lookup_insert_ne _ idx c) by done.
        destruct (decide ((c - 1) / 2 = idx)) as [Epar|Epar].
        + rewrite Epar, list_lookup_insert_eq by done. intros Hy [= <-].
          eapply (lt_le_not x' p y); eauto using good_at.
        + rewrite list_lookup_insert_ne by done. by apply Ho.
      - intros c y g _ Hc Hpar.
        rewrite !list_lookup_insert_ne by lia. by apply Hgrand. }
    apply bubbleDown_ordered.
    + unfold bubbleUp. by rewrite bubbleUp_go_perm.
    + apply ordered_downOk; [|done].
      unfold bubbleUp. by rewrite bubbleUp_go_perm.
Qed.

(** The item at index 0 has no item above it. *)
Lemma top_minimal d t :
  Forall good d -> ordered d -> d !! 0 = Some t ->
  forall x, x ∈ d -> lt x t = false.
Proof.
  intros Hg Ho Ht x [i Hx]%list_elem_of_lookup. revert x Hx.
  induction i as [i IH] using lt_wf_ind. intros x Hx.
  destruct (decide (i = 0)) as [->|Hi].
  - simplify_eq. apply lt_irrefl.
  - destruct (d !! ((i - 1) / 2)) as [p|] eqn:Hp.
    + eapply (le_trans t p x); eauto using good_at.
      * eapply (IH ((i - 1) / 2)); [lia | done].
      * eapply (Ho i); eauto. lia.
    + apply lookup_lt_Some in Hx. apply lookup_ge_None in Hp. lia.
Qed.

(** *** Rebuilding from an array *)



Lemma fold_insert_perm rest acc :
  fold_left (fun data o => insert comparator o data) rest acc
  ≡ₚ acc ++ rest.
Proof.
  revert acc. induction rest as [|x rest IH]; intros acc; simpl.
  - by rewrite app_nil_r.
  - rewrite IH, insert_perm. simpl. apply Permutation_middle.
Qed.

Lemma fold_insert_ordered rest acc :
  Forall good acc -> Forall good rest -> ordered acc ->
  ordered (fold_left (fun data o => insert comparator o data) rest acc).
Proof.
  revert acc. induction rest as [|x rest IH]; intros acc Ha Hr Ho; [done|].
  apply Forall_cons in Hr as [Hx Hr]. simpl. apply IH; [|done|].
  - rewrite insert_perm. by constructor.
  - by apply insert_ordered.
Qed.

End Shape.

(** Writing back the quantity the top already has changes nothing. *)
Lemma updateQuantity_top (o : Order) rest :
  updateQuantity (id o) (quantity o) (o :: rest) = o :: rest.
Proof. simpl. rewrite String.eqb_refl. by destruct o. Qed.

End HeapFacts.

(** * The two comparators order priced items *)

Module ComparatorFacts.
Import NumFacts Heap.

Lemma inject_Z_neg z : (inject_Z z < 0)%Q <-> z < 0.
Proof. change 0%Q with (inject_Z 0). by rewrite <- Zlt_Qlt. Qed.

Lemma eqb_sym x y : eqb x y = eqb y x.
Proof.
  destruct x as [a| | |], y as [b| | |]; simpl; try done.
  apply eq_true_iff_eq. rewrite !Qeq_bool_iff.
  split; intros E; by symmetry.
Qed.

Lemma strictNeq_sym x y : strictNeq x y = strictNeq y x.
Proof.
  destruct x as [a|], y as [b|]; simpl; try done.
  by rewrite eqb_sym.
Qed.

(** The price of a priced order. *)
Lemma priced_price o : priced o -> price o = Some (Fin (priceOf o)).
Proof. intros [p Hp]. unfold priceOf. by rewrite Hp. Qed.

Lemma strictNeq_priced a b :
  priced a -> priced b ->
  strictNeq (price a) (price b) = true
  <-> ~ (priceOf a == priceOf b)%Q.
Proof.
  intros Ha Hb. rewrite (priced_price a Ha), (priced_price b Hb). simpl.
  rewrite negb_true_iff. apply Qeq_bool_false.
Qed.

Lemma ask_above a b :
  priced a -> priced b ->
  above askComparator a b = true
  <-> (priceOf a < priceOf b)%Q
      \/ ((priceOf a == priceOf b)%Q /\ timestamp a < timestamp b).
Proof.
  intros Ha Hb. unfold above, askComparator.
  pose proof (strictNeq_priced a b Ha Hb) as Hn.
  destruct (strictNeq (price a) (price b)).
  - rewrite (priced_price a Ha), (priced_price b Hb). cbn [toNumber sub].
    rewrite ltb_fin.
    assert (~ (priceOf a == priceOf b)%Q) by tauto.
    split; [intros; left; lra | intros [?|[? _]]; [lra | tauto]].
  - rewrite ltb_fin.
    assert (priceOf a == priceOf b)%Q as E.
    { destruct (Qeq_dec (priceOf a) (priceOf b)) as [E|E];
        [done|]. apply Hn in E. done. }
    rewrite inject_Z_neg. split; [intros; right; split; [done|lia]|].
    intros [?|[_ ?]]; [lra | lia].
Qed.

Lemma bid_above a b :
  priced a -> priced b ->
  above bidComparator a b = true
  <-> (priceOf b < priceOf a)%Q
      \/ ((priceOf a == priceOf b)%Q /\ timestamp a < timestamp b).
Proof.
  intros Ha Hb. unfold above, bidComparator.
  pose proof (strictNeq_priced b a Hb Ha) as Hn.
  destruct (strictNeq (price b) (price a)).
  - rewrite (priced_price a Ha), (priced_price b Hb). cbn [toNumber sub].
    rewrite ltb_fin.
    assert (~ (priceOf b == priceOf a)%Q) by tauto.
    split; [intros; left; lra | intros [?|[? _]]; [lra | lra]].
  - rewrite ltb_fin.
    assert (priceOf b == priceOf a)%Q as E.
    { destruct (Qeq_dec (priceOf b) (priceOf a)) as [E|E];
        [done|]. apply Hn in E. done. }
    rewrite inject_Z_neg. split; [intros; right; split; [lra|lia]|].
    intros [?|[_ ?]]; [lra | lia].
Qed.

(** A difference and the opposite difference are not both negative,
    whatever the two numbers are. *)
Lemma sub_asym x y :
  ltb (sub x y) (Fin 0) = true -> ltb (sub y x) (Fin 0) = false.
Proof.
  destruct x as [a| | |], y as [b| | |]; cbn; try done.
  rewrite Qltb_lt, Qltb_ge. lra.
Qed.

Lemma stamp_asym (s t : Z) :
  ltb (Fin (inject_Z (s - t))) (Fin 0) = true ->
  ltb (Fin (inject_Z (t - s))) (Fin 0) = false.
Proof.
  rewrite ltb_fin, ltb_fin_ge, inject_Z_neg. intros H.
  change 0%Q with (inject_Z 0). rewrite <- Zle_Qle. lia.
Qed.

Lemma ask_asym a b :
  above askComparator a b = true -> above askComparator b a = false.
Proof.
  unfold above, askComparator. rewrite (strictNeq_sym (price b)).
  destruct (strictNeq (price a) (price b)).
  - apply sub_asym.
  - apply stamp_asym.
Qed.

Lemma bid_asym a b :
  above bidComparator a b = true -> above bidComparator b a = false.
Proof.
  unfold above, bidComparator. rewrite (strictNeq_sym (price b)).
  destruct (strictNeq (price a) (price b)).
  - apply sub_asym.
  - apply stamp_asym.
Qed.

Lemma not_above (c : Order -> Order -> Number) a b P :
  (above c a b = true <-> P) -> above c a b = false <-> ~ P.
Proof. intros H. rewrite <- H. symmetry. apply not_true_iff_false. Qed.

Lemma ask_lt_trans a b c :
  priced a -> priced b -> priced c ->
  above askComparator a b = true -> above askComparator b c = true ->
  above askComparator a c = true.
Proof.
  intros Ha Hb Hc. rewrite !ask_above by done.
  intros [?|[? ?]] [?|[? ?]]; [left; lra.. | right; split; [lra | lia]].
Qed.

Lemma bid_lt_trans a b c :
  priced a -> priced b -> priced c ->
  above bidComparator a b = true -> above bidComparator b c = true ->
  above bidComparator a c = true.
Proof.
  intros Ha Hb Hc. rewrite !bid_above by done.
  intros [?|[? ?]] [?|[? ?]]; [left; lra.. | right; split; [lra | lia]].
Qed.

Lemma ask_le_trans a b c :
  priced a -> priced b -> priced c ->
  above askComparator b a = false -> above askComparator c b = false ->
  above askComparator c a = false.
Proof.
  intros Ha Hb Hc.
  rewrite (not_above _ _ _ _ (ask_above b a Hb Ha)),
    (not_above _ _ _ _ (ask_above c b Hc Hb)),
    (not_above _ _ _ _ (ask_above c a Hc Ha)).
  intros H1 H2 [?|[? ?]].
  - destruct (Qlt_le_dec (priceOf b) (priceOf a)); [tauto|].
    destruct (Qlt_le_dec (priceOf c) (priceOf b)); [tauto|].
    lra.
  - destruct (Qlt_le_dec (priceOf b) (priceOf a)); [tauto|].
    destruct (Qlt_le_dec (priceOf c) (priceOf b)); [tauto|].
    assert (priceOf b == priceOf a)%Q by lra.
    assert (priceOf c == priceOf b)%Q by lra.
    assert (~ timestamp b < timestamp a) by tauto.
    assert (~ timestamp c < timestamp b) by tauto. lia.
Qed.

Lemma bid_le_trans a b c :
  priced a -> priced b -> priced c ->
  above bidComparator b a = false -> above bidComparator c b = false ->
  above bidComparator c a = false.
Proof.
  intros Ha Hb Hc.
  rewrite (not_above _ _ _ _ (bid_above b a Hb Ha)),
    (not_above _ _ _ _ (bid_above c b Hc Hb)),
    (not_above _ _ _ _ (bid_above c a Hc Ha)).
  intros H1 H2 [?|[? ?]].
  - destruct (Qlt_le_dec (priceOf a) (priceOf b)); [tauto|].
    destruct (Qlt_le_dec (priceOf b) (priceOf c)); [tauto|].
    lra.
  - destruct (Qlt_le_dec (priceOf a) (priceOf b)); [tauto|].
    destruct (Qlt_le_dec (priceOf b) (priceOf c)); [tauto|].
    assert (priceOf b == priceOf a)%Q by lra.
    assert (priceOf c == priceOf b)%Q by lra.
    assert (~ timestamp b < timestamp a) by tauto.
    assert (~ timestamp c < timestamp b) by tauto. lia.
Qed.

End ComparatorFacts.

(** * The matching loop *)

Module MatchFacts.
Import NumFacts Heap HeapFacts ComparatorFacts.

(** The body of the loop, with its local names folded. *)
Lemma match_step_eq b order now st :
  match_step b order now st =
    if ltb (Fin 0) (quantity (ms_remainder st))
       && negb (isEmpty (ms_heap st)) then
      match ms_heap st with
      | [] => None
      | best :: rest =>
          if negb (priceMatches order (ms_remainder st) best) then None
          else
            let q := tradedQty b (ms_remainder st) best in
            let best' := fill b best q in
            if eqb (quantity best') (Fin 0) then
              Some
                {| ms_trades :=
                     ms_trades st ++
                     [makeTrade b order (ms_remainder st) best q now];
                   ms_remainder := fill b (ms_remainder st) q;
                   ms_heap :=
                     (extractTop (opposingComparator (side order))
                        (best' :: rest)).2;
                   ms_emitted :=
                     ms_emitted st ++ emit b ORDER_REMOVED (OfOrder best') |}
            else
              Some
                {| ms_trades :=
                     ms_trades st ++
                     [makeTrade b order (ms_remainder st) best q now];
                   ms_remainder := fill b (ms_remainder st) q;
                   ms_heap :=
                     updateQuantity (id best') (quantity best') (best' :: rest);
                   ms_emitted := ms_emitted st |}
      end
    else None.
Proof. unfold match_step. destruct (ms_heap st); reflexivity. Qed.

(** What a turn that is taken does. *)
Lemma match_step_inv b order now st st' :
  match_step b order now st = Some st' ->
  exists best rest,
    ms_heap st = best :: rest
    /\ ltb (Fin 0) (quantity (ms_remainder st)) = true
    /\ priceMatches order (ms_remainder st) best = true
    /\ ms_trades st' =
         ms_trades st ++
         [makeTrade b order (ms_remainder st) best
            (tradedQty b (ms_remainder st) best) now]
    /\ ms_remainder st' =
         fill b (ms_remainder st) (tradedQty b (ms_remainder st) best)
    /\ let best' := fill b best (tradedQty b (ms_remainder st) best) in
       (eqb (quantity best') (Fin 0) = true
        /\ ms_heap st' =
             (extractTop (opposingComparator (side order)) (best' :: rest)).2
        /\ ms_emitted st' =
             ms_emitted st ++ emit b ORDER_REMOVED (OfOrder best'))
       \/ (eqb (quantity best') (Fin 0) = false
           /\ ms_heap st' = best' :: rest
           /\ ms_emitted st' = ms_emitted st).
Proof.
  rewrite match_step_eq.
  destruct (ltb (Fin 0) (quantity (ms_remainder st))) eqn:Hq; [|done].
  destruct (ms_heap st) as [|best rest] eqn:Hh; [done|].
  destruct (priceMatches order (ms_remainder st) best) eqn:Hp; [|done].
  cbv zeta.
  destruct (eqb (quantity (fill b best
              (tradedQty b (ms_remainder st) best))) (Fin 0)) eqn:Hz;
    intros [= <-]; exists best, rest;
    cbn [ms_trades ms_remainder ms_heap ms_emitted andb negb isEmpty];
    split_and!; try done.
  - left. by rewrite Hz.
  - right. rewrite Hz. split_and!; try done.
    by rewrite String.eqb_refl.
Qed.

(** A turn is not taken exactly when the loop condition fails or the
    [break] is reached. *)
Lemma match_step_None b order now st :
  match_step b order now st = None <->
  ltb (Fin 0) (quantity (ms_remainder st)) = false
  \/ ms_heap st = []
  \/ exists best rest, ms_heap st = best :: rest
       /\ priceMatches order (ms_remainder st) best = false.
Proof.
  rewrite match_step_eq.
  destruct (ltb (Fin 0) (quantity (ms_remainder st))) eqn:Hq.
  - destruct (ms_heap st) as [|best rest] eqn:Hh.
    + split; [auto|done].
    + destruct (priceMatches order (ms_remainder st) best) eqn:Hp;
        cbv zeta; cbn [andb negb isEmpty length Nat.eqb].
      * split; [by case_match|].
        intros [?|[?|(x & y & [= <- <-] & ?)]]; [done|done|congruence].
      * split; [|done]. intros _. right. right. eauto.
  - split; [auto|done].
Qed.

(** The heap after a turn: the top is gone, or only its quantity
    changed. *)
Lemma match_step_heap b order now st st' :
  match_step b order now st = Some st' ->
  exists best rest,
    ms_heap st = best :: rest
    /\ let best' := fill b best (tradedQty b (ms_remainder st) best) in
       (eqb (quantity best') (Fin 0) = true /\ ms_heap st' ≡ₚ rest)
       \/ (eqb (quantity best') (Fin 0) = false
           /\ ms_heap st' = best' :: rest).
Proof.
  intros (best & rest & Hh & _ & _ & _ & _ & Hcase)%match_step_inv.
  exists best, rest. split; [done|].
  destruct Hcase as [(Hz & -> & _) | (Hz & -> & _)]; [left|right]; split;
    try done.
  eapply (Permutation_cons_inv (a := fill b best _)).
  by apply extractTop_perm.
Qed.

Lemma match_step_Forall P b order now st st' :
  blind P ->
  match_step b order now st = Some st' ->
  Forall P (ms_heap st) -> Forall P (ms_heap st').
Proof.
  intros HP (best & rest & Hh & Hcase)%match_step_heap HF.
  rewrite Hh in HF. apply Forall_cons in HF as [Hb Hr].
  destruct Hcase as [[_ ->] | [_ ->]]; [done|].
  constructor; [by apply HP | done].
Qed.

Lemma priced_blind : blind priced.
Proof. by intros o q. Qed.

Lemma priceOf_set_quantity o q : priceOf (set_quantity o q) = priceOf o.
Proof. done. Qed.

(** *** Shape *)

Lemma opposing_asym s a b :
  above (opposingComparator s) a b = true ->
  above (opposingComparator s) b a = false.
Proof. destruct s; [apply ask_asym | apply bid_asym]. Qed.

Lemma opposing_lt_trans s a b c :
  priced a -> priced b -> priced c ->
  above (opposingComparator s) a b = true ->
  above (opposingComparator s) b c = true ->
  above (opposingComparator s) a c = true.
Proof. destruct s; [apply ask_lt_trans | apply bid_lt_trans]. Qed.

Lemma opposing_le_trans s a b c :
  priced a -> priced b -> priced c ->
  above (opposingComparator s) b a = false ->
  above (opposingComparator s) c b = false ->
  above (opposingComparator s) c a = false.
Proof. destruct s; [apply ask_le_trans | apply bid_le_trans]. Qed.

Lemma above_set_quantity s a b q :
  above (opposingComparator s) a (set_quantity b q)
  = above (opposingComparator s) a b.
Proof. by destruct s. Qed.

(** The comparators do not read the quantity: a decrement of the top
    keeps the shape. *)
Lemma ordered_refill s best rest q :
  heapOrdered (opposingComparator s) (best :: rest) ->
  heapOrdered (opposingComparator s) (set_quantity best q :: rest).
Proof.
  intros Ho i x p Hi Hx Hp.
  destruct i as [|i]; [lia|]. simpl in Hx.
  destruct ((S i - 1) / 2)%nat as [|k] eqn:E; simpl in Hp.
  - injection Hp as <-. rewrite above_set_quantity.
    eapply (Ho (S i)); [lia | done | by rewrite E].
  - eapply (Ho (S i)); [lia | done | by rewrite E].
Qed.

Lemma match_step_ordered b order now st st' :
  match_step b order now st = Some st' ->
  Forall priced (ms_heap st) ->
  heapOrdered (opposingComparator (side order)) (ms_heap st) ->
  heapOrdered (opposingComparator (side order)) (ms_heap st').
Proof.
  intros (best & rest & Hh & _ & _ & _ & _ & Hcase)%match_step_inv HF Ho.
  rewrite Hh in HF, Ho.
  apply (ordered_refill _ _ _
    (roundN (sub (quantity best) (tradedQty b (ms_remainder st) best))
       (quantityPrecision b))) in Ho.
  destruct Hcase as [(_ & -> & _) | (_ & -> & _)]; [|done].
  eapply extractTop_ordered;
    eauto using opposing_asym, opposing_lt_trans, opposing_le_trans.
  apply Forall_cons in HF as [Hb Hr]. by constructor.
Qed.

(** *** Quantities *)

(** On finite quantities a turn computes with their values. *)
Lemma tradedQty_fin b remainder best :
  isFin (quantity remainder) -> isFin (quantity best) ->
  tradedQty b remainder best
  = Fin (round (Qmin (quantityOf remainder) (quantityOf best))
           (quantityPrecision b)).
Proof.
  unfold tradedQty, quantityOf.
  by destruct (quantity remainder), (quantity best).
Qed.

Lemma fill_fin b o q :
  isFin (quantity o) ->
  quantity (fill b o (Fin q))
  = Fin (round (quantityOf o - q) (quantityPrecision b)).
Proof. unfold fill, quantityOf. simpl. by destruct (quantity o). Qed.

Lemma tradedQty_all b remainder best :
  isFin (quantity remainder) -> isFin (quantity best) ->
  onGrid (quantityPrecision b) (quantityOf remainder) ->
  (quantityOf remainder <= quantityOf best)%Q ->
  (fin (tradedQty b remainder best) == quantityOf remainder)%Q.
Proof.
  intros Hr Hb Hg Hle. rewrite tradedQty_fin by done. cbn [fin].
  rewrite (round_comp _ _ _ (Q.min_l _ _ Hle)). exact Hg.
Qed.

Lemma tradedQty_top b remainder best :
  isFin (quantity remainder) -> isFin (quantity best) ->
  onGrid (quantityPrecision b) (quantityOf best) ->
  (quantityOf best <= quantityOf remainder)%Q ->
  (fin (tradedQty b remainder best) == quantityOf best)%Q.
Proof.
  intros Hr Hb Hg Hle. rewrite tradedQty_fin by done. cbn [fin].
  rewrite (round_comp _ _ _ (Q.min_r _ _ Hle)). exact Hg.
Qed.

Lemma round_minus_self x y d : (x == y)%Q -> (round (y - x) d == 0)%Q.
Proof.
  intros E. assert (y - x == 0)%Q as E0 by lra.
  rewrite (round_comp _ _ d E0). apply round_0.
Qed.

Lemma roundN_settled x d : settled d (roundN x d).
Proof. destruct x; [apply round_idem | done..]. Qed.

Lemma fill_settled b o q :
  settled (quantityPrecision b) (quantity (fill b o q)).
Proof. apply roundN_settled. Qed.

Lemma fill_onGrid b o q :
  onGrid (quantityPrecision b) (quantityOf (fill b o q)).
Proof.
  pose proof (fill_settled b o q) as H. unfold quantityOf.
  destruct (quantity (fill b o q)); [done | apply round_0..].
Qed.

Lemma match_step_remainder b order now st st' :
  match_step b order now st = Some st' ->
  settled (quantityPrecision b) (quantity (ms_remainder st'))
  /\ exists q, ms_remainder st' = set_quantity (ms_remainder st) q.
Proof.
  intros (best & rest & _ & _ & _ & _ & -> & _)%match_step_inv.
  split; [apply fill_settled | by eexists].
Qed.

(** With finite quantities on both sides the remainder stays finite. *)
Lemma match_step_finite b order now st st' :
  match_step b order now st = Some st' ->
  isFin (quantity (ms_remainder st)) ->
  Forall (fun o => isFin (quantity o)) (ms_heap st) ->
  isFin (quantity (ms_remainder st'))
  /\ onGrid (quantityPrecision b) (quantityOf (ms_remainder st')).
Proof.
  intros (best & rest & Hh & _ & _ & _ & -> & _)%match_step_inv Hr HF.
  rewrite Hh in HF. apply Forall_cons in HF as [Hb _].
  split; [|apply fill_onGrid].
  rewrite tradedQty_fin, fill_fin by done. done.
Qed.

Lemma healthy_finite qp d :
  Forall (healthy qp) d -> Forall (fun o => isFin (quantity o)) d.
Proof. intros H. eapply Forall_impl; [exact H|]. by intros o [? _]. Qed.

Lemma match_step_healthy b order now st st' :
  match_step b order now st = Some st' ->
  isFin (quantity (ms_remainder st)) ->
  onGrid (quantityPrecision b) (quantityOf (ms_remainder st)) ->
  Forall (healthy (quantityPrecision b)) (ms_heap st) ->
  Forall (healthy (quantityPrecision b)) (ms_heap st').
Proof.
  intros (best & rest & Hh & Hcase)%match_step_heap Hr Hg HF.
  rewrite Hh in HF. apply Forall_cons in HF as [(Hb & Hpos & Hbg & Hst) Hrest].
  destruct Hcase as [[_ ->] | [Hz ->]]; [done|].
  constructor; [|done].
  pose proof (tradedQty_fin b (ms_remainder st) best Hr Hb) as Et.
  rewrite Et in Hz |- *.
  pose proof (fill_fin b best
    (round (Qmin (quantityOf (ms_remainder st)) (quantityOf best))
       (quantityPrecision b)) Hb) as Ef.
  rewrite Ef in Hz. apply eqb_fin_false in Hz.
  assert (quantityOf (fill b best
            (Fin (round (Qmin (quantityOf (ms_remainder st)) (quantityOf best))
                    (quantityPrecision b))))
          = round (quantityOf best
                   - round (Qmin (quantityOf (ms_remainder st))
                              (quantityOf best)) (quantityPrecision b))
              (quantityPrecision b)) as Eq
    by (unfold quantityOf at 1; by rewrite Ef).
  unfold healthy. rewrite Eq, Ef. cbn [isFin].
  split_and!; [done| |apply round_idem|done].
  destruct (Qlt_le_dec (quantityOf best) (quantityOf (ms_remainder st)))
    as [Hlt|Hle].
  - exfalso. apply Hz. apply round_minus_self.
    rewrite (round_comp _ _ _ (Q.min_r _ _ (Qlt_le_weak _ _ Hlt))).
    exact Hbg.
  - assert (round (Qmin (quantityOf (ms_remainder st)) (quantityOf best))
              (quantityPrecision b) == quantityOf (ms_remainder st))%Q as E
      by (rewrite (round_comp _ _ _ (Q.min_l _ _ Hle)); exact Hg).
    assert (0 <= round (quantityOf best
                 - round (Qmin (quantityOf (ms_remainder st)) (quantityOf best))
                     (quantityPrecision b))
                   (quantityPrecision b))%Q as Hn
      by (apply round_nonneg; lra).
    destruct (Qlt_le_dec 0
      (round (quantityOf best
              - round (Qmin (quantityOf (ms_remainder st)) (quantityOf best))
                  (quantityPrecision b))
         (quantityPrecision b))) as [?|Hle0]; [done|].
    exfalso. apply Hz. lra.
Qed.

(** *** Termination *)

Lemma weight_bounds qp o : (1 <= weight qp o <= 2)%nat.
Proof. unfold weight. repeat case_match; lia. Qed.

Lemma weight_fin qp o q :
  quantity o = Fin q -> onGrid qp q <-> weight qp o = 1%nat.
Proof.
  intros Eq. unfold weight, onGrid. rewrite Eq.
  destruct (Qeq_bool _ _) eqn:E.
  - apply Qeq_bool_iff in E. tauto.
  - apply Qeq_bool_false in E. split; [tauto | lia].
Qed.

(** The top after a decrement by a rounded quantity [round x]: spent
    when [x] was on the grid, and on the grid in any case. *)
Lemma weight_refill qp o x :
  quantity o = Fin x ->
  eqb (Fin (round (x - round x qp) qp)) (Fin 0) = false ->
  (weight qp (set_quantity o (Fin (round (x - round x qp) qp)))
   < weight qp o)%nat.
Proof.
  intros Eo Hz. apply eqb_fin_false in Hz.
  assert (weight qp (set_quantity o (Fin (round (x - round x qp) qp)))
          = 1%nat) as ->
    by (apply (weight_fin qp (set_quantity o _) _ eq_refl), round_idem).
  pose proof (weight_bounds qp o).
  destruct (decide (weight qp o = 1%nat)) as [E|E]; [|lia].
  exfalso. apply Hz. apply round_minus_self.
  by apply (weight_fin _ _ _ Eo).
Qed.

(** A turn leaves nothing to match or makes the heap lighter, whatever
    the quantities are. *)
Lemma match_step_measure b order now st st' :
  match_step b order now st = Some st' ->
  settled (quantityPrecision b) (quantity (ms_remainder st)) ->
  ltb (Fin 0) (quantity (ms_remainder st')) = false
  \/ (sum_list_with (weight (quantityPrecision b)) (ms_heap st')
      < sum_list_with (weight (quantityPrecision b)) (ms_heap st))%nat.
Proof.
  intros Hstep Hg.
  pose proof Hstep as (best & rest & Hh & Hcase)%match_step_heap.
  pose proof Hstep
    as (best' & rest' & Hh' & Hpos & _ & _ & Hrem & _)%match_step_inv.
  rewrite Hh in Hh'. injection Hh' as <- <-.
  rewrite Hh. simpl.
  pose proof (weight_bounds (quantityPrecision b) best) as Hw.
  destruct Hcase as [[_ ->] | [Hz ->]]; [right; lia|].
  rewrite Hrem. unfold fill, tradedQty in *.
  cbn [quantity set_quantity sum_list_with] in *.
  set (qp := quantityPrecision b) in *.
  destruct (quantity (ms_remainder st)) as [q| | |] eqn:Er; try done;
    destruct (quantity best) as [x| | |] eqn:Eb;
    cbn [min sub roundN] in *; try (by left).
  - (* finite against finite *)
    apply ltb_fin in Hpos.
    destruct (Qlt_le_dec x q) as [Hlt|Hle].
    + right.
      assert (round (Qmin q x) qp = round x qp) as E.
      { unfold Qmin, GenericMinMax.gmin.
        destruct (q ?= x)%Q eqn:Ec; try done.
        - apply Qeq_alt in Ec. lra.
        - apply Qlt_alt in Ec. lra. }
      rewrite E in *.
      pose proof (weight_refill qp best x Eb Hz). lia.
    + left. apply ltb_fin_ge.
      assert (round (Qmin q x) qp == q)%Q as E
        by (rewrite (round_comp _ _ _ (Q.min_l _ _ Hle)); exact Hg).
      assert (round (q - round (Qmin q x) qp) qp == 0)%Q as ->
        by (by apply round_minus_self).
      lra.
  - (* finite against +Infinity *)
    left. apply ltb_fin_ge.
    assert (round (q - round q qp) qp == 0)%Q as ->
      by (by apply round_minus_self).
    lra.
  - (* finite against -Infinity *)
    right.
    assert (weight qp best = 2%nat) as Ew by (unfold weight; by rewrite Eb).
    change (weight qp (set_quantity best NaN)) with 1%nat. lia.
  - (* +Infinity against finite *)
    right. pose proof (weight_refill qp best x Eb Hz). lia.
  - (* +Infinity against -Infinity *)
    right.
    assert (weight qp best = 2%nat) as Ew by (unfold weight; by rewrite Eb).
    change (weight qp (set_quantity best NaN)) with 1%nat. lia.
Qed.

Lemma match_loop_ind (I : MatchState -> Prop) b order now :
  (forall st st', I st -> match_step b order now st = Some st' -> I st') ->
  forall fuel st, I st -> I (match_loop b order now fuel st).
Proof.
  intros Hstep. induction fuel as [|fuel IH]; intros st Hst; simpl; [done|].
  destruct (match_step b order now st) as [st'|] eqn:E; [|done].
  eauto.
Qed.

(** With the fuel of [match_fuel] the loop is left through its own
    exits. *)
Lemma match_loop_exits b order now fuel st :
  settled (quantityPrecision b) (quantity (ms_remainder st)) ->
  (sum_list_with (weight (quantityPrecision b)) (ms_heap st) < fuel)%nat ->
  match_step b order now (match_loop b order now fuel st) = None.
Proof.
  revert st. induction fuel as [|fuel IH]; intros st Hg Hf; [lia|].
  simpl. destruct (match_step b order now st) as [st'|] eqn:E; [|done].
  destruct (match_step_measure _ _ _ _ _ E Hg) as [Hz|Hm].
  - assert (match_step b order now st' = None) as Hn
      by (apply match_step_None; by left).
    destruct fuel; simpl; [done|]. by rewrite Hn.
  - apply IH; [|lia]. by apply (match_step_remainder _ _ _ _ _ E).
Qed.

Lemma weight_sum_bound qp (d : list Order) :
  (sum_list_with (weight qp) d <= 2 * length d)%nat.
Proof.
  induction d as [|o d IH]; simpl; [lia|].
  pose proof (weight_bounds qp o). lia.
Qed.

Lemma match_fuel_enough b order now heap st :
  ms_heap st = heap ->
  settled (quantityPrecision b) (quantity (ms_remainder st)) ->
  match_step b order now (match_loop b order now (match_fuel heap) st) = None.
Proof.
  intros <- Hg. apply match_loop_exits; [done|]. unfold match_fuel.
  pose proof (weight_sum_bound (quantityPrecision b) (ms_heap st)). lia.
Qed.

End MatchFacts.

(** * addOrder, seen from the state the loop ends in *)

Module BookFacts.
Import NumFacts Heap HeapFacts ComparatorFacts MatchFacts.

Lemma addOrder_eq b order now :
  validateOrder order = None ->
  addOrder b order now =
    let n := normalise b order now in
    let st := lastState b order now in
    let b1 := with_trades (with_opposing b (side n) (ms_heap st))
                (trades b ++ ms_trades st) in
    let fired := ms_emitted st
                 ++ flat_map (fun t => emit b1 TRADE (OfTrade t)) (ms_trades st) in
    if ltb (Fin 0) (quantity (ms_remainder st)) then
      let r := set_status (ms_remainder st)
                 (if Nat.ltb 0 (length (ms_trades st))
                  then PARTIALLY_FILLED else OPEN) in
      match type (ms_remainder st) with
      | LIMIT =>
          (insertOrder b1 r,
           fired ++ emit (insertOrder b1 r) ORDER_ADDED (OfOrder r),
           Returned {| r_trades := ms_trades st; r_remainder := Some r;
                       r_status := status r |})
      | MARKET =>
          (b1, fired,
           Returned {| r_trades := ms_trades st; r_remainder := Some r;
                       r_status := status r |})
      end
    else
      (b1, fired,
       Returned {| r_trades := ms_trades st; r_remainder := None;
                   r_status := FILLED |}).
Proof.
  intros Hv. unfold addOrder, match_. rewrite Hv. cbv zeta.
  fold (firstState b order now). fold (lastState b order now).
  destruct (ltb (Fin 0) (quantity (ms_remainder (lastState b order now))));
    [|destruct (side (normalise b order now)); reflexivity].
  cbn [type set_status].
  destruct (type (ms_remainder (lastState b order now)));
    destruct (side (normalise b order now)); reflexivity.
Qed.

Lemma addOrder_invalid b order now message :
  validateOrder order = Some message ->
  addOrder b order now = (b, [], Threw message).
Proof. intros Hv. unfold addOrder. by rewrite Hv. Qed.

Lemma normalise_type b order now :
  type (normalise b order now)
  = if isMarket (raw_type order) then MARKET else LIMIT.
Proof.
  unfold normalise, isMarket, OrderType_of. cbn [type].
  destruct (raw_type order) as [s|]; [|done]. simpl.
  destruct (String.eqb_spec s "limit") as [->|]; [done|].
  by destruct (String.eqb_spec s "market").
Qed.

Lemma normalise_price b order now :
  price (normalise b order now)
  = if isMarket (raw_type order) then None
    else Some (roundN (toNumber (raw_price order)) (pricePrecision b)).
Proof. reflexivity. Qed.

Lemma normalise_limit_priced b order now :
  finitePrice order ->
  type (normalise b order now) = LIMIT -> priced (normalise b order now).
Proof.
  intros Hf. rewrite normalise_type. unfold priced. rewrite normalise_price.
  destruct Hf as [->|Hf]; [done|].
  destruct (isMarket (raw_type order)); [done|]. intros _.
  destruct (toNumber (raw_price order)); [by eexists | done..].
Qed.

Lemma normalise_quantity_fin b order now :
  finiteQuantity order ->
  isFin (quantity (normalise b order now))
  /\ onGrid (quantityPrecision b) (quantityOf (normalise b order now)).
Proof.
  unfold finiteQuantity, quantityOf. cbn [normalise quantity].
  destruct (raw_quantity order); [|done..]. intros _.
  split; [done | apply round_idem].
Qed.

(** The loop of [#match] is left through its own exits, whatever the
    numbers of the order and of the resting orders are. *)
Lemma lastState_exits b order now :
  match_step b (normalise b order now) now (lastState b order now) = None.
Proof.
  apply match_fuel_enough; [done|]. apply roundN_settled.
Qed.

Lemma lastState_remainder b order now :
  settled (quantityPrecision b)
    (quantity (ms_remainder (lastState b order now)))
  /\ exists q, ms_remainder (lastState b order now)
               = set_quantity (normalise b order now) q.
Proof.
  apply (match_loop_ind
    (fun st => settled (quantityPrecision b) (quantity (ms_remainder st))
               /\ exists q, ms_remainder st
                            = set_quantity (normalise b order now) q)).
  - intros st st' [_ [q Hq]] Hstep.
    destruct (match_step_remainder _ _ _ _ _ Hstep) as [Hg [q' Hq']].
    split; [done|]. exists q'. by rewrite Hq', Hq.
  - split; [apply roundN_settled|]. by eexists.
Qed.

Lemma lastState_Forall P b order now :
  blind P ->
  Forall P (opposingHeap b (side (normalise b order now))) ->
  Forall P (ms_heap (lastState b order now)).
Proof.
  intros HP HF.
  apply (match_loop_ind (fun st => Forall P (ms_heap st))); [|done].
  intros st st' H Hstep. by eapply match_step_Forall.
Qed.

Lemma lastState_ordered b order now :
  let s := side (normalise b order now) in
  Forall priced (opposingHeap b s) ->
  heapOrdered (opposingComparator s) (opposingHeap b s) ->
  heapOrdered (opposingComparator s) (ms_heap (lastState b order now)).
Proof.
  intros s HF Ho.
  apply (match_loop_ind
    (fun st => Forall priced (ms_heap st)
               /\ heapOrdered (opposingComparator s) (ms_heap st)));
    [|done].
  intros st st' [H1 H2] Hstep. split.
  - by eapply match_step_Forall; eauto using priced_blind.
  - by eapply match_step_ordered.
Qed.

Lemma lastState_finite b order now :
  finiteQuantity order ->
  Forall (healthy (quantityPrecision b))
    (opposingHeap b (side (normalise b order now))) ->
  (isFin (quantity (ms_remainder (lastState b order now)))
   /\ onGrid (quantityPrecision b)
        (quantityOf (ms_remainder (lastState b order now))))
  /\ Forall (healthy (quantityPrecision b)) (ms_heap (lastState b order now)).
Proof.
  intros Hf HF.
  apply (match_loop_ind
    (fun st => (isFin (quantity (ms_remainder st))
                /\ onGrid (quantityPrecision b) (quantityOf (ms_remainder st)))
               /\ Forall (healthy (quantityPrecision b)) (ms_heap st)));
    [|split; [by apply normalise_quantity_fin | done]].
  intros st st' [[H0 H1] H2] Hstep. split.
  - apply (match_step_finite _ _ _ _ _ Hstep); [done|].
    by eapply healthy_finite.
  - by eapply match_step_healthy.
Qed.

Lemma lastState_healthy b order now :
  finiteQuantity order ->
  Forall (healthy (quantityPrecision b))
    (opposingHeap b (side (normalise b order now))) ->
  Forall (healthy (quantityPrecision b)) (ms_heap (lastState b order now)).
Proof. intros Hf HF. by apply lastState_finite. Qed.

(** *** The book stays sound *)

(** A limit buy that leaves the loop unfilled is priced under every
    ask still resting. *)
Lemma buy_exit_clear b n now st :
  type n = LIMIT -> side n = BUY ->
  match_step b n now st = None ->
  ltb (Fin 0) (quantity (ms_remainder st)) = true ->
  priced (ms_remainder st) ->
  Forall priced (ms_heap st) ->
  heapOrdered askComparator (ms_heap st) ->
  Forall (below (price (ms_remainder st))) (ms_heap st).
Proof.
  intros Ht Hs Hexit Hq Hpr HF Ho.
  apply match_step_None in Hexit as [?|[->|(best & rest & Hh & Hp)]];
    [congruence | constructor |].
  unfold priceMatches in Hp. rewrite Ht, Hs in Hp.
  assert (priced best) as Hb by (rewrite Hh in HF; by inversion HF).
  rewrite (priced_price _ Hpr), (priced_price _ Hb) in Hp.
  apply leb_fin_gt in Hp.
  apply Forall_forall. intros y Hy. unfold below.
  rewrite (priced_price _ Hpr). cbn [toNumber fin].
  assert (priced y) as Hpy by (by eapply (proj1 (Forall_forall _ _) HF)).
  assert (above askComparator y best = false) as Ha.
  { eapply (top_minimal askComparator priced ask_asym ask_le_trans
              (ms_heap st) best); eauto. by rewrite Hh. }
  rewrite (not_above _ _ _ _ (ask_above y best Hpy Hb)) in Ha.
  destruct (Qlt_le_dec (priceOf y) (priceOf best));
    [tauto | lra].
Qed.

(** A limit sell that leaves the loop unfilled is priced over every
    bid still resting. *)
Lemma sell_exit_clear b n now st :
  type n = LIMIT -> side n = SELL ->
  match_step b n now st = None ->
  ltb (Fin 0) (quantity (ms_remainder st)) = true ->
  priced (ms_remainder st) ->
  Forall priced (ms_heap st) ->
  heapOrdered bidComparator (ms_heap st) ->
  Forall (over (price (ms_remainder st))) (ms_heap st).
Proof.
  intros Ht Hs Hexit Hq Hpr HF Ho.
  apply match_step_None in Hexit as [?|[->|(best & rest & Hh & Hp)]];
    [congruence | constructor |].
  unfold priceMatches in Hp. rewrite Ht, Hs in Hp.
  assert (priced best) as Hb by (rewrite Hh in HF; by inversion HF).
  rewrite (priced_price _ Hpr), (priced_price _ Hb) in Hp.
  apply leb_fin_gt in Hp.
  apply Forall_forall. intros y Hy. unfold over.
  rewrite (priced_price _ Hpr). cbn [toNumber fin].
  assert (priced y) as Hpy by (by eapply (proj1 (Forall_forall _ _) HF)).
  assert (above bidComparator y best = false) as Ha.
  { eapply (top_minimal bidComparator priced bid_asym bid_le_trans
              (ms_heap st) best); eauto. by rewrite Hh. }
  rewrite (not_above _ _ _ _ (bid_above y best Hpy Hb)) in Ha.
  destruct (Qlt_le_dec (priceOf best) (priceOf y));
    [tauto | lra].
Qed.

Lemma below_blind p : blind (below p).
Proof. by intros o q. Qed.

Lemma over_blind p : blind (over p).
Proof. by intros o q. Qed.

Lemma apart_Forall_below bs as_ :
  apart bs as_ <-> Forall (fun y => Forall (fun x => below (price x) y) bs) as_.
Proof.
  unfold apart, below, priceOf. rewrite Forall_forall.
  setoid_rewrite Forall_forall. naive_solver.
Qed.

Lemma apart_Forall_over bs as_ :
  apart bs as_ <-> Forall (fun x => Forall (fun y => over (price y) x) as_) bs.
Proof.
  unfold apart, over, priceOf. rewrite Forall_forall.
  setoid_rewrite Forall_forall. naive_solver.
Qed.

Lemma addOrder_sound b order now :
  finitePrice order ->
  sound b -> sound (addOrder b order now).1.1.
Proof.
  intros Hfin (Hob & Hoa & Hpb & Hpa & Hap).
  destruct (validateOrder order) as [m|] eqn:Hv.
  { by rewrite (addOrder_invalid _ _ _ _ Hv). }
  rewrite (addOrder_eq _ _ _ Hv). cbv zeta.
  pose proof (lastState_exits b order now) as Hexit.
  destruct (lastState_remainder b order now) as [Hg [q Hq]].
  pose proof (lastState_ordered b order now) as Hord.
  pose proof (fun P => lastState_Forall P b order now) as HFor.
  pose proof (normalise_limit_priced b order now Hfin) as Hlp.
  set (n := normalise b order now) in *.
  set (st := lastState b order now) in *.
  cbv zeta in Hord.
  assert (type (ms_remainder st) = type n) as Ht by by rewrite Hq.
  assert (price (ms_remainder st) = price n) as Hp by by rewrite Hq.
  destruct (side n) eqn:Hs; cbn [opposingHeap opposingComparator] in *.
  - (* a buy: the asks were matched against *)
    specialize (Hord Hpa Hoa).
    pose proof (HFor _ priced_blind Hpa) as Hpr.
    assert (apart (bids b) (ms_heap st)) as Hap'.
    { apply apart_Forall_below. apply HFor.
      - intros o q' H. eapply Forall_impl; [exact H|]. by intros x.
      - by apply apart_Forall_below. }
    assert (sound (with_trades (with_asks b (ms_heap st))
                     (trades b ++ ms_trades st))) as Hs1
      by (by split_and!).
    destruct (ltb (Fin 0) (quantity (ms_remainder st))) eqn:Hq0; [|done].
    rewrite Ht. destruct (type n) eqn:Htn; [|done].
    assert (priced (ms_remainder st)) as Hrp
      by (unfold priced; rewrite Hp; by apply Hlp).
    cbn [fst]. unfold insertOrder.
    assert (side (set_status (ms_remainder st)
              (if (0 <? length (ms_trades st))%nat
               then PARTIALLY_FILLED else OPEN)) = BUY) as ->
      by (by rewrite Hq).
    set (r := set_status _ _).
    assert (priced r) as Hr
      by (unfold priced, r; cbn [price set_status]; rewrite Hp; by apply Hlp).
    pose proof (insert_perm bidComparator r (bids b)) as Hperm.
    split_and!; cbn [bids asks with_bids with_trades with_asks]; try done.
    + by apply (insert_ordered bidComparator priced bid_asym bid_lt_trans
                  bid_le_trans).
    + rewrite Hperm. by constructor.
    + intros x y Hx Hy. rewrite Hperm in Hx.
      apply elem_of_cons in Hx as [->|Hx]; [|by apply Hap'].
      pose proof (buy_exit_clear b n now st Htn Hs Hexit Hq0 Hrp Hpr Hord)
        as Hc.
      rewrite Forall_forall in Hc. apply Hc in Hy. exact Hy.
  - (* a sell: the bids were matched against *)
    specialize (Hord Hpb Hob).
    pose proof (HFor _ priced_blind Hpb) as Hpr.
    assert (apart (ms_heap st) (asks b)) as Hap'.
    { apply apart_Forall_over. apply HFor.
      - intros o q' H. eapply Forall_impl; [exact H|]. by intros x.
      - by apply apart_Forall_over. }
    assert (sound (with_trades (with_bids b (ms_heap st))
                     (trades b ++ ms_trades st))) as Hs1
      by (by split_and!).
    destruct (ltb (Fin 0) (quantity (ms_remainder st))) eqn:Hq0; [|done].
    rewrite Ht. destruct (type n) eqn:Htn; [|done].
    assert (priced (ms_remainder st)) as Hrp
      by (unfold priced; rewrite Hp; by apply Hlp).
    cbn [fst]. unfold insertOrder.
    assert (side (set_status (ms_remainder st)
              (if (0 <? length (ms_trades st))%nat
               then PARTIALLY_FILLED else OPEN)) = SELL) as ->
      by (by rewrite Hq).
    set (r := set_status _ _).
    assert (priced r) as Hr
      by (unfold priced, r; cbn [price set_status]; rewrite Hp; by apply Hlp).
    pose proof (insert_perm askComparator r (asks b)) as Hperm.
    split_and!; cbn [bids asks with_bids with_trades with_asks]; try done.
    + by apply (insert_ordered askComparator priced ask_asym ask_lt_trans
                  ask_le_trans).
    + rewrite Hperm. by constructor.
    + intros x y Hx Hy. rewrite Hperm in Hy.
      apply elem_of_cons in Hy as [->|Hy]; [|by apply Hap'].
      pose proof (sell_exit_clear b n now st Htn Hs Hexit Hq0 Hrp Hpr Hord)
        as Hc.
      rewrite Forall_forall in Hc. apply Hc in Hx. exact Hx.
Qed.

(** *** cancelOrder and loadSnapshot *)

Lemma removeById_sub c i d x :
  x ∈ (removeById c i d).2 -> x ∈ d.
Proof.
  destruct (removeById c i d).1 as [o|] eqn:E.
  - destruct (removeById_perm c i d o E) as [_ Hp].
    intros Hx. rewrite <- Hp. by apply elem_of_cons; right.
  - by rewrite (removeById_None c i d E).
Qed.

Lemma removeById_Forall P c i d :
  Forall P d -> Forall P (removeById c i d).2.
Proof.
  rewrite !Forall_forall. intros H x Hx. apply H. by eapply removeById_sub.
Qed.

Lemma cancelOrder_book b i :
  (cancelOrder b i).1.1 =
    match (removeById bidComparator i (bids b)).1 with
    | Some _ => with_bids b (removeById bidComparator i (bids b)).2
    | None => with_asks b (removeById askComparator i (asks b)).2
    end.
Proof.
  unfold cancelOrder.
  destruct (removeById bidComparator i (bids b)) as [[o|] h]; [done|].
  by destruct (removeById askComparator i (asks b)) as [[o|] h'].
Qed.

Lemma cancelOrder_sound b i : sound b -> sound (cancelOrder b i).1.1.
Proof.
  intros (Hob & Hoa & Hpb & Hpa & Hap). rewrite cancelOrder_book.
  destruct (removeById bidComparator i (bids b)).1;
    split_and!; cbn [bids asks with_bids with_asks]; try done.
  - by apply (removeById_ordered bidComparator priced bid_asym bid_lt_trans
                bid_le_trans).
  - by apply removeById_Forall.
  - intros x y Hx Hy. apply Hap; [by eapply removeById_sub | done].
  - by apply (removeById_ordered askComparator priced ask_asym ask_lt_trans
                ask_le_trans).
  - by apply removeById_Forall.
  - intros x y Hx Hy. apply Hap; [done | by eapply removeById_sub].
Qed.

Lemma rebuild_perm c l : rebuild c l ≡ₚ l.
Proof. unfold rebuild. by rewrite fold_insert_perm. Qed.

Lemma loadSnapshot_book b s :
  (loadSnapshot b s).1 =
    if negb (String.eqb (s_pair s) (pair b)) then b
    else with_asks (with_bids b (rebuild bidComparator (s_bids s)))
           (rebuild askComparator (s_asks s)).
Proof. unfold loadSnapshot. by case_match. Qed.

Lemma loadSnapshot_sound b s :
  sound b -> soundSnapshot s -> sound (loadSnapshot b s).1.
Proof.
  intros Hb (Hpb & Hpa & Hap). rewrite loadSnapshot_book.
  case_match; [done|].
  split_and!; cbn [bids asks with_bids with_asks].
  - apply (fold_insert_ordered bidComparator priced bid_asym bid_lt_trans
             bid_le_trans); [done..|]. apply ordered_nil.
  - apply (fold_insert_ordered askComparator priced ask_asym ask_lt_trans
             ask_le_trans); [done..|]. apply ordered_nil.
  - by rewrite rebuild_perm.
  - by rewrite rebuild_perm.
  - intros x y. rewrite !rebuild_perm. apply Hap.
Qed.

Lemma newOrderBook_sound p pp qp h b :
  newOrderBook p pp qp h = Returned b -> sound b.
Proof.
  unfold newOrderBook. case_match; [done|]. intros [= <-].
  split_and!; cbn; try done; try apply ordered_nil.
  intros x y Hx. by apply elem_of_nil in Hx.
Qed.

(** *** Quantities and statuses of resting orders *)

Lemma addOrder_hale b order now :
  finiteQuantity order ->
  hale b -> hale (addOrder b order now).1.1.
Proof.
  intros Hfin [Hb Ha].
  destruct (validateOrder order) as [m|] eqn:Hv.
  { by rewrite (addOrder_invalid _ _ _ _ Hv). }
  rewrite (addOrder_eq _ _ _ Hv). cbv zeta.
  destruct (lastState_remainder b order now) as [_ [q Hq]].
  pose proof (lastState_finite b order now Hfin) as Hh.
  set (n := normalise b order now) in *.
  set (st := lastState b order now) in *.
  assert ((isFin (quantity (ms_remainder st))
           /\ onGrid (quantityPrecision b) (quantityOf (ms_remainder st)))
          /\ Forall (healthy (quantityPrecision b)) (ms_heap st))
    as [[Hrf Hg] Hh'].
  { apply Hh. by destruct (side n). }
  assert (hale (with_trades (with_opposing b (side n) (ms_heap st))
                  (trades b ++ ms_trades st))) as H1.
  { destruct (side n); split;
      cbn [bids asks with_bids with_asks with_trades with_opposing
           quantityPrecision]; auto. }
  destruct (ltb (Fin 0) (quantity (ms_remainder st))) eqn:Hq0; [|done].
  destruct (type (ms_remainder st)); [|done].
  cbn [fst]. set (r := set_status _ _).
  assert (healthy (quantityPrecision b) r) as Hr.
  { split_and!; [done | | done |].
    - rewrite (isFin_fin _ Hrf) in Hq0. by apply ltb_fin in Hq0.
    - unfold r. cbn [status set_status]. case_match; auto. }
  assert (side r = side n) as Hsr
    by (unfold r; cbn [side set_status]; by rewrite Hq).
  destruct H1 as [H1 H2]. unfold insertOrder. rewrite Hsr.
  destruct (side n); split;
    cbn [bids asks with_bids with_asks with_trades with_opposing
         quantityPrecision] in *; try done.
  - rewrite insert_perm. by constructor.
  - rewrite insert_perm. by constructor.
Qed.

Lemma healthy_resting qp o :
  healthy qp o ->
  ltb (Fin 0) (quantity o) = true
  /\ (status o = OPEN \/ status o = PARTIALLY_FILLED).
Proof.
  intros (Hf & Hq & _ & Hst). split; [|done].
  rewrite (isFin_fin _ Hf). by apply ltb_fin.
Qed.

Lemma cancelOrder_hale b i : hale b -> hale (cancelOrder b i).1.1.
Proof.
  intros [Hb Ha]. rewrite cancelOrder_book.
  destruct (removeById bidComparator i (bids b)).1; split;
    cbn [bids asks with_bids with_asks quantityPrecision]; try done;
    by apply removeById_Forall.
Qed.

Lemma loadSnapshot_hale b s :
  hale b -> haleSnapshot (quantityPrecision b) s -> hale (loadSnapshot b s).1.
Proof.
  intros Hb [H1 H2]. rewrite loadSnapshot_book. case_match; [done|].
  split; cbn [bids asks with_bids with_asks quantityPrecision];
    by rewrite rebuild_perm.
Qed.

Lemma newOrderBook_hale p pp qp h b :
  newOrderBook p pp qp h = Returned b -> hale b.
Proof.
  unfold newOrderBook. case_match; [done|]. intros [= <-]. by split.
Qed.

(** *** The orders peeked and the trades made *)

Lemma peek_cons (best : Order) rest : peek (best :: rest) = Some best.
Proof. reflexivity. Qed.

(** Turn by turn, the trade carries the price and the id of the order
    peeked in that turn. *)
Lemma trades_follow_bests b n now fuel st :
  exists tl,
    ms_trades (match_loop b n now fuel st) = ms_trades st ++ tl
    /\ Forall2 (fun t best => t_price t = price best
                              /\ restingId (side n) t = id best)
         tl (match_bests b n now fuel st).
Proof.
  revert st. induction fuel as [|fuel IH]; intros st; simpl.
  { exists []. by rewrite app_nil_r. }
  destruct (match_step b n now st) as [st'|] eqn:E;
    [|exists []; by rewrite app_nil_r].
  pose proof E as (best & rest & Hh & _ & _ & Ht & _)%match_step_inv.
  rewrite Hh, peek_cons. destruct (IH st') as (tl & Htl & HF).
  eexists (_ :: tl). split.
  - rewrite Htl, Ht, <- app_assoc. reflexivity.
  - constructor; [|done]. split; [done|].
    unfold restingId, makeTrade. by destruct (side n).
Qed.




(** The trades of a call pair off with the orders peeked. *)
Lemma trade_pairs b order now b' fired r :
  addOrder b order now = (b', fired, Returned r) ->
  Forall2 (fun t best => t_price t = price best
                         /\ restingId (side (normalise b order now)) t = id best)
    (r_trades r) (peeked b order now).
Proof.
  intros Hadd.
  destruct (validateOrder order) as [m|] eqn:Hv.
  { by rewrite (addOrder_invalid _ _ _ _ Hv) in Hadd. }
  assert (r_trades r = ms_trades (lastState b order now)) as ->.
  { rewrite (addOrder_eq _ _ _ Hv) in Hadd. cbv zeta in Hadd.
    repeat case_match; by injection Hadd as _ _ <-. }
  destruct (trades_follow_bests b (normalise b order now) now
              (match_fuel (opposingHeap b (side (normalise b order now))))
              (firstState b order now)) as (tl & Htl & HF).
  unfold lastState, peeked. by rewrite Htl.
Qed.

(** *** Snapshots *)

Lemma clone_same o : clone o = o.
Proof. by destruct o. Qed.

Lemma map_clone l : map clone l = l.
Proof. induction l as [|o l IH]; simpl; [done|]. by rewrite clone_same, IH. Qed.


(** A snapshot taken from a sound book may be loaded, and one taken
    from a hale book may be loaded into a book of the same quantity
    precision. *)
Lemma getSnapshot_sound b now : sound b -> soundSnapshot (getSnapshot b now).
Proof.
  intros (_ & _ & Hpb & Hpa & Hap). unfold soundSnapshot, getSnapshot, toArray.
  cbn [s_bids s_asks]. by rewrite !map_clone.
Qed.

Lemma getSnapshot_hale b now :
  hale b -> haleSnapshot (quantityPrecision b) (getSnapshot b now).
Proof.
  intros [Hb Ha]. unfold haleSnapshot, getSnapshot, toArray.
  cbn [s_bids s_asks]. by rewrite !map_clone.
Qed.

(** *** Validation *)

(** [x > 0] is false when [x <= 0], and of [NaN]. *)
Lemma notPositive_cases x :
  notPositive x <-> leb x (Fin 0) = true \/ x = NaN.
Proof.
  unfold notPositive. destruct x as [q| | |]; cbn; try naive_solver.
  rewrite Qltb_ge, Qle_bool_iff. naive_solver.
Qed.

Lemma notPositive_quantity x :
  falsy x || leb x (Fin 0) = true <-> notPositive x.
Proof.
  unfold notPositive. destruct x as [q| | |]; cbn; try done.
  rewrite orb_true_iff, Qeq_bool_iff, Qle_bool_iff, Qltb_ge. split.
  - intros [E|?]; [rewrite E; apply Qle_refl | done].
  - auto.
Qed.

(** The checks of [#validateOrder], one by one. *)
Lemma validateOrder_checks order :
  (exists m, validateOrder order = Some m) <->
  (raw_id order = None \/ raw_id order = Some "")
  \/ (forall s, raw_side order <> Some (OrderSide_value s))
  \/ (exists t, raw_type order = Some t /\ t <> ""
                /\ forall ty, t <> OrderType_value ty)
  \/ (raw_type order <> Some (OrderType_value MARKET)
      /\ (raw_price order = None
          \/ exists p, raw_price order = Some p /\ leb p (Fin 0) = true))
  \/ notPositive (raw_quantity order).
Proof.
  unfold validateOrder.
  set (c1 := match raw_id order with
             | Some s => String.eqb s "" | None => true end).
  set (c2 := match raw_side order with
             | Some s => negb (bool_decide (is_Some (OrderSide_of s)))
             | None => true end).
  set (c3 := match raw_type order with
             | Some s => negb (String.eqb s "")
                         && negb (bool_decide (is_Some (OrderType_of s)))
             | None => false end).
  set (c4 := negb (isMarket (raw_type order))
             && match raw_price order with
                | Some p => leb p (Fin 0) | None => true end).
  set (c5 := falsy (raw_quantity order) || leb (raw_quantity order) (Fin 0)).
  assert (c1 = true <-> raw_id order = None \/ raw_id order = Some "") as H1.
  { unfold c1. clear. destruct (raw_id order) as [i|]; [|naive_solver].
    destruct (String.eqb_spec i ""); naive_solver. }
  assert (c2 = true <-> forall s, raw_side order <> Some (OrderSide_value s))
    as H2.
  { unfold c2, OrderSide_of. clear. destruct (raw_side order) as [x|]; [|naive_solver].
    destruct (String.eqb_spec x (OrderSide_value BUY)) as [->|Hb].
    { split; [done|]. intros H. by destruct (H BUY). }
    destruct (String.eqb_spec x (OrderSide_value SELL)) as [->|Hs].
    { split; [done|]. intros H. by destruct (H SELL). }
    split; [|done]. intros _ [] [= ->]; done. }
  assert (c3 = true <-> exists t, raw_type order = Some t /\ t <> ""
                                  /\ forall ty, t <> OrderType_value ty) as H3.
  { unfold c3, OrderType_of. clear. destruct (raw_type order) as [x|]; [|naive_solver].
    destruct (String.eqb_spec x "") as [->|Hne]; [naive_solver|].
    destruct (String.eqb_spec x (OrderType_value LIMIT)) as [->|Hl].
    { split; [done|]. intros (t & [= <-] & _ & H). by destruct (H LIMIT). }
    destruct (String.eqb_spec x (OrderType_value MARKET)) as [->|Hm].
    { split; [done|]. intros (t & [= <-] & _ & H). by destruct (H MARKET). }
    split; [|done]. intros _. exists x. split_and!; [done..|].
    intros [] ->; done. }
  assert (c4 = true <->
          raw_type order <> Some (OrderType_value MARKET)
          /\ (raw_price order = None
              \/ exists p, raw_price order = Some p /\ leb p (Fin 0) = true))
    as H4.
  { unfold c4, isMarket. clear. rewrite andb_true_iff, negb_true_iff.
    assert (match raw_type order with
            | Some s => String.eqb s (OrderType_value MARKET)
            | None => false end = false
            <-> raw_type order <> Some (OrderType_value MARKET)) as ->.
    { destruct (raw_type order) as [x|]; [|naive_solver].
      destruct (String.eqb_spec x (OrderType_value MARKET)); naive_solver. }
    destruct (raw_price order) as [p|]; naive_solver. }
  assert (c5 = true <-> notPositive (raw_quantity order)) as H5
    by apply notPositive_quantity.
  rewrite <- H1, <- H2, <- H3, <- H4, <- H5.
  destruct c1, c2, c3, c4, c5; naive_solver.
Qed.

(** Every order that validation rejects is one of those said to be
    rejected ... *)
Lemma validateOrder_rejects order :
  (exists m, validateOrder order = Some m) -> rejected order.
Proof.
  rewrite validateOrder_checks. unfold rejected.
  intros [?|[?|[?|[[? [?|(p & ? & Hp)]]|?]]]]; auto.
  - do 3 right. left. auto.
  - do 3 right. left. split; [done|]. right. exists p. split; [done|].
    apply notPositive_cases. by left.
Qed.

(** ... and the other way round unless the price is [NaN]. *)
Lemma validateOrder_rejected order :
  raw_price order <> Some NaN ->
  (exists m, validateOrder order = Some m) <-> rejected order.
Proof.
  intros Hn. split; [apply validateOrder_rejects|].
  rewrite validateOrder_checks. unfold rejected.
  intros [?|[?|[?|[[? [?|(p & Hp & Hnp)]]|?]]]]; auto.
  - do 3 right. left. auto.
  - do 3 right. left. split; [done|]. right. exists p. split; [done|].
    apply notPositive_cases in Hnp as [?| ->]; [done | congruence].
Qed.

(** *** Hooks *)

(** The hooks fired inside [#match] are [ORDER_REMOVED] hooks, and the
    trade log they can read is the log as it was before the call. *)
Lemma lastState_emitted b order now :
  Forall (fun e => e_event e = ORDER_REMOVED /\ e_trades e = trades b)
    (ms_emitted (lastState b order now)).
Proof.
  apply (match_loop_ind
    (fun st => Forall (fun e => e_event e = ORDER_REMOVED
                                /\ e_trades e = trades b) (ms_emitted st)));
    [|constructor].
  intros st st' HF (best & rest & _ & _ & _ & _ & _ & Hcase)%match_step_inv.
  destruct Hcase as [(_ & _ & ->) | (_ & _ & ->)]; [|done].
  apply Forall_app. split; [done|]. unfold emit.
  case_match; repeat constructor.
Qed.

(** *** Sequences of public operations *)

Lemma applyRemoteOrder_addOrder b order now :
  applyRemoteOrder b order now = addOrder b order now.
Proof. by destruct order. Qed.

Lemma step_sound b op : sound b -> soundOp op -> sound (step b op).
Proof.
  intros Hb Hop. destruct op as [o n|o n|i|s]; cbn [step soundOp] in *.
  - by apply addOrder_sound.
  - rewrite applyRemoteOrder_addOrder. by apply addOrder_sound.
  - by apply cancelOrder_sound.
  - by apply loadSnapshot_sound.
Qed.

Lemma run_sound b ops : sound b -> Forall soundOp ops -> sound (run b ops).
Proof.
  revert b. induction ops as [|op ops IH]; intros b Hb Hops; [done|].
  apply Forall_cons in Hops as [Hop Hops]. simpl.
  apply IH; [|done]. by apply step_sound.
Qed.

(** Every book built from a new one by the public operations, loading
    sound snapshots only, is sound. *)
Lemma built_sound p pp qp h b ops :
  newOrderBook p pp qp h = Returned b ->
  Forall soundOp ops ->
  sound (run b ops).
Proof.
  intros Hb Hops. apply run_sound; [|done]. by eapply newOrderBook_sound.
Qed.

Lemma sound_uncrossed b : sound b -> uncrossed b.
Proof.
  intros (_ & _ & Hpb & Hpa & Hap) x y Hx Hy.
  apply list_elem_of_lookup_2 in Hx, Hy.
  rewrite Forall_forall in Hpb, Hpa.
  rewrite (priced_price x (Hpb x Hx)), (priced_price y (Hpa y Hy)).
  apply ltb_fin. by apply Hap.
Qed.

Lemma addOrder_quantityPrecision b order now :
  quantityPrecision (addOrder b order now).1.1 = quantityPrecision b.
Proof.
  destruct (validateOrder order) as [m|] eqn:Hv.
  { by rewrite (addOrder_invalid _ _ _ _ Hv). }
  rewrite (addOrder_eq _ _ _ Hv). cbv zeta.
  destruct (ltb _ _); [destruct (type _)|]; cbn [fst];
    unfold insertOrder; try destruct (side (set_status _ _));
    by destruct (side (normalise b order now)).
Qed.

Lemma step_quantityPrecision b op :
  quantityPrecision (step b op) = quantityPrecision b.
Proof.
  destruct op as [o n|o n|i|s]; cbn [step].
  - apply addOrder_quantityPrecision.
  - rewrite applyRemoteOrder_addOrder. apply addOrder_quantityPrecision.
  - rewrite cancelOrder_book. by case_match.
  - rewrite loadSnapshot_book. by case_match.
Qed.

Lemma step_hale b op :
  hale b -> haleOp (quantityPrecision b) op -> hale (step b op).
Proof.
  intros Hb Hop. destruct op as [o n|o n|i|s]; cbn [step haleOp] in *.
  - by apply addOrder_hale.
  - rewrite applyRemoteOrder_addOrder. by apply addOrder_hale.
  - by apply cancelOrder_hale.
  - apply loadSnapshot_hale; [done | by destruct Hop].
Qed.

Lemma run_hale b ops :
  hale b -> Forall (haleOp (quantityPrecision b)) ops -> hale (run b ops).
Proof.
  revert b. induction ops as [|op ops IH]; intros b Hb Hops; [done|].
  apply Forall_cons in Hops as [Hop Hops]. simpl.
  apply IH; [by apply step_hale|]. by rewrite step_quantityPrecision.
Qed.

(** *** Limit orders only *)

(** A market order leaves the heap of its own side as it is, and the
    opposing heap with orders that rested there before. *)
Lemma addOrder_market_heaps b order now :
  raw_type order = Some (OrderType_value MARKET) ->
  let s := side (normalise b order now) in
  let b' := (addOrder b order now).1.1 in
  sameHeap b' s = sameHeap b s
  /\ Forall (fun y => exists y0, y0 ∈ opposingHeap b s /\ sameOrder y y0)
       (opposingHeap b' s).
Proof.
  intros Hm s b'. subst s b'.
  assert (Forall (fun y => exists y0,
            y0 ∈ opposingHeap b (side (normalise b order now))
            /\ sameOrder y y0)
            (opposingHeap b (side (normalise b order now)))) as Hsame
    by (apply Forall_forall; intros y Hy; by exists y).
  destruct (validateOrder order) as [m|] eqn:Hv.
  { by rewrite (addOrder_invalid _ _ _ _ Hv). }
  rewrite (addOrder_eq _ _ _ Hv). cbv zeta.
  destruct (lastState_remainder b order now) as [_ [q Hq]].
  pose proof (fun P => lastState_Forall P b order now) as HFor.
  pose proof (normalise_type b order now) as Hty.
  set (n := normalise b order now) in *.
  set (st := lastState b order now) in *.
  assert (type (ms_remainder st) = MARKET) as ->
    by (by rewrite Hq; cbn [type set_quantity]; rewrite Hty, Hm).
  assert (forall h l, opposingHeap
            (with_trades (with_opposing b (side n) h) l) (side n) = h)
    as Hopp by (intros; by destruct (side n)).
  assert (forall h l, sameHeap
            (with_trades (with_opposing b (side n) h) l) (side n)
            = sameHeap b (side n))
    as Hsm by (intros; by destruct (side n)).
  destruct (ltb (Fin 0) (quantity (ms_remainder st))); cbn [fst];
    rewrite Hopp, Hsm; (split; [done|]);
    (apply HFor; [|done]);
    intros o q' (y0 & Hy0 & Hs); by exists y0.
Qed.

(** Heaps of limit orders are heaps of limit orders after every
    operation that does not load a snapshot listing a market order. *)
Lemma addOrder_limitOnly b order now :
  Forall limitOnly (bids b ++ asks b) ->
  Forall limitOnly
    (bids (addOrder b order now).1.1 ++ asks (addOrder b order now).1.1).
Proof.
  destruct (validateOrder order) as [m|] eqn:Hv.
  { by rewrite (addOrder_invalid _ _ _ _ Hv). }
  rewrite (addOrder_eq _ _ _ Hv). cbv zeta.
  pose proof (fun P => lastState_Forall P b order now) as HFor.
  set (n := normalise b order now) in *.
  set (st := lastState b order now) in *.
  rewrite !Forall_app. intros [Hlb Hla].
  assert (Forall limitOnly (ms_heap st)) as Hh.
  { apply HFor; [by intros o q'|]. by destruct (side n). }
  assert (Forall limitOnly (bids (with_opposing b (side n) (ms_heap st)))
          /\ Forall limitOnly (asks (with_opposing b (side n) (ms_heap st))))
    as [H1 H2] by (by destruct (side n)).
  destruct (ltb (Fin 0) (quantity (ms_remainder st)));
    [destruct (type (ms_remainder st)) eqn:Htr|]; cbn [fst]; try done.
  unfold insertOrder. cbn [side set_status].
  destruct (side (ms_remainder st));
    cbn [bids asks with_bids with_asks with_trades];
    split;
    first [done | rewrite insert_perm; constructor; [exact Htr | done]].
Qed.

Lemma step_limitOnly b op :
  limitOp op ->
  Forall limitOnly (bids b ++ asks b) ->
  Forall limitOnly (bids (step b op) ++ asks (step b op)).
Proof.
  intros Hop Hb. destruct op as [o n|o n|i|s]; cbn [step limitOp] in *.
  - by apply addOrder_limitOnly.
  - rewrite applyRemoteOrder_addOrder. by apply addOrder_limitOnly.
  - rewrite cancelOrder_book. apply Forall_app in Hb as [Hb Ha].
    apply Forall_app.
    destruct (removeById bidComparator i (bids b)).1; split;
      cbn [bids asks with_bids with_asks]; try done;
      by apply removeById_Forall.
  - rewrite loadSnapshot_book. case_match; [done|].
    cbn [bids asks with_bids with_asks]. by rewrite !rebuild_perm.
Qed.

Lemma run_limitOnly b ops :
  Forall limitOp ops ->
  Forall limitOnly (bids b ++ asks b) ->
  Forall limitOnly (bids (run b ops) ++ asks (run b ops)).
Proof.
  revert b. induction ops as [|op ops IH]; intros b Hops Hb; [done|].
  apply Forall_cons in Hops as [Hop Hops]. simpl.
  apply IH; [done|]. by apply step_limitOnly.
Qed.

(** Operations that add orders with finite numbers. *)
Ltac finite_ops :=
  repeat (apply Forall_cons_2; [first [by right | done]|]);
  apply Forall_nil_2.



End BookFacts.

(** * The claims *)

Module Claims.
Import NumFacts Heap HeapFacts ComparatorFacts MatchFacts BookFacts Sample.

(** ** C2: the book is uncrossed *)

(** C2, as stated, fails: [loadSnapshot] accepts whatever the snapshot
    lists.  Loading a snapshot with a bid at 10 and an ask at 5 into a
    new book returns normally and leaves the best bid above the best
    ask. *)
Lemma crossed_snapshot_crosses_the_book :
  (loadSnapshot book0 crossedSnapshot).2 = Returned tt
  /\ ~ uncrossed (loadSnapshot book0 crossedSnapshot).1.
Proof.
  split; [reflexivity|]. intros H.
  specialize (H (resting "b1" BUY 10 1 1 OPEN) (resting "a1" SELL 5 1 2 OPEN)
                eq_refl eq_refl).
  vm_compute in H. discriminate H.
Qed.

(** A limit order is let in with the price [NaN] (see C8), and a book
    that holds it is no longer kept uncrossed: after a sell at [NaN], a
    sell at 50 and a buy at 100 on a new book, the bid at 100 rests over
    the ask at 50, and the best ask is the one priced [NaN]. *)
Lemma nan_price_crosses_the_book :
  ~ uncrossed bookNaN
  /\ (exists x y, x ∈ bids bookNaN /\ y ∈ asks bookNaN
                  /\ (priceOf x == 100)%Q /\ (priceOf y == 50)%Q)
  /\ exists y, bestAsk bookNaN = Some y /\ price y = Some NaN.
Proof.
  split_and!.
  - intros H. specialize (H _ _ eq_refl eq_refl).
    vm_compute in H. discriminate H.
  - eexists _, _.
    split_and!; [vm_compute; left | vm_compute; right; left | | ];
      reflexivity.
  - eexists. split; [vm_compute; reflexivity | reflexivity].
Qed.

(** C2, amended: starting from a new book, after any sequence of
    [addOrder], [applyRemoteOrder], [cancelOrder] and [loadSnapshot]
    calls in which every limit order added has a finite price, and every
    loaded snapshot lists only orders with a finite price and no bid at
    or above an ask, the best bid, when both sides are non-empty, is
    priced strictly below the best ask. *)
Theorem uncrossed_after_operations p pp qp h b ops :
  newOrderBook p pp qp h = Returned b ->
  Forall soundOp ops ->
  uncrossed (run b ops).
Proof.
  intros Hb Hops. by eapply sound_uncrossed, built_sound.
Qed.

Lemma uncrossed_after_operations_witness :
  uncrossed
    (run book0
       [OpLoad quietSnapshot; OpAdd (limit "b2" "buy" 105 2 7) 7;
        OpCancel "b1"; OpRemote (limit "a2" "sell" 104 1 8) 8]).
Proof.
  apply (uncrossed_after_operations "BTC/USDT" None None allHooks);
    [reflexivity|].
  repeat apply Forall_cons_2; [| by right | done | by right | done].
  split_and!; [by repeat constructor; eexists..|].
  intros x y Hx%list_elem_of_singleton Hy%list_elem_of_singleton; subst.
  reflexivity.
Defined.

(** ** C6: resting orders have a positive quantity and a live status *)

(** C6, as stated, fails for the same reason: a snapshot that lists an
    order with quantity 0 and status [FILLED] is loaded as it is. *)
Lemma spent_snapshot_rests_a_spent_order :
  (loadSnapshot book0 spentSnapshot).2 = Returned tt
  /\ ~ restingHealthy (loadSnapshot book0 spentSnapshot).1.
Proof.
  split; [reflexivity|]. intros H.
  destruct (H (resting "b1" BUY 10 0 1 FILLED)) as [Hq _].
  - vm_compute. left.
  - vm_compute in Hq. discriminate Hq.
Qed.

(** Why the quantities of a snapshot must be on the book's grid: with
    whole units, an ask for 1.5 loaded from a snapshot and hit by a buy
    for 2 trades 2 and is left resting with quantity -1. *)
Lemma off_grid_quantity_goes_negative :
  exists o,
    o ∈ asks (run bookUnits [OpLoad halfSnapshot;
                             OpAdd (limit "b1" "buy" 100 2 7) 7])
    /\ eqb (quantity o) (Fin (-1)) = true.
Proof. eexists. split; [vm_compute; left | reflexivity]. Qed.

(** Why the quantities added must be finite: [Infinity] passes
    validation, and a buy for [Infinity] against a resting sell for
    [Infinity] leaves the sell resting with quantity [NaN], which is
    not [=== 0]. *)
Lemma infinite_quantity_leaves_nan :
  validateOrder (limitN "s" "sell" (Fin 100) PInf 1) = None
  /\ (exists o, asks bookInfinity = [o] /\ id o = "s" /\ quantity o = NaN)
  /\ ~ restingHealthy bookInfinity.
Proof.
  split_and!; [reflexivity | eexists; split_and!; vm_compute; reflexivity |].
  intros H.
  destruct (H (set_quantity (resting "s" SELL (round 100 2) 0 1 OPEN) NaN))
    as [Hq _].
  - vm_compute. left.
  - vm_compute in Hq. discriminate Hq.
Qed.

(** C6, amended: starting from a new book, after any sequence of
    [addOrder], [applyRemoteOrder], [cancelOrder] and [loadSnapshot]
    calls in which every order added has a finite quantity, and every
    loaded snapshot lists each order once (no id twice) and lists only
    orders with status [OPEN] or [PARTIALLY_FILLED] and a finite,
    positive quantity that rounding to the book's quantity precision
    leaves unchanged, every resting order has a positive quantity and
    status [OPEN] or [PARTIALLY_FILLED]. *)
Theorem resting_orders_stay_healthy p pp qp h b ops :
  newOrderBook p pp qp h = Returned b ->
  Forall (haleOp (quantityPrecision b)) ops ->
  restingHealthy (run b ops).
Proof.
  intros Hb Hops.
  destruct (run_hale b ops (newOrderBook_hale _ _ _ _ _ Hb) Hops) as [H1 H2].
  intros o [Ho|Ho]%elem_of_app.
  - rewrite Forall_forall in H1. eapply healthy_resting. by apply H1.
  - rewrite Forall_forall in H2. eapply healthy_resting. by apply H2.
Qed.

Lemma resting_orders_stay_healthy_witness :
  restingHealthy
    (run book0
       [OpLoad quietSnapshot; OpAdd (limit "b2" "buy" 110 (1 # 2) 7) 7;
        OpCancel "b1"; OpRemote (limit "a2" "sell" 104 1 8) 8]).
Proof.
  apply (resting_orders_stay_healthy "BTC/USDT" None None allHooks);
    [reflexivity|].
  repeat apply Forall_cons_2; [| done | done | done | done].
  split; [split|].
  - repeat constructor; vm_compute; auto.
  - repeat constructor; vm_compute; auto.
  - apply (bool_decide_unpack _). vm_compute. exact I.
Defined.

(** ** C3: a snapshot loads back into the same book *)




(** ** C4: a trade is priced at the resting order's price *)

(** C4: the trades of an [addOrder] call pair off, in order, with the
    resting orders peeked by the matching loop; each trade has the price
    of the order peeked for it, names that order as its resting side,
    and so does not have the aggressor's price when the two differ. *)
Theorem trade_price_is_resting_price b order now b' fired r :
  addOrder b order now = (b', fired, Returned r) ->
  Forall2
    (fun t best =>
       t_price t = price best
       /\ restingId (side (normalise b order now)) t = id best
       /\ (price best <> price (normalise b order now) ->
           t_price t <> price (normalise b order now)))
    (r_trades r) (peeked b order now).
Proof.
  intros Hadd.
  eapply Forall2_impl; [by eapply trade_pairs|].
  intros t best [Hp Hi]. split_and!; [done | done | congruence].
Qed.

Lemma trade_price_is_resting_price_witness :
  exists b' fired r,
    addOrder bookS2 (limit "b1" "buy" 10 2 6) 6 = (b', fired, Returned r)
    /\ Forall2
         (fun t best =>
            t_price t = price best
            /\ restingId (side (normalise bookS2 (limit "b1" "buy" 10 2 6) 6)) t
               = id best
            /\ (price best <> price (normalise bookS2 (limit "b1" "buy" 10 2 6) 6)
                -> t_price t
                   <> price (normalise bookS2 (limit "b1" "buy" 10 2 6) 6)))
         (r_trades r) (peeked bookS2 (limit "b1" "buy" 10 2 6) 6).
Proof.
  eexists _, _, _. split.
  - vm_compute. reflexivity.
  - eapply trade_price_is_resting_price. vm_compute. reflexivity.
Defined.

(** ** C5: price-time priority *)


(** The same with [addOrder] alone, through a price [NaN] (see C8):
    after sells at 100 (time 2000), [NaN], 105 and 100 (time 1000), the
    asks stand in the order of their arrival, and a buy at 100 for 2
    trades with the sell of time 2000 before the sell of time 1000. *)
Lemma nan_price_breaks_the_queue :
  id <$> asks bookNaNQueue = ["a"; "n"; "c"; "e"]
  /\ exists r t1 t2,
       (addOrder bookNaNQueue (limit "b" "buy" 100 2 9) 9).2 = Returned r
       /\ r_trades r = [t1; t2]
       /\ t_sellOrderId t1 = "a" /\ t_sellOrderId t2 = "e".
Proof.
  split; [vm_compute; reflexivity|].
  eexists _, _, _. split_and!; [vm_compute; reflexivity | reflexivity..].
Qed.



(** ** C7: a market order never rests *)

(** C7, as stated, fails in its last part: [loadSnapshot] inserts
    whatever the snapshot lists, a market order included, and that
    order is then present in a heap. *)
Lemma market_snapshot_rests_a_market_order :
  (loadSnapshot book0 marketSnapshot).2 = Returned tt
  /\ bids (loadSnapshot book0 marketSnapshot).1
     = [listed "m1" BUY MARKET None 1 1]
  /\ ~ Forall limitOnly
        (bids (loadSnapshot book0 marketSnapshot).1
         ++ asks (loadSnapshot book0 marketSnapshot).1).
Proof.
  split_and!; [reflexivity | reflexivity |].
  intros H. apply Forall_inv in H. discriminate H.
Qed.

(** C7, amended: when [addOrder] is called with a market order,
    whatever the book, the heap of the order's own side is what it was
    and the opposing heap holds only orders that rested there before
    (with what is left of their quantity): whatever is left of the
    market order is in neither heap.  And in a book built from a new
    one by [addOrder], [applyRemoteOrder], [cancelOrder] and
    [loadSnapshot] calls that load only snapshots listing limit orders,
    both heaps hold limit orders only, before and after a further
    [addOrder] call. *)
Theorem market_orders_never_rest b order now :
  let b' := (addOrder b order now).1.1 in
  let s := side (normalise b order now) in
  (raw_type order = Some (OrderType_value MARKET) ->
   sameHeap b' s = sameHeap b s
   /\ Forall (fun y => exists y0, y0 ∈ opposingHeap b s /\ sameOrder y y0)
        (opposingHeap b' s))
  /\ (forall p pp qp h b0 ops,
        newOrderBook p pp qp h = Returned b0 ->
        Forall limitOp ops ->
        b = run b0 ops ->
        Forall limitOnly (bids b ++ asks b)
        /\ Forall limitOnly (bids b' ++ asks b')).
Proof.
  intros b' s. split.
  - intros Hm. by apply addOrder_market_heaps.
  - intros p pp qp h b0 ops Hb Hops ->.
    assert (Forall limitOnly (bids (run b0 ops) ++ asks (run b0 ops))) as Hl.
    { apply run_limitOnly; [done|]. revert Hb. unfold newOrderBook.
      case_match; [done|]. by intros [= <-]. }
    split; [done | by apply addOrder_limitOnly].
Qed.

Lemma market_orders_never_rest_witness :
  let b := run book0 [OpLoad quietSnapshot; OpCancel "b1"] in
  let b' := (addOrder b (market "m1" "buy" 3) 7).1.1 in
  let s := side (normalise b (market "m1" "buy" 3) 7) in
  (sameHeap b' s = sameHeap b s
   /\ Forall (fun y => exists y0, y0 ∈ opposingHeap b s /\ sameOrder y y0)
        (opposingHeap b' s))
  /\ Forall limitOnly (bids b ++ asks b)
  /\ Forall limitOnly (bids b' ++ asks b').
Proof.
  destruct (market_orders_never_rest
              (run book0 [OpLoad quietSnapshot; OpCancel "b1"])
              (market "m1" "buy" 3) 7) as [H1 H2].
  split; [by apply H1|].
  apply (H2 "BTC/USDT" None None allHooks book0
           [OpLoad quietSnapshot; OpCancel "b1"]).
  - reflexivity.
  - apply Forall_cons_2; [by repeat constructor|].
    by apply Forall_cons_2.
  - reflexivity.
Defined.

(** ** C8: what validation rejects *)

(** C8 fails on the code at one input: a limit order whose price is
    [NaN].  [NaN] is not a positive price, so the order is one the
    claim, and the code's own message ("Limit order must have a positive
    price"), say is rejected; but [order.price <= 0] is false of [NaN],
    the order passes validation, and it is left resting with the price
    [NaN].  The check of the quantity, [!order.quantity ||
    order.quantity <= 0], does reject [NaN]. *)
Lemma nan_price_passes_validation :
  rejected (limitN "x" "buy" NaN (Fin 1) 7)
  /\ validateOrder (limitN "x" "buy" NaN (Fin 1) 7) = None
  /\ validateOrder (limitN "x" "buy" (Fin 100) NaN 7)
     = Some "Order quantity must be positive"
  /\ exists o,
       (addOrder book0 (limitN "x" "buy" NaN (Fin 1) 7) 7).2
       = Returned {| r_trades := []; r_remainder := Some o;
                     r_status := OPEN |}
       /\ bids (addOrder book0 (limitN "x" "buy" NaN (Fin 1) 7) 7).1.1 = [o]
       /\ price o = Some NaN.
Proof.
  split_and!.
  - do 3 right. left. split; [done|]. right. by exists NaN.
  - reflexivity.
  - reflexivity.
  - eexists. split_and!; vm_compute; reflexivity.
Qed.

(** Everywhere else the claim holds: for an order whose price is not
    [NaN], [addOrder] throws a validation error if and only if the order
    has a missing or empty id, a side outside buy/sell, a type that is
    given (a non-empty string) and outside limit/market, a price that is
    absent or not positive while the type is not market, or a quantity
    that is not positive ([rejected]); and whatever the order, when
    [addOrder] throws, the book, both heaps and the trade log, is what
    it was and no hook has fired. *)
Lemma validation_rejects_exactly b order now :
  (raw_price order <> Some NaN ->
   (exists m, (addOrder b order now).2 = Threw m) <-> rejected order)
  /\ (forall m, (addOrder b order now).2 = Threw m ->
        (addOrder b order now).1 = (b, [])).
Proof.
  split.
  - intros Hn. rewrite <- (validateOrder_rejected order Hn).
    destruct (validateOrder order) as [m|] eqn:Hv.
    + rewrite (addOrder_invalid _ _ _ _ Hv). split; eauto.
    + rewrite (addOrder_eq _ _ _ Hv). cbv zeta.
      split; [intros [m Hm] | by intros [? ?]]; by repeat case_match.
  - destruct (validateOrder order) as [m|] eqn:Hv.
    + by rewrite (addOrder_invalid _ _ _ _ Hv).
    + rewrite (addOrder_eq _ _ _ Hv). cbv zeta.
      intros m Hm; by repeat case_match.
Qed.

(** ** C9: applyRemoteOrder is addOrder *)

(** C9: for every book, order and clock, [applyRemoteOrder] leaves the
    same book, fires the same hooks and returns the same result as
    [addOrder]. *)
Theorem apply_remote_order_is_add_order b order now :
  applyRemoteOrder b order now = addOrder b order now.
Proof. by destruct order. Qed.

(** ** C10: a market order that meets no liquidity *)

(** C10, as stated, fails when the quantity rounds to zero: a market
    buy for 0.000000001 passes validation, meets an empty ask heap, and
    is reported [FILLED] with no remainder. *)
Lemma tiny_market_order_is_reported_filled :
  validateOrder (market "m1" "buy" (1 # 1000000000)) = None
  /\ opposingHeap book0 (side (normalise book0 (market "m1" "buy" (1 # 1000000000)) 7))
     = []
  /\ addOrder book0 (market "m1" "buy" (1 # 1000000000)) 7
     = (book0, [],
        Returned {| r_trades := []; r_remainder := None; r_status := FILLED |}).
Proof. split_and!; vm_compute; reflexivity. Qed.

(** C10, amended: a market order that passes validation, whose quantity
    rounded to the book's quantity precision is positive, and that finds
    the opposing heap empty, returns no trades, status [OPEN] and the
    normalised order as remainder; the book is what it was and no hook
    fires. *)
Theorem market_order_without_liquidity b order now :
  validateOrder order = None ->
  raw_type order = Some (OrderType_value MARKET) ->
  opposingHeap b (side (normalise b order now)) = [] ->
  ltb (Fin 0) (roundN (raw_quantity order) (quantityPrecision b)) = true ->
  addOrder b order now
  = (b, [],
     Returned {| r_trades := []; r_remainder := Some (normalise b order now);
                 r_status := OPEN |})
  /\ type (normalise b order now) = MARKET
  /\ quantity (normalise b order now)
     = roundN (raw_quantity order) (quantityPrecision b).
Proof.
  intros Hv Hm Hh Hq. split; [|split; [|done]].
  - rewrite (addOrder_eq _ _ _ Hv). cbv zeta.
    unfold lastState. rewrite Hh. cbn [match_fuel length Nat.mul match_loop].
    assert (match_step b (normalise b order now) now (firstState b order now)
            = None) as ->
      by (apply match_step_None; right; left; done).
    cbn [firstState ms_remainder ms_trades ms_heap ms_emitted].
    rewrite clone_same.
    cbn [quantity normalise]. rewrite Hq.
    rewrite normalise_type, Hm. cbn [isMarket OrderType_value].
    rewrite String.eqb_refl, app_nil_r. cbn [length Nat.ltb Nat.leb flat_map app].
    assert (with_trades
              (with_opposing b (side (normalise b order now))
                 (opposingHeap b (side (normalise b order now)))) (trades b) = b)
      as -> by (destruct b; by destruct (side _)).
    reflexivity.
  - by rewrite normalise_type, Hm.
Qed.

Lemma market_order_without_liquidity_witness :
  addOrder book0 (market "m1" "buy" 1) 7
  = (book0, [],
     Returned {| r_trades := [];
                 r_remainder := Some (normalise book0 (market "m1" "buy" 1) 7);
                 r_status := OPEN |})
  /\ type (normalise book0 (market "m1" "buy" 1) 7) = MARKET
  /\ quantity (normalise book0 (market "m1" "buy" 1) 7)
     = roundN (raw_quantity (market "m1" "buy" 1)) (quantityPrecision book0).
Proof.
  apply (market_order_without_liquidity book0 (market "m1" "buy" 1) 7);
    vm_compute; reflexivity.
Defined.

(** ** C1: trades are logged before hooks fire *)

(** The hooks fired by [addOrder] itself, [TRADE] and [ORDER_ADDED], do
    read a log that holds every trade of the call. *)
Lemma trade_and_added_hooks_see_the_trades b order now b' fired r :
  addOrder b order now = (b', fired, Returned r) ->
  Forall (fun e => e_event e <> ORDER_REMOVED ->
                   e_trades e = trades b ++ r_trades r) fired.
Proof.
  intros Hadd.
  destruct (validateOrder order) as [m|] eqn:Hv.
  { by rewrite (addOrder_invalid _ _ _ _ Hv) in Hadd. }
  rewrite (addOrder_eq _ _ _ Hv) in Hadd. cbv zeta in Hadd.
  pose proof (lastState_emitted b order now) as Hem.
  set (n := normalise b order now) in *.
  set (st := lastState b order now) in *.
  assert (Forall (fun e => e_event e <> ORDER_REMOVED ->
                           e_trades e = trades b ++ ms_trades st)
            (ms_emitted st ++
             flat_map (fun t => emit (with_trades
                (with_opposing b (side n) (ms_heap st))
                (trades b ++ ms_trades st)) TRADE (OfTrade t)) (ms_trades st)))
    as H1.
  { apply Forall_app. split.
    - eapply Forall_impl; [exact Hem|]. by intros e [-> _].
    - apply Forall_flat_map, Forall_forall. intros t _. unfold emit.
      destruct (hookOf _ _); constructor; [|constructor].
      intros _. cbn [e_trades getTrades]. by destruct (side n). }
  destruct (ltb (Fin 0) (quantity (ms_remainder st)));
    [destruct (type (ms_remainder st))|];
    injection Hadd as <- <- <-; cbn [r_trades]; try done.
  apply Forall_app. split; [done|]. unfold emit.
  destruct (hookOf _ _); constructor; [|constructor].
  intros _. cbn [e_trades getTrades].
  unfold insertOrder. destruct (side (set_status _ _)); by destruct (side n).
Qed.

(** C1 fails on the code: the [ORDER_REMOVED] hook fires inside
    [#match], before [addOrder] appends the trades.  With one ask
    resting at 100 for 1, a buy at 100 for 1 fires [ORDER_REMOVED] for
    the ask while the log read through [getTrades()] is still empty,
    though the call returns one trade. *)
Lemma order_removed_hook_misses_the_trade :
  exists b' fired r e t,
    addOrder bookS1 (limit "b1" "buy" 100 1 6) 6 = (b', fired, Returned r)
    /\ e ∈ fired /\ e_event e = ORDER_REMOVED
    /\ t ∈ r_trades r /\ t ∉ e_trades e.
Proof.
  eexists _, _, _, _, _. split_and!.
  - vm_compute. reflexivity.
  - left.
  - reflexivity.
  - left.
  - cbn [e_trades]. apply not_elem_of_nil.
Qed.

End Claims.

(** * More on rounding *)

Module RoundMore.
Import NumFacts.

Lemma onGrid_multiple qp q :
  onGrid qp q <-> exists n : Z, (q == inject_Z n / scale qp)%Q.
Proof.
  unfold onGrid. split.
  - intros E. destruct (round_is_multiple q qp) as [n Hn]. exists n.
    rewrite <- E. exact Hn.
  - intros [n Hn]. rewrite (round_comp _ _ qp Hn), round_multiple.
    symmetry. exact Hn.
Qed.



Lemma onGrid_round qp x : onGrid qp (round x qp).
Proof. apply round_idem. Qed.

Lemma onGrid_comp qp x y : (x == y)%Q -> onGrid qp x -> onGrid qp y.
Proof.
  unfold onGrid. intros E H. rewrite <- (round_comp _ _ qp E), H. exact E.
Qed.

(** The magnitude that [toFixed] prints is within half a step. *)
Lemma floor_half_bounds (a : Q) :
  (a - (1 # 2) < inject_Z (Qfloor (a + (1 # 2))) <= a + (1 # 2))%Q.
Proof.
  pose proof (Qfloor_le (a + (1 # 2))) as Hl.
  pose proof (Qlt_floor (a + (1 # 2))) as Hu.
  rewrite inject_Z_plus in Hu. change (inject_Z 1) with 1%Q in Hu.
  split; lra.
Qed.

Lemma within_half (s n a r h : Q) :
  (0 < s)%Q -> (r * s == n)%Q -> (h * s == 1 # 2)%Q ->
  (a * s - (1 # 2) < n <= a * s + (1 # 2))%Q ->
  (- h <= r - a <= h)%Q.
Proof. intros Hs Hr Hh [Hl Hu]. split; nra. Qed.

Lemma round_near x d :
  (Qabs (round x d - x) <= (1 # 2) / scale d)%Q.
Proof.
  pose proof (scale_pos d) as Hs.
  pose proof (floor_half_bounds (Qabs x * scale d)) as Hb.
  unfold round.
  set (n := inject_Z (Qfloor (Qabs x * scale d + (1 # 2)))) in *.
  destruct (within_half (scale d) n (Qabs x) (n / scale d) ((1 # 2) / scale d))
    as [H1 H2]; [done | field; lra | field; lra | done |].
  apply Qabs_Qle_condition.
  destruct (Qle_bool 0 x) eqn:Hsg.
  - apply Qle_bool_iff in Hsg. rewrite Qabs_pos in H1, H2 by done. done.
  - apply Qle_bool_gt in Hsg. rewrite Qabs_neg in H1, H2 by lra. split; lra.
Qed.

Lemma round_opp x d : (round (- x) d == - round x d)%Q.
Proof.
  unfold round. cbv zeta.
  assert (Qfloor (Qabs (- x) * scale d + (1 # 2))
          = Qfloor (Qabs x * scale d + (1 # 2))) as ->
    by (apply Qfloor_comp; rewrite Qabs_opp; reflexivity).
  set (r := (inject_Z (Qfloor (Qabs x * scale d + (1 # 2))) / scale d)%Q).
  destruct (Qle_bool 0 x) eqn:H1, (Qle_bool 0 (- x)) eqn:H2;
    try apply Qle_bool_iff in H1; try apply Qle_bool_iff in H2;
    try apply Qle_bool_gt in H1; try apply Qle_bool_gt in H2;
    try lra.
  assert (x == 0)%Q as E by lra.
  subst r. rewrite (Qabs_wd _ _ E).
  pose proof (scale_pos d).
  assert (Qabs 0 * scale d + (1 # 2) == inject_Z 0 + (1 # 2))%Q as E2
    by (change (Qabs 0) with 0%Q; change (inject_Z 0) with 0%Q; ring).
  rewrite (Qfloor_comp _ _ E2), Qfloor_half. change (inject_Z 0) with 0%Q.
  field. lra.
Qed.

Lemma round_nonpos x d : (x <= 0)%Q -> (round x d <= 0)%Q.
Proof.
  intros Hx. pose proof (round_nonneg (- x) d) as H.
  rewrite round_opp in H. lra.
Qed.

End RoundMore.

(** * More on the heap *)

Module HeapMore.
Import NumFacts Heap HeapFacts ComparatorFacts.





Lemma above_blind c a b q q' :
  c = bidComparator \/ c = askComparator ->
  above c (set_quantity a q) (set_quantity b q') = above c a b.
Proof. by intros [->| ->]. Qed.


Lemma findIndex_first i d k :
  findIndex i d = Some k <->
  exists o, d !! k = Some o /\ id o = i
    /\ forall j x, (j < k)%nat -> d !! j = Some x -> id x <> i.
Proof.
  revert k. induction d as [|o d IH]; intros k; cbn [findIndex].
  - split; [done | by intros (? & ? & _)].
  - destruct (String.eqb (id o) i) eqn:E.
    + apply String.eqb_eq in E. split.
      * intros [= <-]. exists o. split_and!; [done | done | intros; lia].
      * intros (x & Hx & Hi & Hf). destruct k as [|k]; [done|].
        destruct (Hf 0%nat o); [lia | done | done].
    + apply String.eqb_neq in E. split.
      * destruct (findIndex i d) as [k'|] eqn:Hk; [|done]. intros [= <-].
        destruct (proj1 (IH k') eq_refl) as (x & Hx & Hi & Hf).
        exists x. split_and!; [done | done |].
        intros [|j] y Hj Hy; [by injection Hy as <- |].
        eapply (Hf j); [lia | done].
      * intros (x & Hx & Hi & Hf). destruct k as [|k].
        { by injection Hx as ->. }
        assert (findIndex i d = Some k) as ->; [|done].
        apply IH. exists x. split_and!; [done | done |].
        intros j y Hj Hy. eapply (Hf (S j)); [lia | done].
Qed.

Lemma findIndex_None i d :
  findIndex i d = None <-> Forall (fun o => id o <> i) d.
Proof.
  induction d as [|o d IH]; cbn [findIndex]; [by split|].
  rewrite Forall_cons.
  destruct (String.eqb (id o) i) eqn:E.
  - apply String.eqb_eq in E. split; [done | by intros [? _]].
  - apply String.eqb_neq in E. destruct (findIndex i d); cbn [option_map].
    + split; [done|]. intros [_ H]. by apply IH in H.
    + split; [|done]. intros _. split; [done | by apply IH].
Qed.

Lemma removeById_found c i d k :
  findIndex i d = Some k -> (removeById c i d).1 = d !! k.
Proof.
  intros Hk. unfold removeById. rewrite Hk.
  destruct (pop d) as [[l|] d']; [case_match|]; done.
Qed.

Lemma removeById_missing c i d :
  findIndex i d = None -> removeById c i d = (None, d).
Proof. intros Hk. unfold removeById. by rewrite Hk. Qed.

Lemma updateQuantity_missing i q d :
  Forall (fun o => id o <> i) d -> updateQuantity i q d = d.
Proof.
  induction 1 as [|o d Ho _ IH]; cbn [updateQuantity]; [done|].
  apply String.eqb_neq in Ho. by rewrite Ho, IH.
Qed.

Lemma updateQuantity_first i q d k o :
  d !! k = Some o -> id o = i ->
  (forall j x, (j < k)%nat -> d !! j = Some x -> id x <> i) ->
  updateQuantity i q d = <[k := set_quantity o q]> d.
Proof.
  revert k. induction d as [|y d IH]; intros k Hk Hi Hf; [done|].
  cbn [updateQuantity]. destruct k as [|k].
  - injection Hk as ->. apply String.eqb_eq in Hi. by rewrite Hi.
  - assert (id y <> i) as Hy by (eapply (Hf 0%nat); [lia | done]).
    apply String.eqb_neq in Hy. rewrite Hy. cbn. f_equal.
    apply IH; [done | done |]. intros j x Hj Hx. eapply (Hf (S j)); [lia|done].
Qed.

Lemma updateQuantity_lookup i q d k x :
  updateQuantity i q d !! k = Some x ->
  exists y, d !! k = Some y /\ (x = y \/ x = set_quantity y q).
Proof.
  revert k. induction d as [|y d IH]; intros k; cbn [updateQuantity]; [done|].
  destruct (String.eqb (id y) i).
  - destruct k; cbn; [intros [= <-]; eauto | eauto].
  - destruct k; cbn; [intros [= <-]; eauto | apply IH].
Qed.

Lemma updateQuantity_length i q d : length (updateQuantity i q d) = length d.
Proof.
  induction d as [|y d IH]; cbn [updateQuantity]; [done|].
  destruct (String.eqb (id y) i); cbn; by rewrite ?IH.
Qed.

Lemma updateQuantity_ordered c i q d :
  c = bidComparator \/ c = askComparator ->
  heapOrdered c d -> heapOrdered c (updateQuantity i q d).
Proof.
  intros Hc Ho k x p Hk Hx Hp.
  apply updateQuantity_lookup in Hx as (x0 & Hx0 & Ex).
  apply updateQuantity_lookup in Hp as (p0 & Hp0 & Ep).
  specialize (Ho k x0 p0 Hk Hx0 Hp0).
  rewrite <- (above_blind c x0 p0 (quantity x0) (quantity p0) Hc) in Ho.
  destruct Ex as [->| ->], Ep as [->| ->];
    rewrite <- (above_blind c _ _ (Fin 0) (Fin 0) Hc);
    rewrite <- (above_blind c _ _ (Fin 0) (Fin 0) Hc) in Ho; exact Ho.
Qed.

(** Heap shape of a given array, by evaluation. *)
Lemma ordered_check c (d : list Order) :
  forallb (fun i => negb (aboveAt c i ((i - 1) / 2) d))
    (seq 1 (length d - 1)) = true ->
  heapOrdered c d.
Proof.
  intros H i x p Hi Hx Hp.
  rewrite forallb_forall in H. specialize (H i).
  rewrite (aboveAt_spec c i _ d x p Hx Hp) in H.
  apply negb_true_iff, H, in_seq.
  apply lookup_lt_Some in Hx. lia.
Qed.



End HeapMore.

(** * More on cancelOrder *)

Module CancelMore.
Import Heap HeapFacts HeapMore.

Lemma with_bids_same b : with_bids b (bids b) = b.
Proof. by destruct b. Qed.

Lemma with_asks_same b : with_asks b (asks b) = b.
Proof. by destruct b. Qed.

Lemma cancelOrder_bid b i o rest :
  removeById bidComparator i (bids b) = (Some o, rest) ->
  cancelOrder b i
  = (with_bids b rest,
     emit b ORDER_REMOVED (OfOrder (set_status o CANCELLED)),
     Some (set_status o CANCELLED)).
Proof. intros H. unfold cancelOrder. by rewrite H. Qed.

Lemma cancelOrder_ask b i o rest :
  Forall (fun x => id x <> i) (bids b) ->
  removeById askComparator i (asks b) = (Some o, rest) ->
  cancelOrder b i
  = (with_asks b rest,
     emit b ORDER_REMOVED (OfOrder (set_status o CANCELLED)),
     Some (set_status o CANCELLED)).
Proof.
  intros Hb H. unfold cancelOrder.
  apply findIndex_None in Hb. rewrite (removeById_missing _ _ _ Hb).
  by rewrite H.
Qed.

(** Removing an id that the array holds. *)
Lemma removeById_some c i d :
  Exists (fun o => id o = i) d ->
  exists o rest, removeById c i d = (Some o, rest)
    /\ id o = i /\ d ≡ₚ o :: rest.
Proof.
  intros Hex.
  destruct (findIndex i d) as [k|] eqn:Hk.
  - pose proof (removeById_found c i d k Hk) as H1.
    apply findIndex_first in Hk as (o & Hko & Hi & _).
    rewrite Hko in H1.
    destruct (removeById_perm c i d o H1) as [_ H2].
    destruct (removeById c i d) as [r rest]. cbn [fst snd] in *. subst r.
    by exists o, rest.
  - apply findIndex_None in Hk. apply Exists_exists in Hex as (o & Ho & Hi).
    rewrite Forall_forall in Hk. by destruct (Hk o Ho).
Qed.

Lemma not_Exists_id i (d : list Order) :
  ~ Exists (fun o => id o = i) d -> Forall (fun o => id o <> i) d.
Proof. intros H. apply Forall_forall. intros o Ho E. apply H, Exists_exists. eauto. Qed.

Lemma Exists_id_dec i (d : list Order) :
  Exists (fun o => id o = i) d \/ Forall (fun o => id o <> i) d.
Proof.
  destruct (findIndex i d) as [k|] eqn:Hk.
  - left. apply findIndex_first in Hk as (o & Hko & Hi & _).
    apply Exists_exists. exists o. split; [by eapply list_elem_of_lookup_2 | done].
  - right. by apply findIndex_None.
Qed.

End CancelMore.

(** * More on addOrder *)

Module AddMore.
Import NumFacts Heap HeapFacts MatchFacts BookFacts.

(** What a returning [addOrder] call is made of. *)
Lemma addOrder_inv b order now b' fired r :
  addOrder b order now = (b', fired, Returned r) ->
  let n := normalise b order now in
  let st := lastState b order now in
  let b1 := with_trades (with_opposing b (side n) (ms_heap st))
              (trades b ++ ms_trades st) in
  let rr := set_status (ms_remainder st)
              (if Nat.ltb 0 (length (ms_trades st))
               then PARTIALLY_FILLED else OPEN) in
  validateOrder order = None
  /\ r_trades r = ms_trades st
  /\ (ltb (Fin 0) (quantity (ms_remainder st)) = false
      /\ b' = b1 /\ r_remainder r = None /\ r_status r = FILLED
      \/ ltb (Fin 0) (quantity (ms_remainder st)) = true
         /\ r_remainder r = Some rr /\ r_status r = status rr
         /\ (type n = LIMIT /\ b' = insertOrder b1 rr
             \/ type n = MARKET /\ b' = b1)).
Proof.
  intros Hadd.
  destruct (validateOrder order) as [m|] eqn:Hv.
  { by rewrite (addOrder_invalid _ _ _ _ Hv) in Hadd. }
  rewrite (addOrder_eq _ _ _ Hv) in Hadd. cbv zeta in *.
  destruct (lastState_remainder b order now) as [_ [q Hq]].
  assert (type (ms_remainder (lastState b order now))
          = type (normalise b order now)) as Ht by by rewrite Hq.
  rewrite Ht in Hadd.
  destruct (ltb (Fin 0) (quantity (ms_remainder (lastState b order now))))
    eqn:Hpos.
  - destruct (type (normalise b order now)); injection Hadd as <- <- <-;
      (split_and!; [done | done | right; split_and!; try done]); eauto.
  - injection Hadd as <- <- <-.
    split_and!; [done | done | left; done].
Qed.

Lemma sameHeap_with_opposing b s h l :
  sameHeap (with_trades (with_opposing b s h) l) s = sameHeap b s.
Proof. by destruct s. Qed.

Lemma opposingHeap_with_opposing b s h l :
  opposingHeap (with_trades (with_opposing b s h) l) s = h.
Proof. by destruct s. Qed.

Lemma sameHeap_insertOrder b o :
  sameHeap (insertOrder b o) (side o)
  = insert (match side o with BUY => bidComparator | SELL => askComparator end)
      o (sameHeap b (side o)).
Proof. unfold insertOrder. by destruct (side o). Qed.

Lemma sameHeap_insertOrder_perm b o s :
  side o = s -> sameHeap (insertOrder b o) s ≡ₚ o :: sameHeap b s.
Proof.
  intros <-. unfold insertOrder.
  destruct (side o); cbn [sameHeap bids asks with_bids with_asks];
    apply insert_perm.
Qed.

Lemma opposingHeap_insertOrder b o s :
  side o = s -> opposingHeap (insertOrder b o) s = opposingHeap b s.
Proof. intros <-. unfold insertOrder. by destruct (side o). Qed.

Lemma trades_insertOrder b o : trades (insertOrder b o) = trades b.
Proof. unfold insertOrder. by destruct (side o). Qed.

Lemma lastState_side b order now :
  side (ms_remainder (lastState b order now)) = side (normalise b order now).
Proof. destruct (lastState_remainder b order now) as [_ [q ->]]. done. Qed.

Lemma lastState_id b order now :
  id (ms_remainder (lastState b order now)) = id (normalise b order now).
Proof. destruct (lastState_remainder b order now) as [_ [q ->]]. done. Qed.

Lemma addOrder_trades b order now b' fired r :
  addOrder b order now = (b', fired, Returned r) ->
  trades b' = trades b ++ r_trades r.
Proof.
  intros Hadd. destruct (addOrder_inv _ _ _ _ _ _ Hadd)
    as (_ & -> & [(_ & -> & _) | (_ & _ & _ & [[_ ->] | [_ ->]])]);
    rewrite ?trades_insertOrder; by destruct (side _).
Qed.

Lemma cancelOrder_trades b i : trades (cancelOrder b i).1.1 = trades b.
Proof. rewrite cancelOrder_book. by case_match. Qed.

Lemma loadSnapshot_trades b s : trades (loadSnapshot b s).1 = trades b.
Proof. rewrite loadSnapshot_book. by case_match. Qed.

Lemma step_trades b op : trades (step b op) = trades b ++ tradesOf b op.
Proof.
  destruct op as [order now | order now | i | s]; cbn [step tradesOf].
  - destruct (addOrder b order now) as [[b' fired] [r|m]] eqn:Hadd.
    + by apply addOrder_trades in Hadd.
    + destruct (validateOrder order) as [m'|] eqn:Hv.
      * rewrite (addOrder_invalid _ _ _ _ Hv) in Hadd.
        injection Hadd as <- _ _. cbn. by rewrite app_nil_r.
      * rewrite (addOrder_eq _ _ _ Hv) in Hadd. cbv zeta in Hadd.
        by repeat case_match.
  - rewrite applyRemoteOrder_addOrder.
    destruct (addOrder b order now) as [[b' fired] [r|m]] eqn:Hadd.
    + by apply addOrder_trades in Hadd.
    + destruct (validateOrder order) as [m'|] eqn:Hv.
      * rewrite (addOrder_invalid _ _ _ _ Hv) in Hadd.
        injection Hadd as <- _ _. cbn. by rewrite app_nil_r.
      * rewrite (addOrder_eq _ _ _ Hv) in Hadd. cbv zeta in Hadd.
        by repeat case_match.
  - by rewrite cancelOrder_trades, app_nil_r.
  - by rewrite loadSnapshot_trades, app_nil_r.
Qed.

End AddMore.

(** * More on the book *)

Module BookMore.
Import Heap HeapFacts MatchFacts HeapMore CancelMore.

(** An order inserted under an id that the array does not hold is the
    one [removeById] finds. *)
Lemma removeById_fresh c o d :
  Forall (fun x => id x <> id o) d ->
  exists rest, removeById c (id o) (insert c o d) = (Some o, rest)
    /\ rest ≡ₚ d.
Proof.
  intros Hf.
  destruct (removeById_some c (id o) (insert c o d)) as (o' & rest & Hr & Hi & Hp).
  { apply Exists_exists. exists o. split; [|done].
    rewrite insert_perm. by left. }
  assert (o' ∈ o :: d) as Ho'.
  { rewrite <- (insert_perm c o d), Hp. by left. }
  apply elem_of_cons in Ho' as [->|Ho'].
  - exists rest. split; [done|].
    rewrite insert_perm in Hp. by apply Permutation_cons_inv in Hp.
  - rewrite Forall_forall in Hf. by destruct (Hf o' Ho').
Qed.

Lemma id_blind i : blind (fun x => id x <> i).
Proof. by intros o q. Qed.

Lemma spread_None b : spread b = None <-> bids b = [] \/ asks b = [].
Proof.
  unfold spread, bestBid, bestAsk, peek.
  destruct (bids b) as [|x ?], (asks b) as [|y ?]; cbn; split; try done;
    try tauto; by intros [|].
Qed.

End BookMore.

(** * More on the matching loop *)

Module LoopMore.
Import NumFacts RoundMore Heap HeapFacts ComparatorFacts MatchFacts BookFacts
  HeapMore AddMore.

Lemma addOrder_opposing b order now b' fired r :
  addOrder b order now = (b', fired, Returned r) ->
  opposingHeap b' (side (normalise b order now))
  = ms_heap (lastState b order now).
Proof.
  intros Hadd. pose proof (lastState_side b order now) as Hs.
  destruct (addOrder_inv _ _ _ _ _ _ Hadd)
    as (_ & _ & [(_ & -> & _) | (_ & _ & _ & [[_ ->] | [_ ->]])]);
    try apply opposingHeap_with_opposing.
  rewrite opposingHeap_insertOrder by done.
  apply opposingHeap_with_opposing.
Qed.

(** *** The limit price *)

Lemma lastState_within b order now :
  type (normalise b order now) = LIMIT ->
  Forall (within (side (normalise b order now))
            (toNumber (price (normalise b order now))))
    (ms_trades (lastState b order now)).
Proof.
  intros Hty. set (n := normalise b order now) in *.
  assert (price (ms_remainder (lastState b order now)) = price n
          /\ Forall (within (side n) (toNumber (price n)))
               (ms_trades (lastState b order now))) as [_ H]; [|done].
  unfold lastState. fold n.
  apply (match_loop_ind
           (fun st => price (ms_remainder st) = price n
                      /\ Forall (within (side n) (toNumber (price n)))
                           (ms_trades st))).
  - intros st st' [Hp HF] Hstep.
    apply match_step_inv in Hstep
      as (best & rest & _ & _ & Hpm & -> & -> & _).
    split; [done|]. apply Forall_app. split; [done|].
    constructor; [|done].
    unfold priceMatches in Hpm. rewrite Hty, Hp in Hpm.
    unfold within, makeTrade. cbn [t_price].
    by destruct (side n).
  - unfold firstState. fold n. by cbn [ms_remainder ms_trades clone price].
Qed.

(** *** The order in which resting orders are taken *)




(** *** Quantities *)







(** The first turn of the loop decides whether the call trades. *)
Lemma lastState_first b order now :
  let n := normalise b order now in
  match match_step b n now (firstState b order now) with
  | None => lastState b order now = firstState b order now
  | Some st' =>
      exists tl, ms_trades (lastState b order now) = ms_trades st' ++ tl
  end.
Proof.
  intros n. subst n. unfold lastState, match_fuel. cbn [match_loop].
  destruct (match_step b (normalise b order now) now (firstState b order now))
    as [st'|]; [|done].
  destruct (trades_follow_bests b (normalise b order now) now
              (2 * length (opposingHeap b (side (normalise b order now)))) st')
    as (tl & Htl & _).
  by exists tl.
Qed.

End LoopMore.

(** * More on the hooks *)

Module HookMore.
Import NumFacts Heap HeapFacts MatchFacts BookFacts.

Lemma from_blind (h : list Order) :
  blind (fun y => exists x, x ∈ h /\ sameOrder y x).
Proof. intros o q (x & Hx & Hs). by exists x. Qed.

Lemma lastState_removed b order now :
  let h := opposingHeap b (side (normalise b order now)) in
  let st := lastState b order now in
  Forall (spentEvent (trades b) h) (ms_emitted st)
  /\ (onOrderRemoved (hooks b) = false -> ms_emitted st = [])
  /\ (onOrderRemoved (hooks b) = true ->
      (length (ms_emitted st) + length (ms_heap st) = length h)%nat).
Proof.
  intros h st. subst st. unfold lastState.
  set (n := normalise b order now) in *.
  assert (let st := match_loop b n now (match_fuel (opposingHeap b (side n)))
                      (firstState b order now) in
          Forall (fun y => exists x, x ∈ h /\ sameOrder y x) (ms_heap st)
          /\ Forall (spentEvent (trades b) h) (ms_emitted st)
          /\ (onOrderRemoved (hooks b) = false -> ms_emitted st = [])
          /\ (onOrderRemoved (hooks b) = true ->
              (length (ms_emitted st) + length (ms_heap st) = length h)%nat))
    as (_ & ? & ? & ?); [|done].
  apply (match_loop_ind
    (fun st =>
       Forall (fun y => exists x, x ∈ h /\ sameOrder y x) (ms_heap st)
       /\ Forall (spentEvent (trades b) h) (ms_emitted st)
       /\ (onOrderRemoved (hooks b) = false -> ms_emitted st = [])
       /\ (onOrderRemoved (hooks b) = true ->
           (length (ms_emitted st) + length (ms_heap st) = length h)%nat))).
  - intros st st' (Hh & He & Hoff & Hon) Hstep.
    pose proof (match_step_Forall _ _ _ _ _ _ (from_blind h) Hstep Hh) as Hh'.
    apply match_step_inv in Hstep
      as (best & rest & Hheap & _ & _ & _ & _ & Hcase).
    cbv zeta in Hcase. rewrite Hheap in Hh, Hon.
    apply Forall_cons in Hh as [(x & Hx & Hbx) _].
    destruct Hcase as [(Hz & Hheap' & ->) | (Hz & Hheap' & ->)].
    + assert (length (ms_heap st') = length rest) as Hlen.
      { rewrite Hheap'.
        destruct (extractTop_perm (opposingComparator (side n))
                    (fill b best (tradedQty b (ms_remainder st) best) :: rest)
                    _ eq_refl) as [_ Hp].
        apply Permutation_cons_inv in Hp. by rewrite Hp. }
      unfold emit. cbn [hookOf].
      destruct (onOrderRemoved (hooks b)) eqn:Hk.
      * split_and!; [done | | done |].
        -- apply Forall_app. split; [done|]. constructor; [|done].
           split_and!; [done | done |]. eexists _, x.
           split_and!; [done | done | done | done].
        -- intros _. rewrite length_app, Hlen. cbn [length] in *.
           specialize (Hon eq_refl). lia.
      * rewrite app_nil_r. split_and!; [done | done | done | done].
    + split_and!; [done | done | done |].
      intros Hk. rewrite Hheap'. cbn [length] in *. by apply Hon.
  - unfold firstState. fold n. cbn [ms_heap ms_emitted length].
    split_and!; [| done | done | done].
    apply Forall_forall. intros y Hy. by exists y.
Qed.

Lemma flat_map_emit_trade b ts :
  flat_map (fun t => emit b TRADE (OfTrade t)) ts
  = tradeEvents b (trades b) ts.
Proof.
  unfold tradeEvents, emit. cbn [hookOf].
  destruct (onTrade (hooks b)).
  - induction ts as [|t ts IH]; cbn; [done | by rewrite IH].
  - induction ts as [|t ts IH]; cbn; done.
Qed.

End HookMore.

(** * More on prices and on the orders of a trade *)

Module TickMore.
Import NumFacts RoundMore Heap HeapFacts MatchFacts BookFacts HookMore.

Lemma onTick_blind pp : blind (onTick pp).
Proof. by intros o q. Qed.

Lemma normalise_onTick b order now :
  finitePrice order ->
  onTick (pricePrecision b) (normalise b order now).
Proof.
  intros Hf. unfold onTick, priceOf. rewrite normalise_price.
  destruct (isMarket (raw_type order)) eqn:Hm; cbn [toNumber fin].
  - split; [done | apply round_0].
  - destruct Hf as [Hf|Hf]; [congruence|].
    destruct (toNumber (raw_price order)); [|done..].
    split; [done | apply onGrid_round].
Qed.

Lemma addOrder_pricePrecision b order now :
  pricePrecision (addOrder b order now).1.1 = pricePrecision b.
Proof.
  destruct (validateOrder order) as [m|] eqn:Hv.
  { by rewrite (addOrder_invalid _ _ _ _ Hv). }
  rewrite (addOrder_eq _ _ _ Hv). cbv zeta.
  destruct (ltb _ _); [destruct (type _)|]; cbn [fst];
    unfold insertOrder; try destruct (side (set_status _ _));
    by destruct (side (normalise b order now)).
Qed.

Lemma step_pricePrecision b op :
  pricePrecision (step b op) = pricePrecision b.
Proof.
  destruct op as [o n|o n|i|s]; cbn [step].
  - apply addOrder_pricePrecision.
  - rewrite applyRemoteOrder_addOrder. apply addOrder_pricePrecision.
  - rewrite cancelOrder_book. by case_match.
  - rewrite loadSnapshot_book. by case_match.
Qed.

Lemma addOrder_tidy b order now :
  finitePrice order -> tidy b -> tidy (addOrder b order now).1.1.
Proof.
  unfold tidy. rewrite addOrder_pricePrecision.
  intros Hfin [Hb Ha]%Forall_app.
  destruct (validateOrder order) as [m|] eqn:Hv.
  { rewrite (addOrder_invalid _ _ _ _ Hv). by apply Forall_app. }
  rewrite (addOrder_eq _ _ _ Hv). cbv zeta.
  destruct (lastState_remainder b order now) as [_ [q Hq]].
  pose proof (lastState_Forall (onTick (pricePrecision b)) b order now
                (onTick_blind _)) as Hh.
  pose proof (normalise_onTick b order now Hfin) as Hn.
  set (n := normalise b order now) in *.
  set (st := lastState b order now) in *.
  assert (Forall (onTick (pricePrecision b))
            (bids (with_trades (with_opposing b (side n) (ms_heap st))
                     (trades b ++ ms_trades st)))
          /\ Forall (onTick (pricePrecision b))
               (asks (with_trades (with_opposing b (side n) (ms_heap st))
                        (trades b ++ ms_trades st)))) as [H1 H2].
  { destruct (side n); cbn [opposingHeap] in Hh; split;
      cbn [bids asks with_bids with_asks with_trades with_opposing]; auto. }
  destruct (ltb (Fin 0) (quantity (ms_remainder st)));
    [destruct (type (ms_remainder st))|]; cbn [fst];
    try (by apply Forall_app).
  set (r := set_status _ _).
  assert (onTick (pricePrecision b) r) as Hr
    by (unfold r, onTick, priceOf; cbn [price set_status]; by rewrite Hq).
  unfold insertOrder.
  destruct (side r); apply Forall_app; split;
    cbn [bids asks with_bids with_asks]; try done;
    rewrite insert_perm; by constructor.
Qed.

Lemma cancelOrder_tidy b i : tidy b -> tidy (cancelOrder b i).1.1.
Proof.
  unfold tidy. intros [Hb Ha]%Forall_app. rewrite cancelOrder_book.
  destruct (removeById bidComparator i (bids b)).1; apply Forall_app; split;
    cbn [bids asks with_bids with_asks pricePrecision]; try done;
    by apply removeById_Forall.
Qed.

Lemma loadSnapshot_tidy b s :
  tidy b -> tidyOp (pricePrecision b) (OpLoad s) -> tidy (loadSnapshot b s).1.
Proof.
  unfold tidy, tidyOp. intros Hb [H1 H2]%Forall_app.
  rewrite loadSnapshot_book. case_match; [done|].
  apply Forall_app. split; cbn [bids asks with_bids with_asks pricePrecision];
    by rewrite rebuild_perm.
Qed.

Lemma step_tidy b op :
  tidy b -> tidyOp (pricePrecision b) op -> tidy (step b op).
Proof.
  intros Hb Hop. destruct op as [o n|o n|i|s]; cbn [step tidyOp] in *.
  - by apply addOrder_tidy.
  - rewrite applyRemoteOrder_addOrder. by apply addOrder_tidy.
  - by apply cancelOrder_tidy.
  - by apply loadSnapshot_tidy.
Qed.

Lemma run_tidy b ops :
  tidy b -> Forall (tidyOp (pricePrecision b)) ops -> tidy (run b ops).
Proof.
  revert b. induction ops as [|op ops IH]; intros b Hb Hops; [done|].
  apply Forall_cons in Hops as [Hop Hops]. simpl.
  apply IH; [by apply step_tidy|]. by rewrite step_pricePrecision.
Qed.

Lemma newOrderBook_tidy p pp qp h b :
  newOrderBook p pp qp h = Returned b -> tidy b.
Proof.
  unfold newOrderBook. case_match; [done|]. intros [= <-]. by constructor.
Qed.

(** *** The two orders of a trade *)

Lemma makeTrade_same b n rem best x q now :
  id rem = id n -> peerId rem = peerId n -> sameOrder best x ->
  makeTrade b n rem best q now = makeTrade b n n x q now.
Proof.
  intros Hi Hp Hs. unfold makeTrade. rewrite Hi, Hp.
  assert (id best = id x) as -> by (by apply (f_equal id) in Hs).
  assert (price best = price x) as -> by (by apply (f_equal price) in Hs).
  assert (peerId best = peerId x) as -> by (by apply (f_equal peerId) in Hs).
  done.
Qed.

Lemma lastState_made b order now :
  let n := normalise b order now in
  Forall (fun t => exists x, x ∈ opposingHeap b (side n)
                    /\ t = makeTrade b n n x (t_quantity t) now)
    (ms_trades (lastState b order now)).
Proof.
  intros n. set (h := opposingHeap b (side n)).
  assert ((exists q, ms_remainder (lastState b order now) = set_quantity n q)
          /\ Forall (fun y => exists x, x ∈ h /\ sameOrder y x)
               (ms_heap (lastState b order now))
          /\ Forall (fun t => exists x, x ∈ h
                              /\ t = makeTrade b n n x (t_quantity t) now)
               (ms_trades (lastState b order now))) as (_ & _ & H); [|done].
  unfold lastState.
  apply (match_loop_ind
    (fun st => (exists q, ms_remainder st = set_quantity n q)
               /\ Forall (fun y => exists x, x ∈ h /\ sameOrder y x) (ms_heap st)
               /\ Forall (fun t => exists x, x ∈ h
                                   /\ t = makeTrade b n n x (t_quantity t) now)
                    (ms_trades st))).
  - intros st st' ([q Hq] & Hh & Ht) Hstep.
    pose proof (match_step_Forall _ _ _ _ _ _ (from_blind h) Hstep Hh) as Hh'.
    apply match_step_inv in Hstep
      as (best & rest & Hheap & _ & _ & -> & -> & _).
    rewrite Hheap in Hh. apply Forall_cons in Hh as [(x & Hx & Hbx) _].
    split_and!; [| done |].
    + rewrite Hq. by eexists.
    + apply Forall_app. split; [done|]. constructor; [|done].
      exists x. split; [done|]. cbn [t_quantity makeTrade].
      apply makeTrade_same; [by rewrite Hq | by rewrite Hq | done].
  - unfold firstState. cbn [ms_remainder ms_heap ms_trades].
    split_and!; [| | done].
    + exists (quantity n). reflexivity.
    + apply Forall_forall. intros y Hy. by exists y.
Qed.

End TickMore.

(** * The handler of remote messages *)

Module PeerMore.
Import Heap MatchFacts BookFacts.

Lemma match_step_alike b1 b2 n now1 now2 st1 st2 :
  pair b1 = pair b2 ->
  quantityPrecision b1 = quantityPrecision b2 ->
  alike st1 st2 ->
  match match_step b1 n now1 st1, match_step b2 n now2 st2 with
  | Some st1', Some st2' => alike st1' st2'
  | None, None => True
  | _, _ => False
  end.
Proof.
  intros Hpair Hqp (Hr & Hh & Ht). rewrite !match_step_eq.
  unfold tradedQty, fill. rewrite <- Hqp, <- Hr, <- Hh.
  destruct (ltb (Fin 0) (quantity (ms_remainder st1))
            && negb (isEmpty (ms_heap st1)));
    [|done].
  destruct (ms_heap st1) as [|best rest]; [done|].
  destruct (negb (priceMatches n (ms_remainder st1) best)); [done|].
  cbv zeta.
  destruct (eqb _ (Fin 0));
    (split_and!; cbn [ms_remainder ms_heap ms_trades]; [done | done |]);
    rewrite !fmap_app, Ht; cbn [fmap list_fmap];
    unfold timeless, makeTrade; cbn; by rewrite Hpair.
Qed.

Lemma match_loop_alike b1 b2 n now1 now2 fuel st1 st2 :
  pair b1 = pair b2 ->
  quantityPrecision b1 = quantityPrecision b2 ->
  alike st1 st2 ->
  alike (match_loop b1 n now1 fuel st1) (match_loop b2 n now2 fuel st2).
Proof.
  intros Hpair Hqp. revert st1 st2.
  induction fuel as [|fuel IH]; intros st1 st2 Hal; cbn [match_loop]; [done|].
  pose proof (match_step_alike b1 b2 n now1 now2 st1 st2 Hpair Hqp Hal) as Hs.
  destruct (match_step b1 n now1 st1), (match_step b2 n now2 st2);
    try done. by apply IH.
Qed.

Lemma normalise_inStep b1 b2 order now1 now2 t :
  inStep b1 b2 -> raw_timestamp order = Some t -> t <> 0 ->
  normalise b1 order now1 = normalise b2 order now2.
Proof.
  intros (_ & Hpp & Hqp & _) Ht Hz. unfold normalise.
  rewrite Hpp, Hqp, Ht. apply Z.eqb_neq in Hz. by rewrite Hz.
Qed.

Lemma inStep_insertOrder b1 b2 o :
  inStep b1 b2 -> inStep (insertOrder b1 o) (insertOrder b2 o).
Proof.
  intros (Hpair & Hpp & Hqp & Hb & Ha). unfold insertOrder, inStep.
  destruct (side o); cbn; by rewrite ?Hb, ?Ha.
Qed.

Lemma inStep_with b1 b2 s h l1 l2 :
  inStep b1 b2 ->
  inStep (with_trades (with_opposing b1 s h) l1)
    (with_trades (with_opposing b2 s h) l2).
Proof. intros (Hpair & Hpp & Hqp & Hb & Ha). unfold inStep. by destruct s. Qed.

Lemma addOrder_inStep b1 b2 order now1 now2 t :
  inStep b1 b2 -> raw_timestamp order = Some t -> t <> 0 ->
  inStep (addOrder b1 order now1).1.1 (addOrder b2 order now2).1.1
  /\ timelessResult (addOrder b1 order now1).2
     = timelessResult (addOrder b2 order now2).2.
Proof.
  intros Hin Ht Hz.
  destruct (validateOrder order) as [m|] eqn:Hv.
  { by rewrite !(addOrder_invalid _ _ _ _ Hv). }
  rewrite !(addOrder_eq _ _ _ Hv). cbv zeta.
  pose proof (normalise_inStep b1 b2 order now1 now2 t Hin Ht Hz) as Hn.
  assert (alike (lastState b1 order now1) (lastState b2 order now2))
    as (Hr & Hh & Htr).
  { unfold lastState, firstState. rewrite <- Hn.
    assert (opposingHeap b2 (side (normalise b1 order now1))
            = opposingHeap b1 (side (normalise b1 order now1))) as ->.
    { destruct Hin as (_ & _ & _ & Hb & Ha). by destruct (side _). }
    destruct Hin as (? & _ & ? & _). by apply match_loop_alike. }
  assert (length (ms_trades (lastState b1 order now1))
          = length (ms_trades (lastState b2 order now2))) as Hlen.
  { by rewrite <- (length_fmap timeless), Htr, length_fmap. }
  rewrite <- Hn, <- Hr, <- Hh, <- Hlen.
  destruct (ltb (Fin 0) (quantity (ms_remainder (lastState b1 order now1))));
    [destruct (type (ms_remainder (lastState b1 order now1)))|];
    cbn [fst snd timelessResult r_trades r_remainder r_status];
    (split; [|by rewrite Htr]);
    try apply inStep_insertOrder; by apply inStep_with.
Qed.

Lemma handle_own_order self order now :
  w_peerId order = Some (p_peerId self) ->
  handleRemoteMessage self (newOrderMessage order) now
  = (self, [], Returned ReplyNull).
Proof.
  intros Hp. unfold handleRemoteMessage, newOrderMessage.
  cbn [mbind option_bind m_type m_order]. cbn [String.eqb Ascii.eqb Bool.eqb].
  by rewrite Hp, String.eqb_refl.
Qed.

Lemma handle_remote_order self order now :
  w_peerId order <> Some (p_peerId self) ->
  handleRemoteMessage self (newOrderMessage order) now
  = (with_orderBook self (addOrder (p_orderBook self) (ofWire order) now).1.1,
     (addOrder (p_orderBook self) (ofWire order) now).1.2,
     match (addOrder (p_orderBook self) (ofWire order) now).2 with
     | Returned r => Returned (ReplyResult r)
     | Threw message => Threw message
     end).
Proof.
  intros Hp. unfold handleRemoteMessage, newOrderMessage.
  cbn [mbind option_bind m_type m_order]. cbn [String.eqb Ascii.eqb Bool.eqb].
  rewrite applyRemoteOrder_addOrder.
  destruct (w_peerId order) as [p|] eqn:E.
  - destruct (String.eqb p (p_peerId self)) eqn:E2.
    + apply String.eqb_eq in E2. congruence.
    + by destruct (addOrder (p_orderBook self) (ofWire order) now)
        as [[? ?] ?].
  - by destruct (addOrder (p_orderBook self) (ofWire order) now) as [[? ?] ?].
Qed.



End PeerMore.

(** * Further properties of the code *)

Module Extras.
Import NumFacts Heap HeapFacts ComparatorFacts MatchFacts BookFacts Sample.
Import RoundMore HeapMore CancelMore AddMore BookMore LoopMore HookMore TickMore
  PeerMore.

(** ** Heap.js *)







(** X4.  [updateQuantity]: it overwrites the quantity of the first order of
    the array with the id and touches nothing else, no order at all when
    the id is not there; the array keeps its length and, with the
    comparator of either side, its heap shape, without any sifting. *)
Theorem updateQuantity_keeps_the_heap c i q d :
  c = bidComparator \/ c = askComparator ->
  heapOrdered c d ->
  heapOrdered c (updateQuantity i q d)
  /\ size (updateQuantity i q d) = size d
  /\ (Forall (fun o => id o <> i) d -> updateQuantity i q d = d)
  /\ (forall k o, d !! k = Some o -> id o = i ->
        (forall j x, (j < k)%nat -> d !! j = Some x -> id x <> i) ->
        updateQuantity i q d = <[k := set_quantity o q]> d).
Proof.
  intros Hc Ho. split_and!.
  - by apply updateQuantity_ordered.
  - apply updateQuantity_length.
  - apply updateQuantity_missing.
  - apply updateQuantity_first.
Qed.

Lemma updateQuantity_keeps_the_heap_witness :
  heapOrdered askComparator
    (updateQuantity "a1" (Fin (1 # 2)) twoAsks)
  /\ size (updateQuantity "a1" (Fin (1 # 2)) twoAsks)
     = size twoAsks
  /\ (Forall (fun o => id o <> "a1") twoAsks ->
      updateQuantity "a1" (Fin (1 # 2)) twoAsks
      = twoAsks)
  /\ (forall k o, twoAsks !! k
        = Some o -> id o = "a1" ->
        (forall j x, (j < k)%nat -> twoAsks !! j
           = Some x -> id x <> "a1") ->
        updateQuantity "a1" (Fin (1 # 2)) twoAsks
        = <[k := set_quantity o (Fin (1 # 2))]> twoAsks).
Proof.
  apply (updateQuantity_keeps_the_heap askComparator "a1" (Fin (1 # 2)) twoAsks).
  - by right.
  - apply ordered_check. vm_compute. reflexivity.
Defined.



(** ** cancelOrder *)

(** X6.  [cancelOrder] with an id that no resting order has: it returns null,
    leaves the book as it is and calls no hook. *)
Theorem cancelOrder_unknown_id b i :
  Forall (fun o => id o <> i) (bids b ++ asks b) ->
  cancelOrder b i = (b, [], None).
Proof.
  rewrite Forall_app. intros [Hb Ha]. unfold cancelOrder.
  apply findIndex_None in Hb, Ha.
  rewrite (removeById_missing _ _ _ Hb), (removeById_missing _ _ _ Ha).
  by rewrite with_asks_same.
Qed.

Lemma cancelOrder_unknown_id_witness :
  cancelOrder bookQ "zz" = (bookQ, [], None).
Proof.
  apply (cancelOrder_unknown_id bookQ "zz").
  vm_compute. repeat constructor; discriminate.
Defined.

(** X7.  [cancelOrder] with an id that a resting order has: it returns one
    such order with its status set to [CANCELLED], a bid if any bid has
    the id and an ask otherwise; that order leaves its heap, nothing
    else in the book changes, and the [ORDER_REMOVED] hook, if
    registered, is called once with the returned order. *)
Theorem cancelOrder_removes_one b i :
  Exists (fun o => id o = i) (bids b ++ asks b) ->
  exists o rest b',
    cancelOrder b i
    = (b',
       if onOrderRemoved (hooks b)
       then [ {| e_event := ORDER_REMOVED;
                 e_data := OfOrder (set_status o CANCELLED);
                 e_trades := trades b |} ]
       else [],
       Some (set_status o CANCELLED))
    /\ id o = i
    /\ ((bids b ≡ₚ o :: rest /\ b' = with_bids b rest)
        \/ (Forall (fun x => id x <> i) (bids b)
            /\ asks b ≡ₚ o :: rest /\ b' = with_asks b rest)).
Proof.
  intros Hex.
  destruct (Exists_id_dec i (bids b)) as [Hb|Hb].
  - destruct (removeById_some bidComparator i (bids b) Hb)
      as (o & rest & Hr & Hi & Hp).
    exists o, rest, (with_bids b rest).
    rewrite (cancelOrder_bid b i o rest Hr). split_and!; [done | done | by left].
  - apply Exists_app in Hex as [Hex|Hex].
    { apply Exists_exists in Hex as (o & Ho & Hi).
      rewrite Forall_forall in Hb. by destruct (Hb o Ho). }
    destruct (removeById_some askComparator i (asks b) Hex)
      as (o & rest & Hr & Hi & Hp).
    exists o, rest, (with_asks b rest).
    rewrite (cancelOrder_ask b i o rest Hb Hr).
    split_and!; [done | done | by right].
Qed.

Lemma cancelOrder_removes_one_witness :
  exists o rest b',
    cancelOrder bookQ "a1"
    = (b',
       if onOrderRemoved (hooks bookQ)
       then [ {| e_event := ORDER_REMOVED;
                 e_data := OfOrder (set_status o CANCELLED);
                 e_trades := trades bookQ |} ]
       else [],
       Some (set_status o CANCELLED))
    /\ id o = "a1"
    /\ ((bids bookQ ≡ₚ o :: rest /\ b' = with_bids bookQ rest)
        \/ (Forall (fun x => id x <> "a1") (bids bookQ)
            /\ asks bookQ ≡ₚ o :: rest /\ b' = with_asks bookQ rest)).
Proof.
  apply (cancelOrder_removes_one bookQ "a1").
  vm_compute. apply Exists_cons_tl, Exists_cons_tl, Exists_cons_hd. reflexivity.
Defined.

(** X8.  Adding and cancelling: when [addOrder] leaves a limit order resting
    under an id that no resting order had, [cancelOrder] with that id
    returns exactly that order, marked [CANCELLED]; the heap of its side
    holds again the orders it held before the two calls, and the
    opposing heap and the trade log stay as [addOrder] left them. *)
Theorem cancel_takes_back_a_resting_order b order now b1 fired r o :
  addOrder b order now = (b1, fired, Returned r) ->
  r_remainder r = Some o -> type o = LIMIT ->
  Forall (fun x => id x <> id o) (bids b ++ asks b) ->
  exists b2 fired2,
    cancelOrder b1 (id o) = (b2, fired2, Some (set_status o CANCELLED))
    /\ sameHeap b2 (side o) ≡ₚ sameHeap b (side o)
    /\ opposingHeap b2 (side o) = opposingHeap b1 (side o)
    /\ trades b2 = trades b1.
Proof.
  intros Hadd Hrem Hty Hfresh.
  pose proof (lastState_side b order now) as Hs.
  pose proof (lastState_id b order now) as Hid.
  pose proof (lastState_Forall (fun x => id x <> id (normalise b order now))
                b order now (id_blind _)) as Hopp.
  destruct (lastState_remainder b order now) as [_ [q Hr]].
  destruct (addOrder_inv _ _ _ _ _ _ Hadd)
    as (_ & _ & [(_ & _ & Hn & _) | (_ & Hsome & _ & [[Ht ->] | [Ht ->]])]).
  { congruence. }
  2:{ rewrite Hrem in Hsome. injection Hsome as Ho.
      rewrite Ho, Hr in Hty. cbn [type set_status set_quantity] in Hty.
      congruence. }
  rewrite Hrem in Hsome. injection Hsome as Ho.
  set (st := lastState b order now) in *.
  set (n := normalise b order now) in *.
  assert (id o = id n) as Hio by (by rewrite Ho).
  assert (side o = side n) as Hso by (by rewrite Ho).
  rewrite <- Ho in *. rewrite Hio, Hso. rewrite Hio in Hfresh.
  apply Forall_app in Hfresh as [Hfb Hfa].
  unfold insertOrder. rewrite Hso.
  destruct (side n) eqn:Hsn;
    cbn [with_opposing with_bids with_asks with_trades bids asks trades
         sameHeap opposingHeap] in *.
  - destruct (removeById_fresh bidComparator o (bids b)) as (rest & Hrm & Hp).
    { by rewrite Hio. }
    rewrite Hio in Hrm.
    eexists _, _. split; [by apply cancelOrder_bid|]. done.
  - destruct (removeById_fresh askComparator o (asks b)) as (rest & Hrm & Hp).
    { by rewrite Hio. }
    rewrite Hio in Hrm.
    eexists _, _. split; [apply cancelOrder_ask; [|done]|done].
    cbn [bids]. by apply Hopp.
Qed.

Lemma cancel_takes_back_a_resting_order_witness :
  exists b1 fired r o b2 fired2,
    addOrder bookQ buy115 7 = (b1, fired, Returned r)
    /\ r_remainder r = Some o
    /\ cancelOrder b1 (id o) = (b2, fired2, Some (set_status o CANCELLED))
    /\ sameHeap b2 (side o) ≡ₚ sameHeap bookQ (side o)
    /\ opposingHeap b2 (side o) = opposingHeap b1 (side o)
    /\ trades b2 = trades b1.
Proof.
  eexists _, _, _, _.
  edestruct (cancel_takes_back_a_resting_order bookQ
               buy115 7) as (b2 & fired2 & H).
  - vm_compute. reflexivity.
  - vm_compute. reflexivity.
  - vm_compute. reflexivity.
  - vm_compute. repeat constructor; discriminate.
  - exists b2, fired2. split; [vm_compute; reflexivity|].
    split; [vm_compute; reflexivity|]. exact H.
Defined.

(** ** addOrder *)

(** X9.  The trade log only grows, and by nothing but what [addOrder] and
    [applyRemoteOrder] return: after any sequence of operations
    [getTrades()] is the log from before followed by the trades each
    call returned, in order; [cancelOrder] and [loadSnapshot] leave the
    log alone. *)
Theorem trade_log_is_appended_to b ops :
  getTrades (run b ops) = getTrades b ++ tradesOfRun b ops.
Proof.
  unfold getTrades, run. revert b.
  induction ops as [|op ops IH]; intros b; cbn [fold_left tradesOfRun].
  - by rewrite app_nil_r.
  - by rewrite IH, step_trades, app_assoc.
Qed.

(** X10.  What [addOrder] returns: with no remainder the status is [FILLED];
    otherwise the remainder is the normalised order with a positive
    quantity left and the returned status, which is [OPEN] when the call
    made no trade and [PARTIALLY_FILLED] when it made one. *)
Theorem addOrder_result b order now b' fired r :
  addOrder b order now = (b', fired, Returned r) ->
  match r_remainder r with
  | None => r_status r = FILLED
  | Some o =>
      ltb (Fin 0) (quantity o) = true
      /\ r_status r = match r_trades r with
                      | [] => OPEN
                      | _ :: _ => PARTIALLY_FILLED
                      end
      /\ o = set_status (set_quantity (normalise b order now) (quantity o))
               (r_status r)
  end.
Proof.
  intros Hadd. destruct (addOrder_inv _ _ _ _ _ _ Hadd)
    as (_ & -> & [(_ & _ & -> & ->) | (Hq & -> & -> & _)]); [done|].
  destruct (lastState_remainder b order now) as [_ [q Hr]].
  rewrite Hr in *. cbn [quantity set_status set_quantity status] in *.
  split_and!; [done | | done].
  by destruct (ms_trades (lastState b order now)).
Qed.

Lemma addOrder_result_witness :
  exists b' fired r,
    addOrder bookQ buy115 7 = (b', fired, Returned r)
    /\ match r_remainder r with
       | None => r_status r = FILLED
       | Some o =>
           ltb (Fin 0) (quantity o) = true
           /\ r_status r = match r_trades r with
                           | [] => OPEN
                           | _ :: _ => PARTIALLY_FILLED
                           end
           /\ o = set_status
                    (set_quantity (normalise bookQ buy115 7)
                       (quantity o))
                    (r_status r)
       end.
Proof.
  eexists _, _, _. split.
  - vm_compute. reflexivity.
  - eapply addOrder_result. vm_compute. reflexivity.
Defined.

(** X11.  Where the remainder goes: when [addOrder] returns a remainder of a
    limit order, the heap of the order's side holds that remainder and
    the orders it held before; in every other case that heap is the
    array it was. *)
Theorem remainder_rests_on_its_side b order now b' fired r :
  addOrder b order now = (b', fired, Returned r) ->
  let s := side (normalise b order now) in
  match r_remainder r with
  | Some o =>
      match type o with
      | LIMIT => side o = s /\ sameHeap b' s ≡ₚ o :: sameHeap b s
      | MARKET => sameHeap b' s = sameHeap b s
      end
  | None => sameHeap b' s = sameHeap b s
  end.
Proof.
  intros Hadd s. pose proof (lastState_side b order now) as Hs.
  destruct (lastState_remainder b order now) as [_ [q Hr]].
  destruct (addOrder_inv _ _ _ _ _ _ Hadd)
    as (_ & _ & [(_ & -> & -> & _) | (_ & -> & _ & [[Ht ->] | [Ht ->]])]).
  - apply sameHeap_with_opposing.
  - assert (type (set_status (ms_remainder (lastState b order now))
              (if Nat.ltb 0 (length (ms_trades (lastState b order now)))
               then PARTIALLY_FILLED else OPEN)) = LIMIT) as ->
      by (by rewrite Hr).
    split; [done|].
    rewrite sameHeap_insertOrder_perm by done.
    by rewrite sameHeap_with_opposing.
  - assert (type (set_status (ms_remainder (lastState b order now))
              (if Nat.ltb 0 (length (ms_trades (lastState b order now)))
               then PARTIALLY_FILLED else OPEN)) = MARKET) as ->
      by (by rewrite Hr).
    apply sameHeap_with_opposing.
Qed.

Lemma remainder_rests_on_its_side_witness :
  exists b' fired r,
    addOrder bookQ buy115 7 = (b', fired, Returned r)
    /\ match r_remainder r with
       | Some o =>
           match type o with
           | LIMIT =>
               side o = side (normalise bookQ buy115 7)
               /\ sameHeap b' (side (normalise bookQ buy115 7))
                  ≡ₚ o :: sameHeap bookQ
                            (side (normalise bookQ buy115 7))
           | MARKET =>
               sameHeap b' (side (normalise bookQ buy115 7))
               = sameHeap bookQ
                   (side (normalise bookQ buy115 7))
           end
       | None =>
           sameHeap b' (side (normalise bookQ buy115 7))
           = sameHeap bookQ (side (normalise bookQ buy115 7))
       end.
Proof.
  eexists _, _, _. split.
  - vm_compute. reflexivity.
  - eapply remainder_rests_on_its_side. vm_compute. reflexivity.
Defined.

(** ** The matching loop *)

(** X12.  Whether [addOrder] trades is decided at the top of the opposing
    heap.  When that heap is empty, or its top order does not meet the
    order's price, or the order's quantity rounds to nothing, the call
    makes no trade and leaves the opposing heap as it is.  Otherwise it
    trades, and its first trade is with the top order, at that order's
    price, for the smaller of the two quantities, rounded. *)
Theorem first_trade_is_with_the_best b order now b' fired r :
  addOrder b order now = (b', fired, Returned r) ->
  let n := normalise b order now in
  match peek (opposingHeap b (side n)) with
  | Some best =>
      if priceMatches n n best && ltb (Fin 0) (quantity n)
      then exists t rest,
             r_trades r = t :: rest
             /\ t_price t = price best
             /\ restingId (side n) t = id best
             /\ t_quantity t
                = roundN (min (quantity n) (quantity best))
                    (quantityPrecision b)
      else r_trades r = []
           /\ opposingHeap b' (side n) = opposingHeap b (side n)
  | None =>
      r_trades r = [] /\ opposingHeap b' (side n) = opposingHeap b (side n)
  end.
Proof.
  intros Hadd n. subst n.
  rewrite (addOrder_opposing _ _ _ _ _ _ Hadd).
  destruct (addOrder_inv _ _ _ _ _ _ Hadd) as (_ & -> & _).
  pose proof (lastState_first b order now) as Hfirst. cbv zeta in Hfirst.
  destruct (match_step b (normalise b order now) now (firstState b order now))
    as [st'|] eqn:Hstep.
  - destruct Hfirst as (tl & ->).
    apply match_step_inv in Hstep
      as (best & rest & Hheap & Hq & Hpm & -> & _).
    unfold firstState in Hheap, Hq, Hpm.
    cbn [ms_heap ms_remainder ms_trades] in *. rewrite clone_same in *.
    rewrite Hheap. cbn [peek lookup list_lookup]. rewrite Hpm.
    rewrite Hq. cbn [andb app].
    eexists _, _. split; [done|].
    unfold restingId, makeTrade, tradedQty. cbn [t_price t_quantity].
    split_and!; [done | by destruct (side _) | done].
  - rewrite Hfirst. unfold firstState. cbn [ms_trades ms_heap].
    apply match_step_None in Hstep
      as [Hq | [Hheap | (best & rest & Hheap & Hpm)]];
      unfold firstState in *; cbn [ms_heap ms_remainder] in *;
      rewrite ?clone_same in *.
    + rewrite Hq.
      destruct (peek _); [|done]. by rewrite andb_false_r.
    + by rewrite Hheap.
    + rewrite Hheap. cbn [peek lookup list_lookup]. by rewrite Hpm.
Qed.

Lemma first_trade_is_with_the_best_witness :
  exists b' fired r,
    addOrder bookQ buy115 7 = (b', fired, Returned r)
    /\ match peek (opposingHeap bookQ
                     (side (normalise bookQ buy115 7))) with
       | Some best =>
           if priceMatches (normalise bookQ buy115 7)
                (normalise bookQ buy115 7) best
              && ltb (Fin 0) (quantity (normalise bookQ buy115 7))
           then exists t rest,
                  r_trades r = t :: rest
                  /\ t_price t = price best
                  /\ restingId
                       (side (normalise bookQ buy115 7)) t
                     = id best
                  /\ t_quantity t
                     = roundN
                         (min (quantity
                                 (normalise bookQ buy115 7))
                            (quantity best))
                         (quantityPrecision bookQ)
           else r_trades r = []
                /\ opposingHeap b'
                     (side (normalise bookQ buy115 7))
                   = opposingHeap bookQ
                       (side (normalise bookQ buy115 7))
       | None =>
           r_trades r = []
           /\ opposingHeap b'
                (side (normalise bookQ buy115 7))
              = opposingHeap bookQ
                  (side (normalise bookQ buy115 7))
       end.
Proof.
  eexists _, _, _. split.
  - vm_compute. reflexivity.
  - eapply first_trade_is_with_the_best. vm_compute. reflexivity.
Defined.

(** X13.  Every trade is with an order that rested.  Each trade [addOrder]
    returns is the trade record of [#match] for the normalised order
    and an order that was in the opposing heap before the call: it names
    the two ids and the two peers on their sides, carries the resting
    order's price, the book's pair and the call's clock reading. *)
Theorem trades_are_with_resting_orders b order now b' fired r :
  addOrder b order now = (b', fired, Returned r) ->
  let n := normalise b order now in
  Forall (fun t => exists x, x ∈ opposingHeap b (side n)
                    /\ t = makeTrade b n n x (t_quantity t) now)
    (r_trades r).
Proof.
  intros Hadd n.
  destruct (addOrder_inv _ _ _ _ _ _ Hadd) as (_ & -> & _).
  apply lastState_made.
Qed.

Lemma trades_are_with_resting_orders_witness :
  exists b' fired r,
    addOrder bookQ buy115 7 = (b', fired, Returned r)
    /\ Forall (fun t =>
                 exists x,
                   x ∈ opposingHeap bookQ
                         (side (normalise bookQ buy115 7))
                   /\ t = makeTrade bookQ
                            (normalise bookQ buy115 7)
                            (normalise bookQ buy115 7)
                            x (t_quantity t) 7)
         (r_trades r).
Proof.
  eexists _, _, _. split.
  - vm_compute. reflexivity.
  - eapply trades_are_with_resting_orders. vm_compute. reflexivity.
Defined.

(** X14.  A limit order never trades through its limit: every trade of a
    limit buy is priced at or below the order's (rounded) price, every
    trade of a limit sell at or above it. *)
Theorem limit_price_is_respected b order now b' fired r :
  addOrder b order now = (b', fired, Returned r) ->
  isMarket (raw_type order) = false ->
  Forall (within (side (normalise b order now))
            (roundN (toNumber (raw_price order)) (pricePrecision b)))
    (r_trades r).
Proof.
  intros Hadd Hm.
  destruct (addOrder_inv _ _ _ _ _ _ Hadd) as (_ & -> & _).
  pose proof (lastState_within b order now) as H.
  rewrite normalise_type, normalise_price, Hm in H.
  by apply H.
Qed.

Lemma limit_price_is_respected_witness :
  exists b' fired r,
    addOrder bookQ buy115 7 = (b', fired, Returned r)
    /\ Forall (within (side (normalise bookQ buy115 7))
                 (roundN (toNumber (raw_price buy115))
                    (pricePrecision bookQ)))
         (r_trades r).
Proof.
  eexists _, _, _. split.
  - vm_compute. reflexivity.
  - eapply limit_price_is_respected; vm_compute; reflexivity.
Defined.







(** ** Hooks *)

(** X18.  The hooks of one [addOrder] call, in the order they are called:
    first [ORDER_REMOVED], once for each resting order the loop used up
    (its argument has quantity 0 and, still, the status it rested with,
    and the log it can read has none of the call's trades); then
    [TRADE], once for each returned trade, in order; then [ORDER_ADDED],
    once, when a limit remainder rests.  The last two read the complete
    log; a hook that is not registered is not called. *)
Theorem hooks_fire_in_order b order now b' fired r :
  addOrder b order now = (b', fired, Returned r) ->
  let h := opposingHeap b (side (normalise b order now)) in
  let h' := opposingHeap b' (side (normalise b order now)) in
  let log := trades b ++ r_trades r in
  exists removed,
    fired = removed ++ tradeEvents b log (r_trades r)
                    ++ addedEvents b log (r_remainder r)
    /\ Forall (spentEvent (trades b) h) removed
    /\ (onOrderRemoved (hooks b) = false -> removed = [])
    /\ (onOrderRemoved (hooks b) = true ->
        (length removed + length h' = length h)%nat).
Proof.
  intros Hadd h h' log. subst h'.
  rewrite (addOrder_opposing _ _ _ _ _ _ Hadd).
  destruct (lastState_removed b order now) as (H1 & H2 & H3).
  exists (ms_emitted (lastState b order now)).
  split; [|done].
  destruct (validateOrder order) as [m|] eqn:Hv.
  { by rewrite (addOrder_invalid _ _ _ _ Hv) in Hadd. }
  rewrite (addOrder_eq _ _ _ Hv) in Hadd. cbv zeta in Hadd.
  rewrite flat_map_emit_trade in Hadd.
  subst log.
  assert (forall s hp l, hooks (with_trades (with_opposing b s hp) l) = hooks b)
    as Hhooks by (intros s ? ?; by destruct s).
  assert (forall s hp l, trades (with_trades (with_opposing b s hp) l) = l)
    as Htrades by (intros s ? ?; by destruct s).
  unfold tradeEvents, addedEvents, emit in *.
  rewrite Hhooks, Htrades in Hadd.
  destruct (ltb (Fin 0) (quantity (ms_remainder (lastState b order now))));
    [destruct (type (ms_remainder (lastState b order now))) eqn:Hty|];
    injection Hadd as <- <- <-; cbn [r_trades r_remainder type set_status].
  - rewrite Hty. unfold getTrades. rewrite trades_insertOrder, Htrades.
    cbn [hookOf]. unfold insertOrder.
    destruct (side (set_status _ _)); cbn [hooks with_bids with_asks];
      rewrite Hhooks; by rewrite app_assoc.
  - rewrite Hty. by rewrite app_nil_r.
  - by rewrite app_nil_r.
Qed.

Lemma hooks_fire_in_order_witness :
  exists b' fired r removed,
    addOrder bookQ buy115 7 = (b', fired, Returned r)
    /\ fired = removed
               ++ tradeEvents bookQ (trades bookQ ++ r_trades r) (r_trades r)
               ++ addedEvents bookQ (trades bookQ ++ r_trades r) (r_remainder r)
    /\ Forall (spentEvent (trades bookQ)
                 (opposingHeap bookQ
                    (side (normalise bookQ buy115 7))))
         removed
    /\ (onOrderRemoved (hooks bookQ) = false -> removed = [])
    /\ (onOrderRemoved (hooks bookQ) = true ->
        (length removed
         + length (opposingHeap b'
                     (side (normalise bookQ buy115 7)))
         = length (opposingHeap bookQ
                     (side (normalise bookQ buy115 7))))%nat).
Proof.
  eexists _, _, _.
  edestruct (hooks_fire_in_order bookQ buy115 7)
    as (removed & H).
  - vm_compute. reflexivity.
  - exists removed. split; [vm_compute; reflexivity | exact H].
Defined.

(** ** Snapshots, the spread and the price step *)


(** X20.  [spread] of a sound book: it is null exactly when one side is
    empty, and it is never negative. *)
Theorem spread_of_a_sound_book b :
  sound b ->
  (spread b = None <-> bids b = [] \/ asks b = [])
  /\ (forall s, spread b = Some s -> leb (Fin 0) s = true).
Proof.
  intros Hs. pose proof (sound_uncrossed b Hs) as Hu.
  destruct Hs as (_ & _ & Hpb & Hpa & _). rewrite Forall_forall in Hpb, Hpa.
  split; [apply spread_None|].
  unfold spread. intros s.
  destruct (bestBid b) as [x|] eqn:Hx, (bestAsk b) as [y|] eqn:Hy; try done.
  intros [= <-]. specialize (Hu x y Hx Hy).
  apply list_elem_of_lookup_2 in Hx, Hy.
  rewrite (priced_price x (Hpb x Hx)), (priced_price y (Hpa y Hy)) in Hu |- *.
  cbn [toNumber sub roundN]. apply ltb_fin in Hu. apply leb_fin.
  apply round_nonneg. lra.
Qed.

Lemma spread_of_a_sound_book_witness :
  (spread bookQ = None <-> bids bookQ = [] \/ asks bookQ = [])
  /\ (forall s, spread bookQ = Some s -> leb (Fin 0) s = true).
Proof.
  apply (spread_of_a_sound_book bookQ).
  apply run_sound; [|finite_ops].
  by apply (newOrderBook_sound "BTC/USDT" None None allHooks).
Defined.

(** X21.  Prices stay on the tick.  Starting from a new book, after any
    sequence of [addOrder], [applyRemoteOrder], [cancelOrder] and
    [loadSnapshot] calls in which every limit order added has a finite
    price and every loaded snapshot lists orders at finite multiples of
    the price step ([null] counting as 0), every resting price is a
    finite multiple of the price step. *)
Theorem resting_prices_stay_on_the_tick p pp qp h b ops :
  newOrderBook p pp qp h = Returned b ->
  Forall (tidyOp (pricePrecision b)) ops ->
  Forall (fun o =>
            isFin (toNumber (price o))
            /\ exists n : Z,
                 (priceOf o == inject_Z n / scale (pricePrecision b))%Q)
    (bids (run b ops) ++ asks (run b ops)).
Proof.
  intros Hnew Htidy.
  pose proof (run_tidy b ops (newOrderBook_tidy _ _ _ _ _ Hnew) Htidy) as Ht.
  assert (pricePrecision (run b ops) = pricePrecision b) as Hpp.
  { clear. revert b. induction ops as [|op ops IH]; intros b; [done|].
    simpl. by rewrite IH, step_pricePrecision. }
  unfold tidy in Ht. rewrite Hpp in Ht.
  eapply Forall_impl; [exact Ht|]. intros o [Hf Hg].
  split; [done|]. by apply onGrid_multiple.
Qed.

Lemma resting_prices_stay_on_the_tick_witness :
  Forall (fun o =>
            isFin (toNumber (price o))
            /\ exists n : Z,
                 (priceOf o == inject_Z n / scale (pricePrecision book0))%Q)
    (bids bookQ ++ asks bookQ).
Proof.
  apply (resting_prices_stay_on_the_tick "BTC/USDT" None None allHooks book0).
  - reflexivity.
  - finite_ops.
Defined.

(** ** Rounding *)

(** X22.  [#round(value, decimals)] returns the multiple of [10^-decimals]
    nearest to [value]: it is such a multiple, it is within half a step
    of [value], rounding it again changes nothing, and the rounding of
    [-value] is the opposite. *)
Theorem round_is_nearest x d :
  (exists n : Z, round x d == inject_Z n / scale d)%Q
  /\ (Qabs (round x d - x) <= (1 # 2) / scale d)%Q
  /\ (round (round x d) d == round x d)%Q
  /\ (round (- x) d == - round x d)%Q.
Proof.
  split_and!;
    [apply round_is_multiple | apply round_near | apply round_idem
    | apply round_opp].
Qed.

(** X23.  [#round] keeps the order of numbers: a smaller value never rounds
    to more than a larger one. *)
Theorem round_is_monotone x y d :
  (x <= y)%Q -> (round x d <= round y d)%Q.
Proof.
  intros Hxy. pose proof (scale_pos d) as Hs.
  destruct (Qlt_le_dec x 0) as [Hx|Hx], (Qlt_le_dec y 0) as [Hy|Hy].
  - unfold round.
    assert (Qle_bool 0 x = false) as -> by (apply Qle_bool_gt; done).
    assert (Qle_bool 0 y = false) as -> by (apply Qle_bool_gt; done).
    rewrite !Qabs_neg by lra.
    assert (Qfloor (- y * scale d + (1 # 2)) <= Qfloor (- x * scale d + (1 # 2)))%Z
      as Hf by (apply Qfloor_resp_le; nra).
    rewrite Zle_Qle in Hf.
    apply Qopp_le_compat.
    apply Qle_shift_div_l; [done|].
    set (a := inject_Z (Qfloor (- y * scale d + (1 # 2)))) in *.
    set (b := inject_Z (Qfloor (- x * scale d + (1 # 2)))) in *.
    assert (a / scale d * scale d == a)%Q as -> by (field; lra). done.
  - pose proof (round_nonpos x d). pose proof (round_nonneg y d). lra.
  - lra.
  - unfold round.
    assert (Qle_bool 0 x = true) as -> by (apply Qle_bool_iff; done).
    assert (Qle_bool 0 y = true) as -> by (apply Qle_bool_iff; done).
    rewrite !Qabs_pos by lra.
    assert (Qfloor (x * scale d + (1 # 2)) <= Qfloor (y * scale d + (1 # 2)))%Z
      as Hf by (apply Qfloor_resp_le; nra).
    rewrite Zle_Qle in Hf.
    apply Qle_shift_div_l; [done|].
    set (a := inject_Z (Qfloor (x * scale d + (1 # 2)))) in *.
    set (b := inject_Z (Qfloor (y * scale d + (1 # 2)))) in *.
    assert (a / scale d * scale d == a)%Q as -> by (field; lra). done.
Qed.

Lemma round_is_monotone_witness :
  (round (1004 # 1000) 2 <= round (1005 # 1000) 2)%Q.
Proof. apply (round_is_monotone (1004 # 1000) (1005 # 1000) 2). done. Defined.

(** ** Peer.js *)

(** X24.  One order on two peers.  Peer [a] submits an order with finite
    numbers, stamped with its id and a time, to its own book
    ([addOrder], the first step of [submitOrder]) and the [NEW_ORDER]
    message reaches every peer, [a] included.  Then [a] ignores its own
    message, and a peer [b] whose book was in step with [a]'s applies it
    and is in step again: the same heaps, whatever the two clocks read;
    the two results differ in the clock readings of the trades only. *)
Theorem peers_stay_in_step a b order nowA nowB nowE t :
  inStep (p_orderBook a) (p_orderBook b) ->
  w_peerId order = Some (p_peerId a) ->
  p_peerId b <> p_peerId a ->
  w_timestamp order = Some t -> t <> 0 ->
  let a1 :=
    with_orderBook a (addOrder (p_orderBook a) (ofWire order) nowA).1.1 in
  let b1 := (handleRemoteMessage b (newOrderMessage order) nowB).1.1 in
  handleRemoteMessage a1 (newOrderMessage order) nowE
  = (a1, [], Returned ReplyNull)
  /\ inStep (p_orderBook a1) (p_orderBook b1)
  /\ p_peerId b1 = p_peerId b
  /\ match (handleRemoteMessage b (newOrderMessage order) nowB).2 with
     | Returned (ReplyResult r) =>
         timelessResult (Returned r)
         = timelessResult (addOrder (p_orderBook a) (ofWire order) nowA).2
     | Returned _ => False
     | Threw message =>
         (addOrder (p_orderBook a) (ofWire order) nowA).2 = Threw message
     end.
Proof.
  intros Hin Hp Hne Ht Hz a1 b1.
  destruct (addOrder_inStep (p_orderBook a) (p_orderBook b) (ofWire order)
              nowA nowB t Hin Ht Hz) as [H1 H2].
  subst b1.
  rewrite (handle_remote_order b) by congruence.
  cbn [fst snd].
  split_and!.
  - by apply handle_own_order.
  - done.
  - done.
  - destruct (addOrder (p_orderBook b) (ofWire order) nowB).2 as [r|m] eqn:E.
    + by rewrite H2.
    + destruct (addOrder (p_orderBook a) (ofWire order) nowA).2; cbn in H2;
        congruence.
Qed.

Lemma peers_stay_in_step_witness :
  let order := signed "b2" "buy" 115 3 7 "peer_1" in
  let a := peerOf "peer_1" bookQ in
  let b := peerOf "peer_2" bookQ in
  let a1 :=
    with_orderBook a (addOrder (p_orderBook a) (ofWire order) 7).1.1 in
  let b1 := (handleRemoteMessage b (newOrderMessage order) 9).1.1 in
  handleRemoteMessage a1 (newOrderMessage order) 8
  = (a1, [], Returned ReplyNull)
  /\ inStep (p_orderBook a1) (p_orderBook b1)
  /\ p_peerId b1 = p_peerId b
  /\ match (handleRemoteMessage b (newOrderMessage order) 9).2 with
     | Returned (ReplyResult r) =>
         timelessResult (Returned r)
         = timelessResult (addOrder (p_orderBook a) (ofWire order) 7).2
     | Returned _ => False
     | Threw message =>
         (addOrder (p_orderBook a) (ofWire order) 7).2 = Threw message
     end.
Proof.
  apply (peers_stay_in_step (peerOf "peer_1" bookQ) (peerOf "peer_2" bookQ)
           (signed "b2" "buy" 115 3 7 "peer_1") 7 9 8 7).
  - by repeat split.
  - reflexivity.
  - discriminate.
  - reflexivity.
  - lia.
Defined.


End Extras.
